(** * Eulerian circuits, Eulerian paths and eulerization

    A shallow embedding of [networkx/algorithms/euler.py] (networkx 2.4):
    the degree-parity predicates, the stack-based circuit builder for simple
    graphs and for multigraphs, and [eulerize].  The graph container, the
    connectivity predicates, the shortest-path solver and the matching solver
    are collaborators of that module; they are modelled here as far as the
    module uses them. *)

From Stdlib Require Import String ZArith QArith Lqa List Arith Bool Lia Permutation.
Import ListNotations.
Local Open Scope string_scope.
Local Open Scope nat_scope.
Local Open Scope list_scope.

Set Implicit Arguments.

(** ** Exceptions and results *)

Inductive exn : Type :=
| NetworkXError (msg : string)
| NetworkXPointlessConcept (msg : string)
| NetworkXNotImplemented (msg : string)
| NetworkXNoPath
| StopIteration
| ValueError
| KeyError
| IndexError
| TypeError
| NoObject
| ZeroDivisionError
| OutOfFuel.

Inductive result (A : Type) : Type :=
| Ok (a : A)
| Raise (e : exn).
Arguments Ok {A} a.
Arguments Raise {A} e.

Definition bind {A B : Type} (r : result A) (k : A -> result B) : result B :=
  match r with
  | Ok a => k a
  | Raise e => Raise e
  end.

Notation "x <- r ;; k" := (bind r (fun x => k))
  (at level 61, r at next level, right associativity).

(** ** The graph container *)

Definition node := nat.
Definition key := nat.
Definition edge := (node * node * key)%type.

Definition src (e : edge) : node := fst (fst e).
Definition dst (e : edge) : node := snd (fst e).
Definition ekey (e : edge) : key := snd e.
Definition flip (e : edge) : edge := (dst e, src e, ekey e).
Definition ends (e : edge) : node * node := fst e.

(** Modelled from the spec: the graph container of networkx ([Graph],
    [DiGraph], [MultiGraph], [MultiDiGraph]) is not part of the module.  A
    graph is a list of vertices in insertion order and a list of stored edges
    [(u, v, key)], with the two flags [directed] and [multi] of the data
    model.  A simple graph ignores the keys of its edges. *)
Record Graph : Type := mkGraph {
  is_directed : bool;
  is_multigraph : bool;
  nodes : list node;
  edges : list edge
}.

(** Invariant of the data model: an edge references two vertices that are
    present, and no vertex is listed twice. *)
Definition wf (G : Graph) : Prop :=
  NoDup (nodes G) /\
  forall e, In e (edges G) -> In (src e) (nodes G) /\ In (dst e) (nodes G).

Definition order (G : Graph) : nat := length (nodes G).

Definition count_src (E : list edge) (v : node) : nat :=
  length (filter (fun e => src e =? v) E).
Definition count_dst (E : list edge) (v : node) : nat :=
  length (filter (fun e => dst e =? v) E).

Definition out_degree (G : Graph) (v : node) : nat := count_src (edges G) v.
Definition in_degree (G : Graph) (v : node) : nat := count_dst (edges G) v.

(** [G.degree]: a self-loop counts twice. *)
Definition degree (G : Graph) (v : node) : nat :=
  count_src (edges G) v + count_dst (edges G) v.

(** [G.out_edges(v, keys=True)]. *)
Definition out_edges (G : Graph) (v : node) : list edge :=
  filter (fun e => src e =? v) (edges G).

(** [G.edges(v, keys=True)] of an undirected graph: every edge at [v] is
    reported from [v], a self-loop once. *)
Definition report_from (v : node) (e : edge) : edge :=
  if src e =? v then e else flip e.

Definition edges_at (G : Graph) (v : node) : list edge :=
  map (report_from v)
      (filter (fun e => (src e =? v) || (dst e =? v)) (edges G)).

(** Does the stored edge [e] join [u] to [v] in a graph of this kind? *)
Definition joins (d : bool) (u v : node) (e : edge) : bool :=
  ((src e =? u) && (dst e =? v)) ||
  (negb d && (src e =? v) && (dst e =? u)).

Fixpoint remove_first (p : edge -> bool) (E : list edge) : option (list edge) :=
  match E with
  | [] => None
  | e :: E' =>
      if p e then Some E'
      else match remove_first p E' with
           | Some R => Some (e :: R)
           | None => None
           end
  end.

Definition set_edges (G : Graph) (E : list edge) : Graph :=
  mkGraph (is_directed G) (is_multigraph G) (nodes G) E.

(** [G.remove_edge(u, v)] of a simple graph. *)
Definition remove_edge (G : Graph) (u v : node) : result Graph :=
  match remove_first (joins (is_directed G) u v) (edges G) with
  | Some E => Ok (set_edges G E)
  | None => Raise (NetworkXError "The edge is not in the graph")
  end.

(** [G.remove_edge(u, v, key)] of a multigraph. *)
Definition remove_edge_key (G : Graph) (u v : node) (k : key) : result Graph :=
  match remove_first (fun e => joins (is_directed G) u v e && (ekey e =? k))
                     (edges G) with
  | Some E => Ok (set_edges G E)
  | None => Raise (NetworkXError "The edge is not in the graph")
  end.

(** [G.reverse()] returns a new graph with every edge flipped; [G.copy()]
    returns a new graph with the same vertices and edges. *)
Definition reverse (G : Graph) : Graph := set_edges G (map flip (edges G)).
Definition copy (G : Graph) : Graph := set_edges G (edges G).

(** ** Connectivity (collaborator) *)

(** Modelled from the spec: [is_connected], [is_strongly_connected] and
    [is_weakly_connected] belong to networkx's components package.  The set
    reached from the first vertex is grown once per vertex of the graph; the
    null graph raises the pointless-concept condition, as networkx does. *)
Definition adj_dir (E : list edge) (u v : node) : bool :=
  existsb (fun e => (src e =? u) && (dst e =? v)) E.
Definition adj_und (E : list edge) (u v : node) : bool :=
  adj_dir E u v || adj_dir E v u.

Definition grow (adj : node -> node -> bool) (V S : list node) : list node :=
  filter (fun v => existsb (fun u => (u =? v) || adj u v) S) V.

Fixpoint reach (adj : node -> node -> bool) (V : list node) (n : nat)
  (S : list node) : list node :=
  match n with
  | 0 => S
  | S n' => reach adj V n' (grow adj V S)
  end.

Definition mem (v : node) (S : list node) : bool := existsb (Nat.eqb v) S.

Definition covers (adj : node -> node -> bool) (V : list node) (s : node) : bool :=
  forallb (fun v => mem v (reach adj V (length V) [s])) V.

Definition null_graph_msg : string :=
  "Connectivity is undefined for the null graph.".

Definition is_connected (G : Graph) : result bool :=
  if is_directed G then Raise (NetworkXNotImplemented "not implemented for directed type")
  else match nodes G with
       | [] => Raise (NetworkXPointlessConcept null_graph_msg)
       | s :: _ => Ok (covers (adj_und (edges G)) (nodes G) s)
       end.

Definition is_weakly_connected (G : Graph) : result bool :=
  if is_directed G then
    match nodes G with
    | [] => Raise (NetworkXPointlessConcept null_graph_msg)
    | s :: _ => Ok (covers (adj_und (edges G)) (nodes G) s)
    end
  else Raise (NetworkXNotImplemented "not implemented for undirected type").

Definition is_strongly_connected (G : Graph) : result bool :=
  if is_directed G then
    match nodes G with
    | [] => Raise (NetworkXPointlessConcept null_graph_msg)
    | s :: _ => Ok (covers (adj_dir (edges G)) (nodes G) s &&
                    covers (fun u v => adj_dir (edges G) v u) (nodes G) s)
    end
  else Raise (NetworkXNotImplemented "not implemented for undirected type").

(** ** The degree-parity analyser *)

Definition is_eulerian (G : Graph) : result bool :=
  if is_directed G then
    if forallb (fun n => in_degree G n =? out_degree G n) (nodes G)
    then is_strongly_connected G
    else Ok false
  else
    if forallb (fun v => degree G v mod 2 =? 0) (nodes G)
    then is_connected G
    else Ok false.

Definition count_true (p : node -> bool) (V : list node) : nat :=
  length (filter p V).

Definition has_eulerian_path (G : Graph) : result bool :=
  if is_directed G then
    let ins := in_degree G in
    let outs := out_degree G in
    let semibalanced_ins :=
      count_true (fun v => (Z.of_nat (ins v) - Z.of_nat (outs v) =? 1)%Z) (nodes G) in
    let semibalanced_outs :=
      count_true (fun v => (Z.of_nat (outs v) - Z.of_nat (ins v) =? 1)%Z) (nodes G) in
    if (semibalanced_ins <=? 1) && (semibalanced_outs <=? 1) &&
       (count_true (fun v => negb (in_degree G v =? out_degree G v)) (nodes G) <=? 2)
    then is_weakly_connected G
    else Ok false
  else
    let c := count_true (fun v => degree G v mod 2 =? 1) (nodes G) in
    if (c =? 0) || (c =? 2)
    then is_connected G
    else Ok false.

Definition is_semieulerian (G : Graph) : result bool :=
  p <- has_eulerian_path G ;;
  if p then (e <- is_eulerian G ;; Ok (negb e)) else Ok false.

(** ** Objects

    Graphs are mutable objects.  The store lists the graphs allocated so far;
    a reference is a position in it. *)
Definition ref := nat.
Definition heap := list Graph.

Definition deref (h : heap) (r : ref) : option Graph := nth_error h r.
Definition alloc (h : heap) (g : Graph) : heap * ref := (h ++ [g], length h).

Fixpoint store (h : heap) (r : ref) (g : Graph) : heap :=
  match h, r with
  | [], _ => []
  | _ :: h', 0 => g :: h'
  | x :: h', S r' => x :: store h' r' g
  end.

(** What advancing a generator to its end gives: the items it yielded and
    the exception that ended it, if any. *)
Record outcome (A : Type) : Type := mkOutcome {
  yielded : list A;
  failure : option exn
}.

Definition failed {A : Type} (e : exn) : outcome A := mkOutcome [] (Some e).

(** A generator object waits for its consumer: nothing of its body has run
    when the call that creates it returns. *)
Definition generator (A : Type) : Type := heap -> outcome A * heap.

Definition consume {A : Type} (g : generator A) (h : heap) : outcome A * heap := g h.

(** Calling a generator function: the call returns the generator object and
    touches nothing. *)
Definition call {A : Type} (g : generator A) (h : heap)
  : result (generator A) * heap := (Ok g, h).

(** A function that only asks the graph object for its vertices, edges and
    degrees. *)
Definition query {A : Type} (f : Graph -> result A) (G : ref) (h : heap)
  : result A * heap :=
  match deref h G with
  | Some g => (f g, h)
  | None => (Raise NoObject, h)
  end.

(** ** The circuit builder *)

(** What a generator has done once it is exhausted: the items it yielded, the
    exception that ended it (if any), and the working graph it leaves. *)
Record run (A : Type) : Type := mkRun {
  emitted : list A;
  raised : option exn;
  final : Graph
}.

Definition stop {A : Type} (G : Graph) : run A := mkRun [] None G.
Definition fail {A : Type} (e : exn) (G : Graph) : run A := mkRun [] (Some e) G.
Definition yield {A : Type} (x : A) (r : run A) : run A :=
  mkRun (x :: emitted r) (raised r) (final r).
Definition map_run {A B : Type} (f : A -> B) (r : run A) : run B :=
  mkRun (map f (emitted r)) (raised r) (final r).

(** Modelled from the spec: [arbitrary_element] of networkx's utilities
    returns the first element its argument iterates over.  The order in which
    the container iterates is the container's own, so the theorems below are
    proved for every choice function that answers with a member of the list
    it is given. *)
Definition chooser : Type := forall A : Type, list A -> result A.

Definition first_element : chooser :=
  fun A l => match l with
             | [] => Raise StopIteration
             | x :: _ => Ok x
             end.

Definition arbitrary (ae : chooser) : Prop :=
  forall (A : Type) (l : list A),
    match ae A l with
    | Ok x => In x l
    | Raise e => l = [] /\ e = StopIteration
    end.

Section CircuitBuilder.

Variable arbitrary_element : chooser.

(** [degree] and [edges] as the two builders select them. *)
Definition walk_degree (G : Graph) : node -> nat :=
  if is_directed G then out_degree G else degree G.
Definition walk_edges (G : Graph) : node -> list edge :=
  if is_directed G then out_edges G else edges_at G.

(** The [while vertex_stack] loop of [_simplegraph_eulerian_circuit]; the top
    of the stack is the head of the list. *)
Fixpoint simplegraph_loop (fuel : nat) (G : Graph) (vertex_stack : list node)
  (last_vertex : option node) : run (node * node) :=
  match fuel with
  | 0 => fail OutOfFuel G
  | S fuel' =>
      match vertex_stack with
      | [] => stop G
      | current_vertex :: rest =>
          if walk_degree G current_vertex =? 0 then
            let r := simplegraph_loop fuel' G rest (Some current_vertex) in
            match last_vertex with
            | Some l => yield (l, current_vertex) r
            | None => r
            end
          else
            match arbitrary_element (map ends (walk_edges G current_vertex)) with
            | Raise e => fail e G
            | Ok (_, next_vertex) =>
                match remove_edge G current_vertex next_vertex with
                | Raise e => fail e G
                | Ok G' =>
                    simplegraph_loop fuel' G' (next_vertex :: vertex_stack)
                                     last_vertex
                end
            end
      end
  end.

(** Every round either removes an edge and pushes, or pops: twice the number
    of edges plus one round for the source is enough. *)
Definition rounds (G : Graph) : nat := 2 * length (edges G) + 2.

Definition _simplegraph_eulerian_circuit (G : Graph) (source : node)
  : run (node * node) :=
  simplegraph_loop (rounds G) G [source] None.

Fixpoint multigraph_loop (fuel : nat) (G : Graph)
  (vertex_stack : list (node * option key))
  (last_vertex : option node) (last_key : option key)
  : run (node * node * option key) :=
  match fuel with
  | 0 => fail OutOfFuel G
  | S fuel' =>
      match vertex_stack with
      | [] => stop G
      | (current_vertex, current_key) :: rest =>
          if walk_degree G current_vertex =? 0 then
            let r := multigraph_loop fuel' G rest (Some current_vertex) current_key in
            match last_vertex with
            | Some l => yield (l, current_vertex, last_key) r
            | None => r
            end
          else
            match arbitrary_element (walk_edges G current_vertex) with
            | Raise e => fail e G
            | Ok (_, next_vertex, next_key) =>
                match remove_edge_key G current_vertex next_vertex next_key with
                | Raise e => fail e G
                | Ok G' =>
                    multigraph_loop fuel' G'
                      ((next_vertex, Some next_key) :: vertex_stack)
                      last_vertex last_key
                end
            end
      end
  end.

Definition _multigraph_eulerian_circuit (G : Graph) (source : node)
  : run (node * node * option key) :=
  multigraph_loop (rounds G) G [(source, None)] None None.

(** An item of a trail: [(u, v)], or [(u, v, k)] when keys are asked for. *)
Inductive item : Type :=
| Pair (u v : node)
| Triple (u v : node) (k : option key).

Definition item_ends (i : item) : node * node :=
  match i with
  | Pair u v => (u, v)
  | Triple u v _ => (u, v)
  end.

(** The part shared by [eulerian_circuit] and [eulerian_path] once the
    working graph and the source are fixed. *)
Definition build (G : Graph) (source : node) (keys : bool) : run item :=
  if is_multigraph G then
    map_run (fun uvk : node * node * option key =>
               let '(u, v, k) := uvk in
               if keys then Triple u v k else Pair u v)
            (_multigraph_eulerian_circuit G source)
  else
    map_run (fun uv : node * node => let '(u, v) := uv in Pair u v)
            (_simplegraph_eulerian_circuit G source).

Definition _find_path_start (G : Graph) : result (option node) :=
  p <- has_eulerian_path G ;;
  if negb p then Ok None
  else
    e <- is_eulerian G ;;
    if e then (x <- arbitrary_element (nodes G) ;; Ok (Some x))
    else if is_directed G then
      match filter (fun v => negb (in_degree G v =? out_degree G v)) (nodes G) with
      | [v1; v2] =>
          if in_degree G v1 <? out_degree G v1 then Ok (Some v1) else Ok (Some v2)
      | _ => Raise ValueError
      end
    else
      match filter (fun v => negb (degree G v mod 2 =? 0)) (nodes G) with
      | start :: _ => Ok (Some start)
      | [] => Raise IndexError
      end.

(** [eulerian_circuit] is a generator function: the call only creates the
    generator, and its body runs when the generator is advanced.  The body
    reads the caller's graph, allocates the working graph ([G.reverse()] or
    [G.copy()]) as a new object and consumes that one. *)
Definition eulerian_circuit (G : ref) (source : option node) (keys : bool)
  : generator item :=
  fun h =>
    match deref h G with
    | None => (failed NoObject, h)
    | Some g =>
        match is_eulerian g with
        | Raise e => (failed e, h)
        | Ok false => (failed (NetworkXError "G is not Eulerian."), h)
        | Ok true =>
            let g' := if is_directed g then reverse g else copy g in
            let '(h', G') := alloc h g' in
            match (match source with
                   | None => arbitrary_element (nodes g')
                   | Some s => Ok s
                   end) with
            | Raise e => (failed e, h')
            | Ok source =>
                let r := build g' source keys in
                (mkOutcome (emitted r) (raised r), store h' G' (final r))
            end
        end
    end.

(** [eulerian_path] is a generator function as well.  When the working
    graph has no start vertex the source stays [None]; this cannot happen
    after the test on [has_eulerian_path], and is answered by [TypeError]. *)
Definition eulerian_path (G : ref) (source : option node) (keys : bool)
  : generator item :=
  fun h =>
    match deref h G with
    | None => (failed NoObject, h)
    | Some g =>
        match has_eulerian_path g with
        | Raise e => (failed e, h)
        | Ok false => (failed (NetworkXError "Graph has no Eulerian paths."), h)
        | Ok true =>
            let g' := if is_directed g then reverse g else copy g in
            let '(h', G') := alloc h g' in
            match (match source with
                   | None => _find_path_start g'
                   | Some s => Ok (Some s)
                   end) with
            | Raise e => (failed e, h')
            | Ok None => (failed TypeError, h')
            | Ok (Some source) =>
                let r := build g' source keys in
                (mkOutcome (emitted r) (raised r), store h' G' (final r))
            end
        end
    end.

End CircuitBuilder.

(** ** The eulerizer *)

(** [nx.MultiGraph(G)]: a new undirected multigraph with the vertices and
    edges of [G]; the edges of a simple graph get key 0. *)
Definition MultiGraph (G : Graph) : Graph :=
  mkGraph false true (nodes G)
          (if is_multigraph G then edges G
           else map (fun e => (src e, dst e, 0)) (edges G)).

Definition add_node (V : list node) (v : node) : list node :=
  if mem v V then V else V ++ [v].

(** [MultiGraph.new_edge_key]: the number of edges between [u] and [v], or
    the next integer that is not yet a key between them. *)
Fixpoint free_key (used : list key) (k fuel : nat) : key :=
  match fuel with
  | 0 => k
  | S fuel' => if existsb (Nat.eqb k) used then free_key used (S k) fuel' else k
  end.

Definition new_edge_key (G : Graph) (u v : node) : key :=
  let used := map ekey (filter (joins (is_directed G) u v) (edges G)) in
  free_key used (length used) (length used).

(** [G.add_edge(u, v)] of a multigraph, and [G.add_edges_from]. *)
Definition add_edge (G : Graph) (uv : node * node) : Graph :=
  let '(u, v) := uv in
  mkGraph (is_directed G) (is_multigraph G)
          (add_node (add_node (nodes G) u) v)
          (edges G ++ [(u, v, new_edge_key G u v)]).

Definition add_edges_from (G : Graph) (ebunch : list (node * node)) : Graph :=
  fold_left add_edge ebunch G.

(** [nx.utils.pairwise] and [itertools.combinations(_, 2)]. *)
Fixpoint pairwise (P : list node) : list (node * node) :=
  match P with
  | u :: P' =>
      match P' with
      | v :: _ => (u, v) :: pairwise P'
      | [] => []
      end
  | [] => []
  end.

Fixpoint combinations2 (l : list node) : list (node * node) :=
  match l with
  | [] => []
  | m :: l' => map (fun n => (m, n)) l' ++ combinations2 l'
  end.

(** The auxiliary weighted graph [Gp]: a simple undirected graph whose edges
    carry a weight and a path. *)
Record wedge : Type := mkWedge {
  we_u : node;
  we_v : node;
  weight : Q;
  path : list node
}.

Definition wjoins (u v : node) (w : wedge) : bool :=
  ((we_u w =? u) && (we_v w =? v)) || ((we_u w =? v) && (we_v w =? u)).

(** [Gp.add_edge(m, n, weight=.., path=..)]: a second edge between the same
    two vertices replaces the attributes of the first. *)
Fixpoint add_wedge (Gp : list wedge) (w : wedge) : list wedge :=
  match Gp with
  | [] => [w]
  | x :: Gp' =>
      if wjoins (we_u w) (we_v w) x
      then mkWedge (we_u x) (we_v x) (weight w) (path w) :: Gp'
      else x :: add_wedge Gp' w
  end.

(** [Gp[m][n]["path"]]. *)
Definition path_of (Gp : list wedge) (m n : node) : result (list node) :=
  match find (wjoins m n) Gp with
  | Some w => Ok (path w)
  | None => Raise KeyError
  end.

(** [1/len(P)]. *)
Definition inverse_length (P : list node) : result Q :=
  match length P with
  | 0 => Raise ZeroDivisionError
  | S n => Ok (1 # Pos.of_succ_nat n)
  end.

Fixpoint mapM {A B : Type} (f : A -> result B) (l : list A) : result (list B) :=
  match l with
  | [] => Ok []
  | x :: l' => y <- f x ;; ys <- mapM f l' ;; Ok (y :: ys)
  end.

Fixpoint foldM {A B : Type} (f : B -> A -> result B) (l : list A) (b : B) : result B :=
  match l with
  | [] => Ok b
  | x :: l' => b' <- f b x ;; foldM f l' b'
  end.

(** [nx.Graph(list_of_pairs).edges()]: each unordered pair once. *)
Definition pjoins (u v : node) (p : node * node) : bool :=
  ((fst p =? u) && (snd p =? v)) || ((fst p =? v) && (snd p =? u)).

Definition graph_of_pairs (l : list (node * node)) : list (node * node) :=
  fold_left (fun acc p => if existsb (pjoins (fst p) (snd p)) acc then acc else acc ++ [p])
            l [].

(** One round of the last loop: [path = Gp[m][n]["path"]] and
    [G.add_edges_from(nx.utils.pairwise(path))]. *)
Definition duplicate_path (Gp : list wedge) (G : Graph) (mn : node * node)
  : result Graph :=
  let '(m, n) := mn in
  P <- path_of Gp m n ;; Ok (add_edges_from G (pairwise P)).

Section Eulerizer.

(** Modelled from the spec: the shortest-path solver and the maximum-weight
    matching solver are collaborators; they are parameters here, and the
    theorems state what they need of them. *)
Variable shortest_path : Graph -> node -> node -> result (list node).
Variable max_weight_matching : list wedge -> list (node * node).

Definition odd_degree_nodes (G : Graph) : list node :=
  filter (fun n => degree G n mod 2 =? 1) (nodes G).

(** The list [odd_deg_pairs_paths]: one entry [(m, {n: path})] per pair. *)
Definition path_entry (G : Graph) (mn : node * node)
  : result (node * list (node * list node)) :=
  let '(m, n) := mn in
  P <- shortest_path G m n ;; Ok (m, [(n, P)]).

Definition odd_deg_pairs_paths (G : Graph) (odd : list node)
  : result (list (node * list (node * list node))) :=
  mapM (path_entry G) (combinations2 odd).

(** The two loops that fill [Gp]: [for n, Ps in odd_deg_pairs_paths] and
    [for m, P in Ps.items()]. *)
Definition add_path (n : node) (Gp : list wedge) (mP : node * list node)
  : result (list wedge) :=
  let '(m, P) := mP in
  if negb (n =? m) then
    w <- inverse_length P ;; Ok (add_wedge Gp (mkWedge m n w P))
  else Ok Gp.

Definition add_paths (Gp : list wedge) (entry : node * list (node * list node))
  : result (list wedge) :=
  let '(n, Ps) := entry in foldM (add_path n) Ps Gp.

Definition auxiliary_graph (pairs_paths : list (node * list (node * list node)))
  : result (list wedge) :=
  foldM add_paths pairs_paths [].

(** The part of [eulerize] that follows [G = nx.MultiGraph(G)], run on the
    value of the new multigraph.  When a collaborator raises, the new
    multigraph is lost with the exception: no reference to it is returned. *)
Definition duplicate_paths (G : Graph) (odd : list node) : result Graph :=
  pp <- odd_deg_pairs_paths G odd ;;
  Gp <- auxiliary_graph pp ;;
  let best_matching := graph_of_pairs (max_weight_matching Gp) in
  foldM (duplicate_path Gp) best_matching G.

Definition eulerize (G : ref) (h : heap) : result ref * heap :=
  match deref h G with
  | None => (Raise NoObject, h)
  | Some g =>
      if is_directed g
      then (Raise (NetworkXNotImplemented "not implemented for directed type"), h)
      else if order g =? 0
      then (Raise (NetworkXPointlessConcept "Cannot Eulerize null graph"), h)
      else match is_connected g with
           | Raise e => (Raise e, h)
           | Ok false => (Raise (NetworkXError "G is not connected"), h)
           | Ok true =>
               let odd := odd_degree_nodes g in
               let '(h', G') := alloc h (MultiGraph g) in
               if length odd =? 0 then (Ok G', h')
               else match duplicate_paths (MultiGraph g) odd with
                    | Raise e => (Raise e, h')
                    | Ok g' => (Ok G', store h' G' g')
                    end
           end
  end.

End Eulerizer.

(** * Verification *)

(** ** Counting edges at a vertex *)

Definition ind (x y : node) : nat := if x =? y then 1 else 0.

Lemma ind_refl x : ind x x = 1.
Proof. unfold ind. now rewrite Nat.eqb_refl. Qed.

Lemma ind_neq x y : x <> y -> ind x y = 0.
Proof. unfold ind. intros H. apply Nat.eqb_neq in H. now rewrite H. Qed.

Lemma ind_sym x y : ind x y = ind y x.
Proof. unfold ind. now rewrite Nat.eqb_sym. Qed.

Lemma ind_cases x y : (x = y /\ ind x y = 1) \/ (x <> y /\ ind x y = 0).
Proof.
  destruct (Nat.eq_dec x y) as [->|H].
  - left. now rewrite ind_refl.
  - right. now rewrite ind_neq.
Qed.

Lemma count_src_cons e E x : count_src (e :: E) x = ind (src e) x + count_src E x.
Proof. unfold count_src, ind. simpl. now destruct (src e =? x). Qed.

Lemma count_dst_cons e E x : count_dst (e :: E) x = ind (dst e) x + count_dst E x.
Proof. unfold count_dst, ind. simpl. now destruct (dst e =? x). Qed.

Lemma count_src_app E F x : count_src (E ++ F) x = count_src E x + count_src F x.
Proof. unfold count_src. now rewrite filter_app, length_app. Qed.

Lemma count_dst_app E F x : count_dst (E ++ F) x = count_dst E x + count_dst F x.
Proof. unfold count_dst. now rewrite filter_app, length_app. Qed.

Lemma count_src_perm E F x : Permutation E F -> count_src E x = count_src F x.
Proof.
  induction 1; rewrite ?count_src_cons; lia.
Qed.

Lemma count_dst_perm E F x : Permutation E F -> count_dst E x = count_dst F x.
Proof.
  induction 1; rewrite ?count_dst_cons; lia.
Qed.

Lemma count_src_pos e E : In e E -> 0 < count_src E (src e).
Proof.
  induction E as [|a E IH]; simpl; [easy|].
  intros [->|H]; rewrite count_src_cons.
  - rewrite ind_refl. lia.
  - specialize (IH H). lia.
Qed.

Lemma count_dst_pos e E : In e E -> 0 < count_dst E (dst e).
Proof.
  induction E as [|a E IH]; simpl; [easy|].
  intros [->|H]; rewrite count_dst_cons.
  - rewrite ind_refl. lia.
  - specialize (IH H). lia.
Qed.

Lemma count_src_flip E x : count_src (map flip E) x = count_dst E x.
Proof.
  induction E as [|e E IH]; [reflexivity|].
  simpl map. rewrite count_src_cons, count_dst_cons, IH. reflexivity.
Qed.

Lemma count_dst_flip E x : count_dst (map flip E) x = count_src E x.
Proof.
  induction E as [|e E IH]; [reflexivity|].
  simpl map. rewrite count_src_cons, count_dst_cons, IH. reflexivity.
Qed.

(** [remove_first] takes exactly one edge out of the list. *)
Lemma remove_first_perm p E R :
  remove_first p E = Some R ->
  exists e, In e E /\ p e = true /\ Permutation E (e :: R).
Proof.
  revert R. induction E as [|a E IH]; simpl; intros R H; [discriminate|].
  destruct (p a) eqn:Hp.
  - inversion H; subst. exists a. auto.
  - destruct (remove_first p E) as [R'|] eqn:HR; [|discriminate].
    inversion H; subst. destruct (IH R' eq_refl) as (e & Hin & Hpe & Hperm).
    exists e. repeat split; auto.
    rewrite Hperm. apply perm_swap.
Qed.

Lemma remove_first_some p E e :
  In e E -> p e = true -> exists R, remove_first p E = Some R.
Proof.
  induction E as [|a E IH]; simpl; [easy|].
  intros Hin Hp. destruct (p a) eqn:Hpa; [eauto|].
  destruct Hin as [->|Hin]; [congruence|].
  destruct (IH Hin Hp) as [R ->]. eauto.
Qed.

(** ** The walk as a transition system

    One round of either builder is a transition of the system below.  Its
    state carries, next to the stack, the last popped frame and the working
    edges, three ghost components: the items emitted so far (newest first),
    the vertex [ret] at which the current excursion has to close, and the
    vertices popped so far. *)

Definition frame := (node * option key)%type.
Definition titem := (node * node * option key)%type.

Definition key_or_0 (ok : option key) : key :=
  match ok with
  | Some k => k
  | None => 0
  end.

Definition edge_of (u v : node) (ok : option key) : list edge :=
  [(u, v, key_or_0 ok)].

Definition unemit (i : titem) : list edge :=
  let '(u, v, ok) := i in edge_of v u ok.

Fixpoint stack_edges (stk : list frame) : list edge :=
  match stk with
  | (v, ok) :: rest =>
      match rest with
      | (u, _) :: _ => edge_of u v ok ++ stack_edges rest
      | [] => []
      end
  | [] => []
  end.

Definition norm (d : bool) (e : edge) : edge :=
  if d then e else if src e <=? dst e then e else flip e.

Record astate : Type := mkA {
  stk : list frame;
  lst : option frame;
  wk : list edge;
  out : list titem;
  ret : node;
  popped : list node
}.

Definition top_or (r : node) (stk : list frame) : node :=
  match stk with
  | (v, _) :: _ => v
  | [] => r
  end.

Definition emit (l : option frame) (cur : node) (o : list titem) : list titem :=
  match l with
  | Some (lv, lk) => (lv, cur, lk) :: o
  | None => o
  end.

Definition usable (d : bool) (cur : node) (e : edge) : bool :=
  (src e =? cur) || (negb d && (dst e =? cur)).

Definition other (cur : node) (e : edge) : node :=
  if src e =? cur then dst e else src e.

Definition wdeg (d : bool) (W : list edge) (v : node) : nat :=
  if d then count_src W v else count_src W v + count_dst W v.

Inductive astep (d : bool) : astate -> astate -> Prop :=
| step_pop cur ck rest l W o r P :
    wdeg d W cur = 0 ->
    astep d (mkA ((cur, ck) :: rest) l W o r P)
            (mkA rest (Some (cur, ck)) W (emit l cur o) (top_or cur rest) (cur :: P))
| step_push cur ck rest l W o r P e W' :
    usable d cur e = true ->
    Permutation W (e :: W') ->
    astep d (mkA ((cur, ck) :: rest) l W o r P)
            (mkA ((other cur e, Some (ekey e)) :: (cur, ck) :: rest) l W' o r P).

Inductive asteps (d : bool) : astate -> astate -> Prop :=
| asteps_refl A : asteps d A A
| asteps_step A B C : astep d A B -> asteps d B C -> asteps d A C.

Definition pending (A : astate) : list edge :=
  match stk A, lst A with
  | _ :: _, Some (l, lk) => edge_of (ret A) l lk
  | _, _ => []
  end.

Fixpoint rchain (o : list titem) : Prop :=
  match o with
  | (u, _, _) :: o' =>
      match o' with
      | (_, v', _) :: _ => v' = u /\ rchain o'
      | [] => True
      end
  | [] => True
  end.

Definition item_src (i : titem) : node := fst (fst i).
Definition item_dst (i : titem) : node := snd (fst i).

Lemma norm_flip e : norm false (flip e) = norm false e.
Proof.
  destruct e as [[u v] k]. unfold norm, flip, src, dst, ekey. simpl.
  destruct (v <=? u) eqn:H1, (u <=? v) eqn:H2; try reflexivity.
  - apply Nat.leb_le in H1, H2. assert (u = v) by lia. now subst.
  - apply Nat.leb_gt in H1, H2. lia.
Qed.

Lemma norm_ends d e :
  (src (norm d e) = src e /\ dst (norm d e) = dst e) \/
  (src (norm d e) = dst e /\ dst (norm d e) = src e).
Proof.
  unfold norm. destruct d; [now left|].
  destruct (src e <=? dst e); [now left|now right].
Qed.

Lemma norm_same_ends d e e' :
  norm d e = norm d e' ->
  (src e = src e' /\ dst e = dst e') \/ (src e = dst e' /\ dst e = src e').
Proof.
  intros H.
  destruct (norm_ends d e) as [[A B]|[A B]], (norm_ends d e') as [[A' B']|[A' B']];
    rewrite H in A, B; rewrite <- A, <- B, A', B'; auto.
Qed.

Lemma usable_norm d cur e :
  usable d cur e = true ->
  norm d (cur, other cur e, ekey e) = norm d e.
Proof.
  destruct e as [[u v] k]. unfold usable, other, src, dst, ekey. simpl.
  destruct (u =? cur) eqn:Hu.
  - apply Nat.eqb_eq in Hu. now subst.
  - destruct d; simpl; [discriminate|]. intros Hv. apply Nat.eqb_eq in Hv. subst.
    apply (norm_flip (u, cur, k)).
Qed.

Lemma usable_ends d cur e x :
  usable d cur e = true ->
  ind (src e) x + ind (dst e) x = ind cur x + ind (other cur e) x /\
  (d = true -> src e = cur /\ dst e = other cur e).
Proof.
  unfold usable, other. destruct (src e =? cur) eqn:Hu.
  - apply Nat.eqb_eq in Hu. subst. auto.
  - destruct d; simpl; [discriminate|]. intros Hv. apply Nat.eqb_eq in Hv. subst.
    split; [lia|discriminate].
Qed.

Section Invariant.

Variable d : bool.
Variable E0 : list edge.
Variables s a0 : node.

(** The degree condition behind the walk: counted with the current vertex
    [top] and the vertex [r] where the excursion closes, every vertex is
    balanced (directed) or even (undirected). *)
Definition bal (W : list edge) (top r : node) : Prop :=
  forall x,
    if d then count_src W x + ind x r = count_dst W x + ind x top
    else exists k, count_src W x + count_dst W x + ind x top + ind x r = 2 * k.

Record Inv (A : astate) : Prop := mkInv {
  inv_perm :
    Permutation (map (norm d) E0)
      (map (norm d)
           (wk A ++ stack_edges (stk A) ++ pending A ++ flat_map unemit (out A)));
  inv_bal : bal (wk A) (top_or (ret A) (stk A)) (ret A);
  inv_popped : forall v, In v (popped A) -> wdeg d (wk A) v = 0;
  inv_lst :
    match lst A with
    | Some (l, _) => In l (popped A)
    | None => out A = [] /\ ret A = a0
    end;
  inv_out : forall i, In i (out A) -> In (item_src i) (popped A) /\ In (item_dst i) (popped A);
  inv_chain : rchain (out A);
  inv_head :
    match out A with
    | i :: _ => exists lk, lst A = Some (item_dst i, lk)
    | [] => forall l lk, lst A = Some (l, lk) -> l = a0
    end;
  inv_first : last (map item_src (out A)) a0 = a0;
  inv_source : In s (map fst (stk A) ++ popped A);
  inv_bottom :
    match stk A with
    | [] => exists lk, lst A = Some (s, lk)
    | f :: fs => fst (last fs f) = s
    end
}.

Lemma bal_stuck W top r : bal W top r -> wdeg d W top = 0 -> top = r.
Proof.
  intros H H0. specialize (H top). unfold wdeg in H0.
  rewrite ind_refl in H.
  destruct (ind_cases top r) as [[E _]|[_ E]]; [assumption|].
  rewrite E in H. destruct d.
  - lia.
  - destruct H as [k H]. lia.
Qed.

Lemma bal_closed W r y : bal W r r -> bal W y y.
Proof.
  intros H x. specialize (H x). destruct d.
  - lia.
  - destruct H as [k H]. exists (k + ind x y - ind x r). lia.
Qed.

Lemma bal_push W W' cur r e :
  bal W cur r -> usable d cur e = true -> Permutation W (e :: W') ->
  bal W' (other cur e) r.
Proof.
  intros H Hu Hp x. specialize (H x).
  pose proof (count_src_perm x Hp) as Hs.
  pose proof (count_dst_perm x Hp) as Hd.
  rewrite count_src_cons in Hs. rewrite count_dst_cons in Hd.
  destruct (@usable_ends d cur e x Hu) as [He Hdir].
  pose proof (ind_sym x cur) as S1.
  pose proof (ind_sym x (other cur e)) as S2.
  destruct d.
  - destruct (Hdir eq_refl) as [E1 E2]. rewrite E1 in Hs. rewrite E2 in Hd. lia.
  - destruct H as [k H]. exists (k - ind cur x).
    destruct (ind_cases cur x) as [[_ E]|[_ E]]; rewrite E in *; lia.
Qed.

Lemma wdeg_push W W' e v :
  Permutation W (e :: W') -> wdeg d W v = 0 -> wdeg d W' v = 0.
Proof.
  intros Hp. unfold wdeg.
  rewrite (count_src_perm v Hp), (count_dst_perm v Hp), count_src_cons, count_dst_cons.
  destruct d; lia.
Qed.

Lemma last_cons_ne {A : Type} (x : A) l dflt : l <> [] -> last (x :: l) dflt = last l dflt.
Proof. destruct l; [congruence|reflexivity]. Qed.

Lemma last_cons_dflt {A : Type} (l : list A) x dflt : last (x :: l) dflt = last l x.
Proof.
  revert x dflt. induction l as [|y l IH]; intros x dflt; [reflexivity|].
  change (last (y :: l) dflt = last (y :: l) x). now rewrite !IH.
Qed.

Lemma last_indep {A : Type} (l : list A) d1 d2 : l <> [] -> last l d1 = last l d2.
Proof.
  induction l as [|x l IH]; [congruence|]. intros _.
  destruct l as [|y l]; [reflexivity|].
  change (last (y :: l) d1 = last (y :: l) d2). apply IH. discriminate.
Qed.

Lemma perm_rearrange (W X S Y O : list edge) :
  Permutation (W ++ (X ++ S) ++ Y ++ O) (W ++ S ++ X ++ (Y ++ O)).
Proof.
  apply Permutation_app_head. rewrite <- !app_assoc.
  rewrite (app_assoc X), (app_assoc S). apply Permutation_app_tail.
  apply Permutation_app_comm.
Qed.

Lemma acct_pop cur ck rest l W o P :
  Permutation
    (W ++ stack_edges ((cur, ck) :: rest) ++
     pending (mkA ((cur, ck) :: rest) l W o cur P) ++ flat_map unemit o)
    (W ++ stack_edges rest ++
     pending (mkA rest (Some (cur, ck)) W (emit l cur o) (top_or cur rest) (cur :: P)) ++
     flat_map unemit (emit l cur o)).
Proof.
  set (X := match rest with _ :: _ => edge_of (top_or cur rest) cur ck | [] => [] end).
  set (Y := match l with Some (lv, lk) => edge_of cur lv lk | None => [] end).
  assert (E1 : stack_edges ((cur, ck) :: rest) = X ++ stack_edges rest).
  { subst X. destruct rest as [|[u uk] rest']; reflexivity. }
  assert (E2 : flat_map unemit (emit l cur o) = Y ++ flat_map unemit o).
  { subst Y. destruct l as [[lv lk]|]; reflexivity. }
  assert (E3 : pending (mkA ((cur, ck) :: rest) l W o cur P) = Y).
  { subst Y. unfold pending. simpl. destruct l as [[lv lk]|]; reflexivity. }
  assert (E4 : pending (mkA rest (Some (cur, ck)) W (emit l cur o)
                            (top_or cur rest) (cur :: P)) = X).
  { subst X. unfold pending. simpl. destruct rest; reflexivity. }
  rewrite E1, E2, E3, E4. apply perm_rearrange.
Qed.

Lemma Inv_pop cur ck rest l W o r P :
  wdeg d W cur = 0 ->
  Inv (mkA ((cur, ck) :: rest) l W o r P) ->
  Inv (mkA rest (Some (cur, ck)) W (emit l cur o) (top_or cur rest) (cur :: P)).
Proof.
  intros Hdeg [Hperm Hbal Hpop Hlst Hout Hchain Hhead Hfirst Hsrc Hbot].
  assert (Hr : cur = r) by (eapply bal_stuck; eauto). subst r.
  constructor.
  - rewrite Hperm. apply Permutation_map. apply acct_pop.
  - simpl in *.
    assert (E : top_or (top_or cur rest) rest = top_or cur rest)
      by (destruct rest as [|[? ?] ?]; reflexivity).
    rewrite E. apply bal_closed with (r := cur). assumption.
  - simpl in *. intros v [<-|Hv]; auto.
  - simpl. now left.
  - simpl in *. intros i Hi. destruct l as [[lv lk]|]; simpl in Hi.
    + destruct Hi as [<-|Hi]; simpl; [auto|].
      destruct (Hout i Hi). auto.
    + destruct (Hout i Hi). auto.
  - simpl in *. destruct l as [[lv lk]|]; simpl; [|assumption].
    destruct o as [|[[u' v'] k'] o']; [exact I|].
    split; [|assumption].
    destruct Hhead as [lk' Hl]. unfold item_dst in Hl. simpl in Hl.
    inversion Hl. reflexivity.
  - simpl in *. destruct l as [[lv lk]|]; simpl.
    + eexists. reflexivity.
    + destruct Hlst as [-> ->]. intros l lk E. congruence.
  - simpl in *. destruct l as [[lv lk]|]; simpl; [|assumption].
    destruct o as [|i o']; simpl.
    + exact (Hhead lv lk eq_refl).
    + exact Hfirst.
  - simpl in *. apply in_or_app. simpl.
    destruct Hsrc as [<-|H]; auto.
    apply in_app_or in H. destruct H; auto.
  - simpl in *. destruct rest as [|f fs].
    + simpl in Hbot. subst. eexists. reflexivity.
    + rewrite <- Hbot. symmetry. apply (f_equal fst), last_cons_dflt.
Qed.

Lemma Inv_push cur ck rest l W o r P e W' :
  usable d cur e = true ->
  Permutation W (e :: W') ->
  Inv (mkA ((cur, ck) :: rest) l W o r P) ->
  Inv (mkA ((other cur e, Some (ekey e)) :: (cur, ck) :: rest) l W' o r P).
Proof.
  intros Hu Hp [Hperm Hbal Hpop Hlst Hout Hchain Hhead Hfirst Hsrc Hbot].
  constructor; try assumption.
  - rewrite Hperm.
    change (pending (mkA ((other cur e, Some (ekey e)) :: (cur, ck) :: rest) l W' o r P))
      with (pending (mkA ((cur, ck) :: rest) l W o r P)).
    set (X := pending _ ++ flat_map unemit _).
    cbn [wk stk out].
    change (stack_edges ((other cur e, Some (ekey e)) :: (cur, ck) :: rest))
      with ((cur, other cur e, ekey e) :: stack_edges ((cur, ck) :: rest)).
    set (S := stack_edges ((cur, ck) :: rest)).
    rewrite !map_app. rewrite (Permutation_map (norm d) Hp).
    simpl map. rewrite (usable_norm d cur e Hu).
    simpl. apply Permutation_middle.
  - simpl in *. eapply bal_push; eauto.
  - simpl in *. intros v Hv. eapply wdeg_push; eauto.
  - simpl in *. right. exact Hsrc.
  - cbn [stk] in *. rewrite last_cons_dflt. exact Hbot.
Qed.

Lemma Inv_step A B : astep d A B -> Inv A -> Inv B.
Proof.
  intros H. destruct H.
  - now apply Inv_pop.
  - now apply Inv_push.
Qed.

Lemma Inv_steps A B : asteps d A B -> Inv A -> Inv B.
Proof.
  induction 1 as [A|A B C Hab _ IH]; intros HA; [assumption|].
  apply IH. eapply Inv_step; eauto.
Qed.

Definition initial : astate := mkA [(s, None)] None E0 [] a0 [].

Lemma Inv_initial : bal E0 s a0 -> Inv initial.
Proof.
  intros H. constructor; simpl; auto.
  - rewrite !app_nil_r. reflexivity.
  - easy.
  - easy.
Qed.

(** Reachability along the edges of a list, read in either direction. *)
Inductive conn (E : list edge) (u : node) : node -> Prop :=
| conn_refl : conn E u u
| conn_step v w e :
    conn E u v -> In e E ->
    (src e = v /\ dst e = w) \/ (src e = w /\ dst e = v) ->
    conn E u w.

Lemma unemit_ends i e :
  In e (unemit i) -> src e = item_dst i /\ dst e = item_src i.
Proof.
  destruct i as [[a b] ok]; simpl.
  intros [<-|[]]. auto.
Qed.

Lemma final_isolated A v :
  Inv A -> stk A = [] -> In v (popped A) ->
  count_src (wk A) v = 0 /\ count_dst (wk A) v = 0.
Proof.
  intros HI Hs Hv. pose proof (inv_popped HI v Hv) as H0.
  pose proof (inv_bal HI v) as Hb. rewrite Hs in Hb. simpl in Hb.
  unfold wdeg in H0. destruct d; lia.
Qed.

Lemma final_edge_cases A e :
  Inv A -> stk A = [] -> In e E0 ->
  exists e',
    ((src e' = src e /\ dst e' = dst e) \/ (src e' = dst e /\ dst e' = src e)) /\
    (In e' (wk A) \/ (In (src e') (popped A) /\ In (dst e') (popped A))).
Proof.
  intros HI Hs He.
  pose proof (inv_perm HI) as Hp.
  assert (Hpend : pending A = []) by (unfold pending; now rewrite Hs).
  rewrite Hs, Hpend in Hp. simpl in Hp.
  apply (in_map (norm d)) in He.
  apply (Permutation_in _ Hp) in He.
  apply in_map_iff in He. destruct He as (e' & Hn & Hin).
  exists e'. split; [now apply norm_same_ends with (d := d)|].
  apply in_app_or in Hin. destruct Hin as [Hin|Hin]; [now left|right].
  apply in_flat_map in Hin. destruct Hin as (i & Hi & Hei).
  destruct (unemit_ends i e' Hei) as [-> ->].
  destruct (inv_out HI i Hi). auto.
Qed.

Lemma final_popped_closed A u v :
  Inv A -> stk A = [] -> conn E0 u v -> In u (popped A) -> In v (popped A).
Proof.
  intros HI Hs Hc Hu. induction Hc as [|v w e Hc IH He Hj]; [assumption|].
  destruct (final_edge_cases e HI Hs He) as (e' & Hends & [Hin|[H1 H2]]).
  - exfalso. destruct (final_isolated v HI Hs IH) as [Z1 Z2].
    pose proof (count_src_pos e' (wk A) Hin).
    pose proof (count_dst_pos e' (wk A) Hin).
    destruct Hends as [[A1 A2]|[A1 A2]], Hj as [[B1 B2]|[B1 B2]];
      rewrite ?A1, ?A2, ?B1, ?B2 in *; lia.
  - destruct Hends as [[A1 A2]|[A1 A2]], Hj as [[B1 B2]|[B1 B2]];
      rewrite ?A1, ?A2, ?B1, ?B2 in *; assumption.
Qed.

Lemma final_all_popped A v :
  Inv A -> stk A = [] -> conn E0 s v -> In v (popped A).
Proof.
  intros HI Hs Hc. apply (final_popped_closed HI Hs Hc).
  pose proof (inv_source HI) as H. now rewrite Hs in H.
Qed.

Hypothesis E0_connected : forall e, In e E0 -> conn E0 s (src e).

Lemma final_wk_nil A : Inv A -> stk A = [] -> wk A = [].
Proof.
  intros HI Hs. destruct (wk A) as [|e W] eqn:HW; [reflexivity|exfalso].
  pose proof (inv_perm HI) as Hp.
  assert (He : In (norm d e) (map (norm d) E0)).
  { apply Permutation_in with (1 := Permutation_sym Hp).
    apply in_map. rewrite HW. now left. }
  apply in_map_iff in He. destruct He as (e0 & Hn & H0).
  assert (Hc : In (src e0) (popped A)) by (apply final_all_popped; auto).
  assert (Hc' : In (dst e0) (popped A)).
  { apply final_all_popped; auto.
    eapply conn_step; [apply E0_connected; eassumption|eassumption|]. auto. }
  destruct (final_isolated _ HI Hs Hc) as [Z1 Z2].
  destruct (final_isolated _ HI Hs Hc') as [Z3 Z4].
  assert (Hin : In e (wk A)) by (rewrite HW; now left).
  pose proof (count_src_pos e (wk A) Hin).
  apply norm_same_ends in Hn.
  destruct Hn as [[A1 A2]|[A1 A2]].
  - rewrite A1 in Z1. lia.
  - rewrite A2 in Z3. lia.
Qed.

(** What a finished walk has emitted: every edge once, as a chain that
    leaves [a0] and arrives at the source. *)
Theorem walk_complete A :
  Inv A -> stk A = [] ->
  wk A = [] /\
  Permutation (map (norm d) E0) (map (norm d) (flat_map unemit (out A))) /\
  rchain (out A) /\
  last (map item_src (out A)) a0 = a0 /\
  hd s (map item_dst (out A)) = s.
Proof.
  intros HI Hs. pose proof (final_wk_nil HI Hs) as HW.
  repeat split.
  - exact HW.
  - pose proof (inv_perm HI) as Hp.
    assert (Hpend : pending A = []) by (unfold pending; now rewrite Hs).
    now rewrite Hs, Hpend, HW in Hp.
  - exact (inv_chain HI).
  - exact (inv_first HI).
  - pose proof (inv_head HI) as Hh. pose proof (inv_bottom HI) as Hb.
    rewrite Hs in Hb. destruct Hb as [lk Hl].
    destruct (out A) as [|i o]; [reflexivity|].
    destruct Hh as [lk' Hl']. simpl. congruence.
Qed.

End Invariant.

(** ** The two builders run the transition system *)

Lemma joins_usable d cur next e :
  joins d cur next e = true -> usable d cur e = true /\ other cur e = next.
Proof.
  unfold joins, usable, other. intros H.
  apply orb_true_iff in H. destruct H as [H|H].
  - apply andb_true_iff in H. destruct H as [H1 H2].
    rewrite H1. apply Nat.eqb_eq in H2. auto.
  - apply andb_true_iff in H. destruct H as [H H2].
    apply andb_true_iff in H. destruct H as [Hd H1].
    apply Nat.eqb_eq in H1, H2. rewrite Hd, H2, Nat.eqb_refl, orb_true_r.
    split; [reflexivity|].
    destruct (src e =? cur) eqn:E; [apply Nat.eqb_eq in E|]; congruence.
Qed.

Lemma walk_degree_wdeg G v : walk_degree G v = wdeg (is_directed G) (edges G) v.
Proof. unfold walk_degree, wdeg. now destruct (is_directed G). Qed.

Lemma at_nonempty E v :
  count_src E v + count_dst E v <> 0 ->
  filter (fun e => (src e =? v) || (dst e =? v)) E <> [].
Proof.
  induction E as [|e E IH]; [cbn; congruence|]. simpl.
  rewrite count_src_cons, count_dst_cons. unfold ind.
  destruct (src e =? v), (dst e =? v); simpl; try discriminate.
  exact IH.
Qed.

Lemma walk_edges_nonempty G v : walk_degree G v <> 0 -> walk_edges G v <> [].
Proof.
  unfold walk_degree, walk_edges. destruct (is_directed G).
  - unfold out_degree, count_src, out_edges.
    destruct (filter _ _); simpl; [congruence|discriminate].
  - unfold degree, edges_at. intros H. apply at_nonempty in H.
    destruct (filter _ _); simpl; [congruence|discriminate].
Qed.

Lemma walk_edges_in G cur x :
  In x (walk_edges G cur) ->
  exists e, In e (edges G) /\
            joins (is_directed G) cur (dst x) e = true /\ ekey e = ekey x.
Proof.
  unfold walk_edges. destruct (is_directed G).
  - unfold out_edges. intros H. apply filter_In in H. destruct H as [Hin Hs].
    exists x. repeat split; auto.
    unfold joins. now rewrite Hs, Nat.eqb_refl.
  - unfold edges_at. intros H. apply in_map_iff in H.
    destruct H as (e & <- & H). apply filter_In in H. destruct H as [Hin Hs].
    exists e. split; [assumption|].
    unfold report_from. destruct (src e =? cur) eqn:E.
    + split; [|reflexivity]. unfold joins. now rewrite E, Nat.eqb_refl.
    + simpl in Hs. split; [|reflexivity].
      change (dst (flip e)) with (src e). unfold joins.
      now rewrite E, Hs, Nat.eqb_refl.
Qed.

Definition frame_of (lv : option node) (lk : option key) : option frame :=
  match lv with
  | Some l => Some (l, lk)
  | None => None
  end.

Section Refinement.

Variable ae : chooser.
Hypothesis ae_arbitrary : arbitrary ae.

Lemma multigraph_refines fuel :
  forall G stack lv lk o r P,
    2 * length (edges G) + length stack < fuel ->
    let R := multigraph_loop ae fuel G stack lv lk in
    raised R = None /\
    nodes (final R) = nodes G /\
    exists B,
      asteps (is_directed G) (mkA stack (frame_of lv lk) (edges G) o r P) B /\
      stk B = [] /\ wk B = edges (final R) /\
      out B = rev (emitted R) ++ o.
Proof.
  induction fuel as [|fuel IH]; intros G stack lv lk o r P Hfuel; [lia|].
  destruct stack as [|[cur ck] rest].
  - simpl. repeat split. eexists. split; [apply asteps_refl|]. auto.
  - cbn [multigraph_loop]. destruct (walk_degree G cur =? 0) eqn:Hdeg.
    + apply Nat.eqb_eq in Hdeg. rewrite walk_degree_wdeg in Hdeg.
      simpl in Hfuel.
      destruct (IH G rest (Some cur) ck (emit (frame_of lv lk) cur o)
                   (top_or cur rest) (cur :: P)) as (Hr & Hn & B & Hst & Hs & Hw & Ho);
        [lia|].
      set (R' := multigraph_loop ae fuel G rest (Some cur) ck) in *.
      assert (Hstep : asteps (is_directed G)
                (mkA ((cur, ck) :: rest) (frame_of lv lk) (edges G) o r P) B).
      { eapply asteps_step; [|exact Hst]. now apply step_pop. }
      destruct lv as [l|]; simpl.
      * repeat split; auto. exists B. repeat split; auto.
        rewrite Ho. simpl. now rewrite <- app_assoc.
      * repeat split; auto. exists B. repeat split; auto.
    + apply Nat.eqb_neq in Hdeg.
      pose proof (walk_edges_nonempty G cur Hdeg) as Hne.
      pose proof (ae_arbitrary (walk_edges G cur)) as Hae.
      destruct (ae (walk_edges G cur)) as [[[c' next] k]|ex];
        [|destruct Hae; congruence].
      destruct (walk_edges_in G cur _ Hae) as (e & Hin & Hj & Hk).
      unfold dst, ekey in Hj, Hk. simpl in Hj, Hk.
      unfold remove_edge_key.
      destruct (remove_first_some
                  (fun e => joins (is_directed G) cur next e && (ekey e =? k))
                  (edges G) e Hin) as [E' HE'].
      { rewrite Hj. simpl. apply Nat.eqb_eq. exact Hk. }
      rewrite HE'.
      destruct (remove_first_perm _ _ HE') as (e' & Hin' & Hp' & Hperm).
      apply andb_true_iff in Hp'. destruct Hp' as [Hj' Hk'].
      apply Nat.eqb_eq in Hk'.
      destruct (joins_usable _ _ _ _ Hj') as [Hu Hoth].
      pose proof (Permutation_length Hperm) as Hlen. simpl in Hlen, Hfuel.
      destruct (IH (set_edges G E') ((next, Some k) :: (cur, ck) :: rest) lv lk o r P)
        as (Hr & Hn & B & Hst & Hs & Hw & Ho).
      { simpl. lia. }
      repeat split; auto. exists B. repeat split; auto.
      eapply asteps_step; [|exact Hst].
      rewrite <- Hoth, <- Hk'. now apply step_push.
Qed.

Lemma simplegraph_refines fuel :
  forall G astk lv alk o r P,
    2 * length (edges G) + length astk < fuel ->
    let R := simplegraph_loop ae fuel G (map fst astk) lv in
    raised R = None /\
    nodes (final R) = nodes G /\
    exists B,
      asteps (is_directed G) (mkA astk (frame_of lv alk) (edges G) o r P) B /\
      stk B = [] /\ wk B = edges (final R) /\
      map fst (out B) = rev (emitted R) ++ map fst o.
Proof.
  induction fuel as [|fuel IH]; intros G astk lv alk o r P Hfuel; [lia|].
  destruct astk as [|[cur ck] rest].
  - simpl. repeat split. eexists. split; [apply asteps_refl|]. auto.
  - cbn [simplegraph_loop map fst]. destruct (walk_degree G cur =? 0) eqn:Hdeg.
    + apply Nat.eqb_eq in Hdeg. rewrite walk_degree_wdeg in Hdeg.
      simpl in Hfuel.
      destruct (IH G rest (Some cur) ck (emit (frame_of lv alk) cur o)
                   (top_or cur rest) (cur :: P)) as (Hr & Hn & B & Hst & Hs & Hw & Ho);
        [lia|].
      set (R' := simplegraph_loop ae fuel G (map fst rest) (Some cur)) in *.
      assert (Hstep : asteps (is_directed G)
                (mkA ((cur, ck) :: rest) (frame_of lv alk) (edges G) o r P) B).
      { eapply asteps_step; [|exact Hst]. now apply step_pop. }
      destruct lv as [l|]; simpl.
      * repeat split; auto. exists B. repeat split; auto.
        rewrite Ho. simpl. now rewrite <- app_assoc.
      * repeat split; auto. exists B. repeat split; auto.
    + apply Nat.eqb_neq in Hdeg.
      pose proof (walk_edges_nonempty G cur Hdeg) as Hne.
      pose proof (ae_arbitrary (map ends (walk_edges G cur))) as Hae.
      destruct (ae (map ends (walk_edges G cur))) as [[c' next]|ex].
      2:{ destruct Hae as [Hnil _]. apply map_eq_nil in Hnil. congruence. }
      apply in_map_iff in Hae. destruct Hae as (x & Hx & Hin0).
      destruct (walk_edges_in G cur _ Hin0) as (e & Hin & Hj & _).
      assert (Hd : dst x = next) by (unfold dst, ends in *; now rewrite Hx).
      rewrite Hd in Hj.
      unfold remove_edge.
      destruct (remove_first_some (joins (is_directed G) cur next) (edges G) e Hin Hj)
        as [E' HE'].
      rewrite HE'.
      destruct (remove_first_perm _ _ HE') as (e' & Hin' & Hj' & Hperm).
      destruct (joins_usable _ _ _ _ Hj') as [Hu Hoth].
      pose proof (Permutation_length Hperm) as Hlen. simpl in Hlen, Hfuel.
      destruct (IH (set_edges G E') ((next, Some (ekey e')) :: (cur, ck) :: rest)
                   lv alk o r P)
        as (Hr & Hn & B & Hst & Hs & Hw & Ho).
      { simpl. lia. }
      repeat split; auto. exists B. repeat split; auto.
      eapply asteps_step; [|exact Hst].
      rewrite <- Hoth. now apply step_push.
Qed.

End Refinement.

(** ** Connectivity *)

Lemma conn_trans E u v w : conn E u v -> conn E v w -> conn E u w.
Proof.
  intros H1 H2. induction H2 as [|x w e _ IH He Hj]; [assumption|].
  eapply conn_step; eauto.
Qed.

Lemma conn_sym E u v : conn E u v -> conn E v u.
Proof.
  induction 1 as [|v w e _ IH He Hj]; [constructor|].
  eapply conn_trans; [|exact IH].
  eapply conn_step; [constructor|exact He|]. tauto.
Qed.

Lemma conn_incl E F u v :
  (forall e, In e E -> exists f, In f F /\
     ((src f = src e /\ dst f = dst e) \/ (src f = dst e /\ dst f = src e))) ->
  conn E u v -> conn F u v.
Proof.
  intros H. induction 1 as [|v w e _ IH He Hj]; [constructor|].
  destruct (H e He) as (f & Hf & Hends).
  eapply conn_step; [exact IH|exact Hf|].
  destruct Hends as [[A B]|[A B]], Hj as [[C D]|[C D]]; rewrite A, B; auto.
Qed.

Lemma conn_flip E u v : conn E u v -> conn (map flip E) u v.
Proof.
  apply conn_incl. intros e He. exists (flip e). split; [now apply in_map|].
  right. auto.
Qed.

Lemma adj_dir_conn E u v : adj_dir E u v = true -> conn E u v.
Proof.
  unfold adj_dir. intros H. apply existsb_exists in H.
  destruct H as (e & He & H). apply andb_true_iff in H.
  destruct H as [H1 H2]. apply Nat.eqb_eq in H1, H2.
  eapply conn_step; [constructor|exact He|]. auto.
Qed.

Lemma adj_und_conn E u v : adj_und E u v = true -> conn E u v.
Proof.
  unfold adj_und. intros H. apply orb_true_iff in H.
  destruct H as [H|H]; [|apply conn_sym]; now apply adj_dir_conn.
Qed.

Lemma reach_sound (adj : node -> node -> bool) E V s n :
  (forall u v, adj u v = true -> conn E u v) ->
  forall S, (forall x, In x S -> conn E s x) ->
  forall x, In x (reach adj V n S) -> conn E s x.
Proof.
  intros Hadj. induction n as [|n IH]; intros S HS x Hx; [now apply HS|].
  simpl in Hx. apply IH with (S := grow adj V S); [|assumption].
  intros y Hy. unfold grow in Hy. apply filter_In in Hy.
  destruct Hy as [_ Hy]. apply existsb_exists in Hy.
  destruct Hy as (u & Hu & H). apply orb_true_iff in H.
  destruct H as [H|H].
  - apply Nat.eqb_eq in H. subst. now apply HS.
  - apply conn_trans with (v := u); [now apply HS|now apply Hadj].
Qed.

Lemma mem_In v S : mem v S = true <-> In v S.
Proof.
  unfold mem. rewrite existsb_exists. split.
  - intros (x & Hx & H). apply Nat.eqb_eq in H. now subst.
  - intros H. exists v. split; [assumption|apply Nat.eqb_refl].
Qed.

Lemma covers_sound (adj : node -> node -> bool) E V s :
  (forall u v, adj u v = true -> conn E u v) ->
  covers adj V s = true -> forall v, In v V -> conn E s v.
Proof.
  intros Hadj H v Hv. unfold covers in H. rewrite forallb_forall in H.
  specialize (H v Hv). apply mem_In in H.
  eapply reach_sound; [exact Hadj| |exact H].
  intros x [<-|[]]. constructor.
Qed.

(** Whichever connectivity predicate answers [True], every vertex is joined
    to every other. *)
Lemma connected_conn G :
  is_connected G = Ok true \/ is_strongly_connected G = Ok true \/
  is_weakly_connected G = Ok true ->
  nodes G <> [] /\ forall u v, In u (nodes G) -> In v (nodes G) -> conn (edges G) u v.
Proof.
  intros H.
  assert (exists s, In s (nodes G) /\ forall v, In v (nodes G) -> conn (edges G) s v)
    as (s & Hs & Hall).
  { unfold is_connected, is_strongly_connected, is_weakly_connected in H.
    destruct (is_directed G), (nodes G) as [|s V] eqn:HV;
      try (destruct H as [H|[H|H]]; discriminate).
    - exists s. split; [now left|]. destruct H as [H|[H|H]]; try discriminate.
      + inversion H as [H1]. apply andb_true_iff in H1. destruct H1 as [H1 _].
        apply covers_sound with (adj := adj_dir (edges G)); auto using adj_dir_conn.
      + inversion H as [H1].
        apply covers_sound with (adj := adj_und (edges G)); auto using adj_und_conn.
    - exists s. split; [now left|]. destruct H as [H|[H|H]]; try discriminate.
      inversion H as [H1].
      apply covers_sound with (adj := adj_und (edges G)); auto using adj_und_conn. }
  split.
  - intros E. rewrite E in Hs. destruct Hs.
  - intros u v Hu Hv. eapply conn_trans; [apply conn_sym|]; eauto.
Qed.

(** ** Trails *)

Definition swap (p : node * node) : node * node := (snd p, fst p).

(** An edge of an undirected graph is an unordered pair: [pnorm] orders it. *)
Definition pnorm (d : bool) (p : node * node) : node * node :=
  if d then p else if fst p <=? snd p then p else swap p.

(** The trail [t] uses every edge of [G] exactly once. *)
Definition uses_every_edge_once (G : Graph) (t : list (node * node)) : Prop :=
  Permutation (map (pnorm (is_directed G)) (map ends (edges G)))
              (map (pnorm (is_directed G)) t).

(** Each edge's destination is the next edge's source. *)
Fixpoint is_walk (t : list (node * node)) : Prop :=
  match t with
  | p :: t' =>
      match t' with
      | q :: _ => snd p = fst q /\ is_walk t'
      | [] => True
      end
  | [] => True
  end.

Definition walk_from_to (a b : node) (t : list (node * node)) : Prop :=
  is_walk t /\ fst (hd (a, a) t) = a /\ snd (last t (b, b)) = b.

Definition closed_walk (t : list (node * node)) : Prop :=
  is_walk t /\ forall p, hd_error t = Some p -> snd (last t p) = fst p.

Lemma ends_norm d e : ends (norm d e) = pnorm d (ends e).
Proof.
  destruct e as [[u v] k]. unfold norm, pnorm, ends, flip, swap, src, dst.
  simpl. destruct d; [reflexivity|]. now destruct (u <=? v).
Qed.

Lemma pnorm_swap p : pnorm false (swap p) = pnorm false p.
Proof.
  destruct p as [u v]. unfold pnorm, swap. simpl.
  destruct (v <=? u) eqn:H1, (u <=? v) eqn:H2; try reflexivity.
  - apply Nat.leb_le in H1, H2. assert (u = v) by lia. now subst.
  - apply Nat.leb_gt in H1, H2. lia.
Qed.

Lemma swap_swap p : swap (swap p) = p.
Proof. now destruct p. Qed.

Lemma ends_unemit o : map ends (flat_map unemit o) = map swap (map fst o).
Proof.
  induction o as [|[[u v] k] o IH]; [reflexivity|].
  simpl. now rewrite IH.
Qed.

Lemma ends_flip E : map ends (map flip E) = map swap (map ends E).
Proof.
  induction E as [|[[u v] k] E IH]; [reflexivity|].
  simpl. now rewrite IH.
Qed.

Lemma last_rev {A : Type} (l : list A) dflt : last (rev l) dflt = hd dflt l.
Proof.
  destruct l as [|x l]; [reflexivity|].
  simpl. now rewrite last_last.
Qed.

Lemma hd_rev {A : Type} (l : list A) dflt : hd dflt (rev l) = last l dflt.
Proof.
  rewrite <- (rev_involutive l) at 2. now rewrite last_rev.
Qed.

Lemma last_map {A B : Type} (f : A -> B) l dflt : last (map f l) (f dflt) = f (last l dflt).
Proof.
  induction l as [|x l IH]; [reflexivity|].
  destruct l as [|y l]; [reflexivity|]. exact IH.
Qed.

Lemma hd_map {A B : Type} (f : A -> B) l dflt : hd (f dflt) (map f l) = f (hd dflt l).
Proof. now destruct l. Qed.

Lemma is_walk_snoc t p :
  is_walk t -> (t <> [] -> snd (last t p) = fst p) -> is_walk (t ++ [p]).
Proof.
  intros Hw Hl. induction t as [|a t IH]; [exact I|].
  destruct t as [|b t].
  - simpl. split; [|exact I]. apply Hl. discriminate.
  - destruct Hw as [Hab Hw]. split; [exact Hab|].
    apply IH; [exact Hw|]. intros _. apply Hl. discriminate.
Qed.

Lemma rchain_walk o : rchain o -> is_walk (rev (map fst o)).
Proof.
  induction o as [|[[u v] k] o IH]; [intros; exact I|].
  intros H. simpl. apply is_walk_snoc.
  - apply IH. destruct o as [|[[u' v'] k'] o']; [exact I|]. apply H.
  - intros Hne. rewrite last_rev.
    destruct o as [|[[u' v'] k'] o']; [now elim Hne|]. simpl. apply H.
Qed.

(** ** The builder on a working graph *)

Lemma map_ends_norm d E : map ends (map (norm d) E) = map (pnorm d) (map ends E).
Proof. rewrite !map_map. apply map_ext. intros e. apply ends_norm. Qed.

Lemma finished_trail d E0 s a0 B :
  (forall e, In e E0 -> conn E0 s (src e)) ->
  Inv d E0 s a0 B -> stk B = [] ->
  let t := rev (map fst (out B)) in
  wk B = [] /\
  Permutation (map (pnorm d) (map ends E0)) (map (pnorm d) (map swap t)) /\
  walk_from_to a0 s t.
Proof.
  intros Hc HI Hs t.
  destruct (walk_complete Hc HI Hs) as (HW & Hp & Hch & Hfirst & Hlast).
  split; [exact HW|]. split; [|split; [|split]].
  - apply (Permutation_map ends) in Hp.
    rewrite !map_ends_norm, ends_unemit in Hp.
    rewrite Hp. subst t. rewrite !map_rev. apply Permutation_rev.
  - subst t. now apply rchain_walk.
  - subst t. rewrite hd_rev.
    change (fst (last (map fst (out B)) (fst (a0, a0, @None key))) = a0).
    rewrite last_map.
    change a0 with (item_src (a0, a0, @None key)) in Hfirst at 1.
    rewrite last_map in Hfirst. exact Hfirst.
  - subst t. rewrite last_rev.
    change (snd (hd (fst (s, s, @None key)) (map fst (out B))) = s).
    rewrite hd_map.
    change s with (item_dst (s, s, @None key)) in Hlast at 1.
    rewrite hd_map in Hlast. exact Hlast.
Qed.

Lemma build_correct ae W s a0 keys :
  arbitrary ae ->
  bal (is_directed W) (edges W) s a0 ->
  (forall e, In e (edges W) -> conn (edges W) s (src e)) ->
  let R := build ae W s keys in
  let t := map item_ends (emitted R) in
  raised R = None /\ edges (final R) = [] /\ nodes (final R) = nodes W /\
  Permutation (map (pnorm (is_directed W)) (map ends (edges W)))
              (map (pnorm (is_directed W)) (map swap t)) /\
  walk_from_to a0 s t.
Proof.
  intros Hae Hbal Hc R t. subst R t. unfold build.
  pose proof (Inv_initial (d := is_directed W) (E0 := edges W) (s := s) (a0 := a0) Hbal)
    as HI0.
  destruct (is_multigraph W).
  - unfold _multigraph_eulerian_circuit.
    destruct (multigraph_refines Hae (fuel := rounds W) W [(s, None)] None None [] a0 [])
      as (Hr & Hn & B & Hst & Hs & Hw & Ho).
    { unfold rounds. simpl. lia. }
    pose proof (Inv_steps Hst HI0) as HI.
    destruct (finished_trail Hc HI Hs) as (HW & Hp & Hwalk).
    set (M := multigraph_loop ae (rounds W) W [(s, None)] None None) in *.
    assert (Ht : map item_ends (emitted (map_run
                   (fun uvk : node * node * option key =>
                      let '(u, v, k) := uvk in if keys then Triple u v k else Pair u v) M))
                 = rev (map fst (out B))).
    { simpl. rewrite map_map. rewrite Ho, app_nil_r, map_rev, rev_involutive.
      apply map_ext. intros [[u v] k]. now destruct keys. }
    rewrite Ht. simpl. repeat split; auto.
    + congruence.
    + apply Hwalk.
    + apply Hwalk.
    + apply Hwalk.
  - unfold _simplegraph_eulerian_circuit.
    destruct (simplegraph_refines Hae (fuel := rounds W) W [(s, None)] None None [] a0 [])
      as (Hr & Hn & B & Hst & Hs & Hw & Ho).
    { unfold rounds. simpl. lia. }
    pose proof (Inv_steps Hst HI0) as HI.
    destruct (finished_trail Hc HI Hs) as (HW & Hp & Hwalk).
    simpl in Hr, Hn, Hw, Ho.
    set (M := simplegraph_loop ae (rounds W) W [s] None) in *.
    assert (Ht : map item_ends (emitted (map_run
                   (fun uv : node * node => let '(u, v) := uv in Pair u v) M))
                 = rev (map fst (out B))).
    { simpl. rewrite map_map. rewrite Ho, app_nil_r, rev_involutive.
      rewrite <- (map_id (emitted M)) at 2.
      apply map_ext. now intros [u v]. }
    rewrite Ht. simpl. repeat split; auto.
    + congruence.
    + apply Hwalk.
    + apply Hwalk.
    + apply Hwalk.
Qed.

(** ** From the predicates to the hypotheses of the walk *)

Definition working (g : Graph) : Graph :=
  if is_directed g then reverse g else copy g.

Lemma working_directed g : is_directed (working g) = is_directed g.
Proof. unfold working, reverse, copy, set_edges. now destruct (is_directed g). Qed.

Lemma working_nodes g : nodes (working g) = nodes g.
Proof. unfold working. now destruct (is_directed g). Qed.

Lemma working_multigraph g : is_multigraph (working g) = is_multigraph g.
Proof. unfold working. now destruct (is_directed g). Qed.

Lemma working_edges g :
  edges (working g) = if is_directed g then map flip (edges g) else edges g.
Proof. unfold working. now destruct (is_directed g). Qed.

Lemma count_src_zero E v : (forall e, In e E -> src e <> v) -> count_src E v = 0.
Proof.
  induction E as [|e E IH]; [reflexivity|]. intros H.
  rewrite count_src_cons, IH, ind_neq; auto using in_eq, in_cons.
Qed.

Lemma count_dst_zero E v : (forall e, In e E -> dst e <> v) -> count_dst E v = 0.
Proof.
  induction E as [|e E IH]; [reflexivity|]. intros H.
  rewrite count_dst_cons, IH, ind_neq; auto using in_eq, in_cons.
Qed.

Lemma wf_outside g v :
  wf g -> ~ In v (nodes g) -> count_src (edges g) v = 0 /\ count_dst (edges g) v = 0.
Proof.
  intros [_ H] Hv. split.
  - apply count_src_zero. intros e He E. destruct (H e He). congruence.
  - apply count_dst_zero. intros e He E. destruct (H e He). congruence.
Qed.

Lemma working_conn g s :
  wf g ->
  (forall u v, In u (nodes g) -> In v (nodes g) -> conn (edges g) u v) ->
  In s (nodes g) ->
  forall e, In e (edges (working g)) -> conn (edges (working g)) s (src e).
Proof.
  intros [_ Hwf] Hc Hs e He. rewrite working_edges in *.
  destruct (is_directed g).
  - apply in_map_iff in He. destruct He as (e0 & <- & He0).
    apply conn_flip. apply Hc; [assumption|]. apply (Hwf e0 He0).
  - apply Hc; [assumption|]. apply (Hwf e He).
Qed.

Lemma eulerian_bal g s :
  wf g -> is_eulerian g = Ok true ->
  bal (is_directed (working g)) (edges (working g)) s s.
Proof.
  intros Hwf H x. rewrite working_directed, working_edges.
  unfold is_eulerian in H. destruct (is_directed g).
  - rewrite count_src_flip, count_dst_flip.
    destruct (forallb _ (nodes g)) eqn:Hall; [|discriminate].
    rewrite forallb_forall in Hall.
    destruct (in_dec Nat.eq_dec x (nodes g)) as [Hx|Hx].
    + specialize (Hall x Hx). apply Nat.eqb_eq in Hall.
      unfold in_degree, out_degree in Hall. lia.
    + destruct (wf_outside x Hwf Hx). lia.
  - destruct (forallb _ (nodes g)) eqn:Hall; [|discriminate].
    rewrite forallb_forall in Hall.
    destruct (in_dec Nat.eq_dec x (nodes g)) as [Hx|Hx].
    + specialize (Hall x Hx). apply Nat.eqb_eq in Hall.
      unfold degree in Hall. apply Nat.Div0.div_exact in Hall.
      exists ((count_src (edges g) x + count_dst (edges g) x) / 2 + ind x s). lia.
    + destruct (wf_outside x Hwf Hx) as [-> ->]. exists (ind x s). lia.
Qed.

Lemma eulerian_connected g :
  is_eulerian g = Ok true ->
  nodes g <> [] /\
  forall u v, In u (nodes g) -> In v (nodes g) -> conn (edges g) u v.
Proof.
  intros H. apply connected_conn. unfold is_eulerian in H.
  destruct (is_directed g), (forallb _ (nodes g)); try discriminate; auto.
Qed.

Lemma map_pnorm_true l : map (pnorm true) l = l.
Proof. induction l as [|p l IH]; [reflexivity|]. simpl. now rewrite IH. Qed.

Lemma map_swap_swap l : map swap (map swap l) = l.
Proof.
  induction l as [|p l IH]; [reflexivity|]. simpl. now rewrite IH, swap_swap.
Qed.

Lemma working_trail g t :
  Permutation (map (pnorm (is_directed (working g))) (map ends (edges (working g))))
              (map (pnorm (is_directed (working g))) (map swap t)) ->
  uses_every_edge_once g t.
Proof.
  unfold uses_every_edge_once. rewrite working_directed, working_edges.
  destruct (is_directed g); intros H.
  - rewrite ends_flip in H. rewrite !map_pnorm_true in *.
    apply (Permutation_map swap) in H. now rewrite !map_swap_swap in H.
  - rewrite H, map_map. erewrite map_ext; [reflexivity|]. apply pnorm_swap.
Qed.

Lemma walk_closed s t : walk_from_to s s t -> closed_walk t.
Proof.
  intros (Hw & Hh & Hl). split; [exact Hw|].
  intros p Hp. destruct t as [|q t]; [discriminate|]. inversion Hp; subst.
  simpl in Hh. rewrite Hh. etransitivity; [|exact Hl].
  f_equal. apply last_indep. discriminate.
Qed.

(** ** Eulerian circuits *)

Lemma chosen_source (ae : chooser) (V : list node) :
  arbitrary ae -> V <> [] -> exists s, ae _ V = Ok s /\ In s V.
Proof.
  intros Hae HV. specialize (Hae _ V). destruct (ae _ V) as [s|e].
  - eauto.
  - destruct Hae. contradiction.
Qed.

Lemma circuit_run (ae : chooser) (h : heap) (G : ref) (g : Graph) keys :
  arbitrary ae -> deref h G = Some g -> wf g -> is_eulerian g = Ok true ->
  exists s r,
    In s (nodes g) /\ ae _ (nodes (working g)) = Ok s /\
    r = build ae (working g) s keys /\
    consume (eulerian_circuit ae G None keys) h =
      (mkOutcome (emitted r) None, store (h ++ [working g]) (length h) (final r)) /\
    edges (final r) = [] /\
    uses_every_edge_once g (map item_ends (emitted r)) /\
    walk_from_to s s (map item_ends (emitted r)).
Proof.
  intros Hae Hd Hwf He.
  destruct (eulerian_connected g He) as [Hne Hconn].
  destruct (@chosen_source ae (nodes (working g)) Hae) as (s & Hs & Hin).
  { now rewrite working_nodes. }
  rewrite working_nodes in Hin.
  destruct (@build_correct ae (working g) s s keys Hae)
    as (Hr & Hfin & Hn & Hp & Hwalk).
  { now apply eulerian_bal. }
  { now apply working_conn. }
  exists s, (build ae (working g) s keys). repeat split; auto.
  - unfold consume, eulerian_circuit. rewrite Hd, He. unfold alloc.
    fold (working g). rewrite Hs. now rewrite Hr.
  - now apply working_trail.
  - apply Hwalk.
  - apply Hwalk.
  - apply Hwalk.
Qed.

(** C1: [is_eulerian(G)] is true exactly when consuming [eulerian_circuit(G)]
    succeeds with a sequence of edges that uses every edge of [G] once and
    chains into a closed walk. *)
Theorem eulerian_circuit_iff (ae : chooser) (h : heap) (G : ref) (g : Graph) keys :
  arbitrary ae -> deref h G = Some g -> wf g ->
  (is_eulerian g = Ok true <->
   let o := fst (consume (eulerian_circuit ae G None keys) h) in
   failure o = None /\
   uses_every_edge_once g (map item_ends (yielded o)) /\
   closed_walk (map item_ends (yielded o))).
Proof.
  intros Hae Hd Hwf. split.
  - intros He.
    destruct (@circuit_run ae h G g keys Hae Hd Hwf He)
      as (s & r & _ & _ & _ & Hrun & _ & Huse & Hwalk).
    rewrite Hrun. simpl. repeat split; auto.
    + apply (walk_closed Hwalk).
    + apply (walk_closed Hwalk).
  - unfold consume, eulerian_circuit. rewrite Hd.
    destruct (is_eulerian g) as [[|]|e]; simpl; auto.
    + intros [H _]. discriminate.
    + intros [H _]. discriminate.
Qed.

(** ** Concrete graphs *)

Lemma first_element_arbitrary : arbitrary first_element.
Proof. intros A [|x l]; simpl; auto. Qed.

(** The triangle, the path on four vertices, a single vertex, the star with
    four leaves and two disjoint triangles. *)
Definition triangle : Graph :=
  mkGraph false false [0; 1; 2] [(0, 1, 0); (0, 2, 0); (1, 2, 0)].
Definition path4 : Graph :=
  mkGraph false false [0; 1; 2; 3] [(0, 1, 0); (1, 2, 0); (2, 3, 0)].
Definition single : Graph := mkGraph false false [0] [].
Definition star4 : Graph :=
  mkGraph false false [0; 1; 2; 3; 4] [(0, 1, 0); (0, 2, 0); (0, 3, 0); (0, 4, 0)].
Definition two_triangles : Graph :=
  mkGraph false false [0; 1; 2; 3; 4; 5]
          [(0, 1, 0); (0, 2, 0); (1, 2, 0); (3, 4, 0); (3, 5, 0); (4, 5, 0)].
Definition null_graph : Graph := mkGraph false false [] [].
Definition directed_path : Graph := mkGraph true false [0; 1; 2] [(0, 1, 0); (1, 2, 0)].
Definition directed_cycle : Graph :=
  mkGraph true false [0; 1; 2] [(0, 1, 0); (1, 2, 0); (2, 0, 0)].

Definition wfb (g : Graph) : bool :=
  forallb (fun e => mem (src e) (nodes g) && mem (dst e) (nodes g)) (edges g).

Lemma wfb_wf g : NoDup (nodes g) -> wfb g = true -> wf g.
Proof.
  intros Hn H. split; [exact Hn|]. intros e He.
  unfold wfb in H. rewrite forallb_forall in H. specialize (H e He).
  apply andb_true_iff in H. destruct H as [H1 H2].
  now rewrite !mem_In in *.
Qed.

Lemma NoDup_nodup_eq (l : list node) : nodup Nat.eq_dec l = l -> NoDup l.
Proof. intros <-. apply NoDup_nodup. Qed.

Lemma triangle_wf : wf triangle.
Proof. apply wfb_wf; [apply NoDup_nodup_eq|]; reflexivity. Qed.

Lemma eulerian_circuit_iff_witness :
  is_eulerian triangle = Ok true <->
  (let o := fst (consume (eulerian_circuit first_element 0 None false) [triangle]) in
   failure o = None /\
   uses_every_edge_once triangle (map item_ends (yielded o)) /\
   closed_walk (map item_ends (yielded o))).
Proof.
  apply (@eulerian_circuit_iff first_element [triangle] 0 triangle false).
  - apply first_element_arbitrary.
  - reflexivity.
  - apply triangle_wf.
Defined.

(** The triangle of the spec's first scenario: three edges, a closed walk. *)
Example triangle_circuit :
  consume (eulerian_circuit first_element 0 None false) [triangle] =
  (mkOutcome [Pair 0 2; Pair 2 1; Pair 1 0] None,
   [triangle; mkGraph false false [0; 1; 2] []]).
Proof. reflexivity. Qed.

(** ** A graph without edges *)

Lemma walk_degree_no_edges W v : edges W = [] -> walk_degree W v = 0.
Proof.
  intros H. rewrite walk_degree_wdeg, H. unfold wdeg. now destruct (is_directed W).
Qed.

(** With no edge to follow, the first round pops the source frame while no
    vertex has been popped before, and the second round finds the stack
    empty. *)
Lemma build_no_edges ae W s keys :
  edges W = [] -> build ae W s keys = mkRun [] None W.
Proof.
  intros H. unfold build, _multigraph_eulerian_circuit, _simplegraph_eulerian_circuit,
    rounds. rewrite H. simpl.
  rewrite (walk_degree_no_edges W s H). simpl.
  now destruct (is_multigraph W).
Qed.

(** C10: on a graph that [is_eulerian] accepts and that has no edge,
    [eulerian_circuit] yields the empty sequence and raises nothing. *)
Theorem eulerian_circuit_no_edges (ae : chooser) (h : heap) (G : ref) (g : Graph) keys :
  arbitrary ae -> deref h G = Some g ->
  is_eulerian g = Ok true -> edges g = [] ->
  fst (consume (eulerian_circuit ae G None keys) h) = mkOutcome [] None.
Proof.
  intros Hae Hd He HE.
  destruct (eulerian_connected g He) as [Hne _].
  destruct (@chosen_source ae (nodes (working g)) Hae) as (s & Hs & _).
  { now rewrite working_nodes. }
  unfold consume, eulerian_circuit. rewrite Hd, He. unfold alloc.
  fold (working g). rewrite Hs.
  rewrite build_no_edges; [reflexivity|].
  rewrite working_edges, HE. now destruct (is_directed g).
Qed.

Lemma eulerian_circuit_no_edges_witness :
  fst (consume (eulerian_circuit first_element 0 None false) [single]) =
  mkOutcome [] None.
Proof.
  apply (@eulerian_circuit_no_edges first_element [single] 0 single false).
  - apply first_element_arbitrary.
  - reflexivity.
  - reflexivity.
  - reflexivity.
Defined.

(** ** The predicate [is_eulerian] *)

(** [is_eulerian] in terms of the answers of the connectivity predicates. *)
Lemma is_eulerian_unfold (g : Graph) :
  (is_directed g = true ->
   (is_eulerian g = Ok true <->
    (forall v, In v (nodes g) -> in_degree g v = out_degree g v) /\
    is_strongly_connected g = Ok true)) /\
  (is_directed g = false ->
   (is_eulerian g = Ok true <->
    (forall v, In v (nodes g) -> Nat.Even (degree g v)) /\
    is_connected g = Ok true)).
Proof.
  split; intros Hd; unfold is_eulerian; rewrite Hd.
  - destruct (forallb _ (nodes g)) eqn:Hall.
    + rewrite forallb_forall in Hall. split.
      * intros H. split; [|exact H]. intros v Hv. now apply Nat.eqb_eq, Hall.
      * now intros [_ H].
    + split; [discriminate|]. intros [H _]. exfalso.
      assert (forallb (fun n => in_degree g n =? out_degree g n) (nodes g) = true).
      { apply forallb_forall. intros v Hv. now apply Nat.eqb_eq, H. }
      congruence.
  - destruct (forallb _ (nodes g)) eqn:Hall.
    + rewrite forallb_forall in Hall. split.
      * intros H. split; [|exact H]. intros v Hv.
        specialize (Hall v Hv). apply Nat.eqb_eq in Hall.
        apply Nat.Div0.mod_divides in Hall. destruct Hall as [c Hc].
        exists c. exact Hc.
      * now intros [_ H].
    + split; [discriminate|]. intros [H _]. exfalso.
      assert (forallb (fun v => degree g v mod 2 =? 0) (nodes g) = true).
      { apply forallb_forall. intros v Hv. apply Nat.eqb_eq.
        destruct (H v Hv) as [c Hc]. rewrite Hc.
        rewrite Nat.mul_comm. apply Nat.Div0.mod_mul. }
      congruence.
Qed.

(** ** The caller's graph is left alone *)

(** Every object of [h] is still there, unchanged, in [h']. *)
Definition preserves (h h' : heap) : Prop :=
  forall r x, deref h r = Some x -> deref h' r = Some x.

Lemma deref_lt h r x : deref h r = Some x -> r < length h.
Proof. intros H. apply nth_error_Some. unfold deref in H. congruence. Qed.

Lemma preserves_refl h : preserves h h.
Proof. intros r x H. exact H. Qed.

Lemma preserves_alloc h g : preserves h (fst (alloc h g)).
Proof.
  intros r x H. simpl. unfold deref in *.
  rewrite nth_error_app1; [exact H|]. now apply deref_lt with (x := x).
Qed.

Lemma deref_store_other h r r' g : r <> r' -> deref (store h r' g) r = deref h r.
Proof.
  revert r r'. induction h as [|x h IH]; intros r r' Hne; [now destruct r'|].
  destruct r' as [|r'], r as [|r]; simpl; try reflexivity; try congruence.
  apply IH. congruence.
Qed.

Lemma preserves_fresh h g g' : preserves h (store (h ++ [g]) (length h) g').
Proof.
  intros r x H. pose proof (deref_lt _ _ H) as Hlt.
  rewrite deref_store_other by lia.
  now apply (preserves_alloc h g).
Qed.

(** C8: [is_eulerian], [has_eulerian_path], and the generators of
    [eulerian_circuit] and [eulerian_path] consumed to their end leave
    every graph of the caller as it was. *)
Theorem analysis_frame (ae : chooser) (h : heap) (G : ref)
  (source : option node) (keys : bool) :
  snd (query is_eulerian G h) = h /\
  snd (query has_eulerian_path G h) = h /\
  preserves h (snd (consume (eulerian_circuit ae G source keys) h)) /\
  preserves h (snd (consume (eulerian_path ae G source keys) h)).
Proof.
  repeat split.
  - unfold query. now destruct (deref h G).
  - unfold query. now destruct (deref h G).
  - unfold consume, eulerian_circuit.
    destruct (deref h G) as [g|]; [|apply preserves_refl].
    destruct (is_eulerian g) as [[|]|e]; try apply preserves_refl.
    unfold alloc.
    destruct (match source with
              | Some s => Ok s
              | None => ae _ (nodes (if is_directed g then reverse g else copy g))
              end) as [s|e]; simpl.
    + apply preserves_fresh.
    + apply (preserves_alloc h).
  - unfold consume, eulerian_path.
    destruct (deref h G) as [g|]; [|apply preserves_refl].
    destruct (has_eulerian_path g) as [[|]|e]; try apply preserves_refl.
    unfold alloc.
    destruct (match source with
              | Some s => Ok (Some s)
              | None => _find_path_start ae (if is_directed g then reverse g else copy g)
              end) as [[s|]|e]; simpl.
    + apply preserves_fresh.
    + apply (preserves_alloc h).
    + apply (preserves_alloc h).
Qed.

(** C9: [eulerize] leaves the caller's graph as it was; the multigraph it
    returns is a new object. *)
Theorem eulerize_frame
  (shortest_path : Graph -> node -> node -> result (list node))
  (max_weight_matching : list wedge -> list (node * node))
  (h : heap) (G : ref) :
  let '(res, h') := eulerize shortest_path max_weight_matching G h in
  preserves h h' /\
  forall H, res = Ok H -> deref h H = None /\ H <> G.
Proof.
  unfold eulerize. destruct (deref h G) as [g|] eqn:Hd.
  2:{ split; [apply preserves_refl|discriminate]. }
  destruct (is_directed g); [split; [apply preserves_refl|discriminate]|].
  destruct (order g =? 0); [split; [apply preserves_refl|discriminate]|].
  destruct (is_connected g) as [[|]|e];
    try (split; [apply preserves_refl|discriminate]).
  unfold alloc.
  assert (Hfresh : deref h (length h) = None /\ length h <> G).
  { split.
    - apply nth_error_None. lia.
    - pose proof (deref_lt _ _ Hd). lia. }
  destruct (length (odd_degree_nodes g) =? 0).
  - split; [apply (preserves_alloc h)|]. intros H E. inversion E; subst. exact Hfresh.
  - destruct (duplicate_paths _ _ _ _) as [g'|e].
    + split; [apply preserves_fresh|]. intros H E. inversion E; subst. exact Hfresh.
    + split; [apply (preserves_alloc h)|]. discriminate.
Qed.

(** ** Precondition violations *)

Definition not_eulerian : exn := NetworkXError "G is not Eulerian.".
Definition no_eulerian_path : exn := NetworkXError "Graph has no Eulerian paths.".
Definition directed_unsupported : exn :=
  NetworkXNotImplemented "not implemented for directed type".
Definition null_graph_pointless : exn :=
  NetworkXPointlessConcept "Cannot Eulerize null graph".
Definition not_connected : exn := NetworkXError "G is not connected".

(** The path on four vertices is not Eulerian, and still the call of
    [eulerian_circuit] on it returns: it hands back a generator. *)
Lemma circuit_call_returns :
  is_eulerian path4 = Ok false /\
  ~ (exists e, fst (call (eulerian_circuit first_element 0 None false) [path4]) = Raise e).
Proof.
  split; [reflexivity|]. intros [e H]. discriminate H.
Qed.

(** C4, as the code has it: the three violations of [eulerize] fail at the
    call; a circuit asked of a non-Eulerian graph and a path asked of a graph
    without one fail when the generator is first advanced, the call having
    returned.  Each of the five has its own exception, nothing has been
    yielded and the store is as before. *)
Theorem precondition_violations (ae : chooser)
  (shortest_path : Graph -> node -> node -> result (list node))
  (max_weight_matching : list wedge -> list (node * node))
  (h : heap) (G : ref) (g : Graph) (source : option node) (keys : bool) :
  deref h G = Some g ->
  (is_eulerian g = Ok false ->
   call (eulerian_circuit ae G source keys) h = (Ok (eulerian_circuit ae G source keys), h) /\
   consume (eulerian_circuit ae G source keys) h = (mkOutcome [] (Some not_eulerian), h)) /\
  (has_eulerian_path g = Ok false ->
   call (eulerian_path ae G source keys) h = (Ok (eulerian_path ae G source keys), h) /\
   consume (eulerian_path ae G source keys) h = (mkOutcome [] (Some no_eulerian_path), h)) /\
  (is_directed g = true ->
   eulerize shortest_path max_weight_matching G h = (Raise directed_unsupported, h)) /\
  (is_directed g = false -> order g = 0 ->
   eulerize shortest_path max_weight_matching G h = (Raise null_graph_pointless, h)) /\
  (is_directed g = false -> order g <> 0 -> is_connected g = Ok false ->
   eulerize shortest_path max_weight_matching G h = (Raise not_connected, h)) /\
  NoDup [not_eulerian; no_eulerian_path; directed_unsupported;
         null_graph_pointless; not_connected].
Proof.
  intros Hd. split; [|split; [|split; [|split; [|split]]]].
  - intros He. split; [reflexivity|].
    unfold consume, eulerian_circuit. now rewrite Hd, He.
  - intros Hp. split; [reflexivity|].
    unfold consume, eulerian_path. now rewrite Hd, Hp.
  - intros Hdir. unfold eulerize. now rewrite Hd, Hdir.
  - intros Hdir Ho. unfold eulerize. rewrite Hd, Hdir, Ho. reflexivity.
  - intros Hdir Ho Hc. unfold eulerize. rewrite Hd, Hdir, Hc.
    apply Nat.eqb_neq in Ho. now rewrite Ho.
  - repeat constructor; simpl; intuition discriminate.
Qed.

Definition two_node_paths : Graph -> node -> node -> result (list node) :=
  fun _ m n => Ok [m; n].
Definition no_matching : list wedge -> list (node * node) := fun _ => [].

Lemma precondition_violations_witness :
  consume (eulerian_circuit first_element 0 None false) [path4] =
    (mkOutcome [] (Some not_eulerian), [path4]) /\
  consume (eulerian_path first_element 0 None false) [star4] =
    (mkOutcome [] (Some no_eulerian_path), [star4]) /\
  eulerize two_node_paths no_matching 0 [directed_path] =
    (Raise directed_unsupported, [directed_path]) /\
  eulerize two_node_paths no_matching 0 [null_graph] =
    (Raise null_graph_pointless, [null_graph]) /\
  eulerize two_node_paths no_matching 0 [two_triangles] =
    (Raise not_connected, [two_triangles]).
Proof.
  pose proof (fun g => @precondition_violations first_element two_node_paths
                         no_matching [g] 0 g None false eq_refl) as V.
  split; [|split; [|split; [|split]]].
  - apply (proj1 (V path4)). reflexivity.
  - apply (proj1 (proj2 (V star4))). reflexivity.
  - apply (proj1 (proj2 (proj2 (V directed_path)))). reflexivity.
  - apply (proj1 (proj2 (proj2 (proj2 (V null_graph))))); reflexivity.
  - apply (proj1 (proj2 (proj2 (proj2 (proj2 (V two_triangles)))))).
    + reflexivity.
    + discriminate.
    + reflexivity.
Defined.

(** ** Eulerian paths on two small graphs *)

(** A directed graph in which vertex 0 has two more outgoing than incoming
    edges and vertex 1 two more incoming than outgoing ones.  The docstring of
    [has_eulerian_path] allows a difference of one only; the code counts the
    unbalanced vertices and accepts the graph. *)
Definition unbalanced_digraph : Graph :=
  mkGraph true false [0; 1; 2] [(0, 1, 0); (0, 2, 0); (2, 1, 0)].

(** C3 at [unbalanced_digraph]: [has_eulerian_path] answers true and
    [is_eulerian] false, and [eulerian_path] yields [(0,0)], which is no edge
    of the graph, and never the edge [(0,1)]. *)
Theorem eulerian_path_unbalanced :
  has_eulerian_path unbalanced_digraph = Ok true /\
  is_eulerian unbalanced_digraph = Ok false /\
  fst (consume (eulerian_path first_element 0 None false) [unbalanced_digraph]) =
    mkOutcome [Pair 0 0; Pair 0 2; Pair 2 1] None /\
  ~ uses_every_edge_once unbalanced_digraph [(0, 0); (0, 2); (2, 1)].
Proof.
  repeat split. intros H. unfold uses_every_edge_once in H. simpl in H.
  apply Permutation_sym in H.
  apply (Permutation_in (0, 0)) in H; [|now left].
  simpl in H. intuition discriminate.
Qed.

(** C7 at the path on four vertices: [_find_path_start] names vertex 0, and
    the trail that [eulerian_path] emits starts at vertex 3 and ends at 0. *)
Theorem eulerian_path_starts_at_far_end :
  has_eulerian_path path4 = Ok true /\
  is_eulerian path4 = Ok false /\
  _find_path_start first_element path4 = Ok (Some 0) /\
  fst (consume (eulerian_path first_element 0 None false) [path4]) =
    mkOutcome [Pair 3 2; Pair 2 1; Pair 1 0] None.
Proof. repeat split. Qed.

(** On a directed path the trail does start at the vertex that
    [_find_path_start] names for the caller's graph. *)
Example directed_path_trail :
  _find_path_start first_element directed_path = Ok (Some 0) /\
  fst (consume (eulerian_path first_element 0 None false) [directed_path]) =
    mkOutcome [Pair 0 1; Pair 1 2] None.
Proof. repeat split. Qed.

(** ** The auxiliary weighted graph *)

Fixpoint distinct_pairs (L : list (node * node)) : Prop :=
  match L with
  | [] => True
  | p :: L' =>
      fst p <> snd p /\
      (forall q, In q L' -> pjoins (fst p) (snd p) q = false) /\
      distinct_pairs L'
  end.

Lemma pjoins_true u v p :
  pjoins u v p = true <-> (fst p = u /\ snd p = v) \/ (fst p = v /\ snd p = u).
Proof.
  unfold pjoins. rewrite orb_true_iff, !andb_true_iff, !Nat.eqb_eq. tauto.
Qed.

Lemma pjoins_false u v p :
  pjoins u v p = false <-> ~ ((fst p = u /\ snd p = v) \/ (fst p = v /\ snd p = u)).
Proof.
  rewrite <- pjoins_true. destruct (pjoins u v p); split; intros; congruence.
Qed.

Lemma distinct_pairs_app A B :
  distinct_pairs A -> distinct_pairs B ->
  (forall a b, In a A -> In b B -> pjoins (fst a) (snd a) b = false) ->
  distinct_pairs (A ++ B).
Proof.
  induction A as [|a A IH]; intros HA HB Hx; [exact HB|].
  destruct HA as (Hne & Hrest & HA). simpl. repeat split.
  - exact Hne.
  - intros q Hq. apply in_app_or in Hq. destruct Hq; auto using in_eq.
  - apply IH; auto. intros a' b Ha' Hb. apply Hx; [now right|assumption].
Qed.

Lemma combinations2_in l m n :
  In (m, n) (combinations2 l) -> In m l /\ In n l.
Proof.
  induction l as [|x l IH]; simpl; [easy|].
  intros H. apply in_app_or in H. destruct H as [H|H].
  - apply in_map_iff in H. destruct H as (y & E & Hy). inversion E; subst. auto.
  - destruct (IH H). auto.
Qed.

Lemma combinations2_distinct l : NoDup l -> distinct_pairs (combinations2 l).
Proof.
  induction 1 as [|x l Hx Hnd IH]; [exact I|].
  simpl. apply distinct_pairs_app; [|exact IH|].
  - clear IH. induction l as [|y l IHl]; [exact I|].
    inversion Hnd; subst. simpl. repeat split.
    + intros E. apply Hx. now left.
    + intros q Hq. apply in_map_iff in Hq. destruct Hq as (z & <- & Hz).
      apply pjoins_false. simpl. intros [[_ E]|[E _]].
      * subst. contradiction.
      * subst. apply Hx. now left.
    + apply IHl; [|assumption]. intros Hin. apply Hx. now right.
  - intros a [b1 b2] Ha Hb. apply in_map_iff in Ha. destruct Ha as (z & <- & Hz).
    destruct (combinations2_in _ _ _ Hb) as [H1 H2].
    apply pjoins_false. simpl. intros [[E _]|[_ E]]; subst; contradiction.
Qed.

Lemma combinations2_complete l u v :
  In u l -> In v l -> u <> v ->
  In (u, v) (combinations2 l) \/ In (v, u) (combinations2 l).
Proof.
  induction l as [|x l IH]; simpl; [easy|].
  intros [Hu|Hu] [Hv|Hv] Hne; subst; try congruence.
  - left. apply in_or_app. left. now apply in_map.
  - right. apply in_or_app. left. now apply in_map.
  - destruct (IH Hu Hv Hne); [left|right]; apply in_or_app; now right.
Qed.

Lemma filter_none {A : Type} (p : A -> bool) l :
  (forall x, In x l -> p x = false) -> filter p l = [].
Proof.
  induction l as [|x l IH]; [reflexivity|]. intros H. simpl.
  rewrite (H x (in_eq _ _)). apply IH. intros y Hy. apply H. now right.
Qed.

Lemma distinct_pairs_count L u v :
  distinct_pairs L -> length (filter (pjoins u v) L) <= 1.
Proof.
  induction L as [|p L IH]; simpl; [lia|].
  intros (Hne & Hrest & HL). specialize (IH HL).
  destruct (pjoins u v p) eqn:Hp; [|exact IH].
  simpl. apply pjoins_true in Hp.
  assert (filter (pjoins u v) L = []) as ->; [|simpl; lia].
  apply filter_none. intros q Hq. specialize (Hrest q Hq).
  apply pjoins_false. apply pjoins_false in Hrest.
  intros H. apply Hrest. destruct Hp as [[<- <-]|[<- <-]]; tauto.
Qed.

Lemma add_wedge_fresh Gp w :
  (forall x, In x Gp -> wjoins (we_u w) (we_v w) x = false) ->
  add_wedge Gp w = Gp ++ [w].
Proof.
  induction Gp as [|x Gp IH]; intros H; [reflexivity|].
  simpl. rewrite (H x (in_eq _ _)). rewrite IH; [reflexivity|].
  intros y Hy. apply H. now right.
Qed.

Lemma wjoins_true u v w :
  wjoins u v w = true <->
  (we_u w = u /\ we_v w = v) \/ (we_u w = v /\ we_v w = u).
Proof.
  unfold wjoins. rewrite orb_true_iff, !andb_true_iff, !Nat.eqb_eq. tauto.
Qed.

Section AuxiliaryGraph.

Variable shortest_path : Graph -> node -> node -> result (list node).
Variable G : Graph.

(** The edge of [Gp] that records the pair [(m, n)]. *)
Definition recorded (mn : node * node) (w : wedge) : Prop :=
  we_u w = snd mn /\ we_v w = fst mn /\
  shortest_path G (fst mn) (snd mn) = Ok (path w) /\
  path w <> [] /\
  weight w = 1 # Pos.of_nat (length (path w)).

Lemma auxiliary_fold L :
  forall acc,
    distinct_pairs L ->
    (forall p x, In p L -> In x acc -> wjoins (snd p) (fst p) x = false) ->
    (forall p, In p L -> exists P, shortest_path G (fst p) (snd p) = Ok P /\ P <> []) ->
    exists pp ws,
      mapM (path_entry shortest_path G) L = Ok pp /\
      foldM add_paths pp acc = Ok (acc ++ ws) /\
      Forall2 recorded L ws.
Proof.
  induction L as [|[m n] L IH]; intros acc Hd Hacc Hsp.
  - exists [], []. simpl. rewrite app_nil_r. auto.
  - destruct Hd as (Hne & Hrest & Hd). simpl in Hne, Hrest.
    destruct (Hsp (m, n) (in_eq _ _)) as (P & HP & HPne). simpl in HP.
    destruct P as [|p0 P']; [congruence|].
    set (w0 := mkWedge n m (1 # Pos.of_succ_nat (length P')) (p0 :: P')).
    assert (Hfresh : add_wedge acc w0 = acc ++ [w0]).
    { apply add_wedge_fresh. intros x Hx. apply (Hacc (m, n) x); [now left|assumption]. }
    destruct (IH (acc ++ [w0]) Hd) as (pp & ws & Hpp & Hfold & Hrec).
    { intros p x Hp Hx. apply in_app_or in Hx. destruct Hx as [Hx|[<-|[]]].
      - apply Hacc; [now right|assumption].
      - specialize (Hrest p Hp). apply pjoins_false in Hrest.
        destruct (wjoins (snd p) (fst p) w0) eqn:E; [exfalso|reflexivity].
        apply wjoins_true in E. simpl in E. apply Hrest.
        destruct E as [[E1 E2]|[E1 E2]]; subst; auto. }
    { intros p Hp. apply Hsp. now right. }
    exists ((m, [(n, p0 :: P')]) :: pp), (w0 :: ws). split; [|split].
    + simpl. rewrite HP. simpl. rewrite Hpp. reflexivity.
    + simpl. apply Nat.eqb_neq in Hne. rewrite Hne. simpl.
      fold w0. rewrite Hfresh. rewrite Hfold. now rewrite <- app_assoc.
    + constructor; [|exact Hrec]. unfold recorded. simpl.
      split; [reflexivity|]. split; [reflexivity|]. split; [exact HP|].
      split; [discriminate|]. now rewrite Pos.of_nat_succ.
Qed.

End AuxiliaryGraph.

Lemma pairwise_length P : P <> [] -> length P = S (length (pairwise P)).
Proof.
  induction P as [|u P IH]; [congruence|]. intros _.
  destruct P as [|v P]; [reflexivity|].
  change (S (length (v :: P)) = S (S (length (pairwise (v :: P))))).
  rewrite IH; [reflexivity|discriminate].
Qed.

Lemma distinct_pairs_ne L p : distinct_pairs L -> In p L -> fst p <> snd p.
Proof.
  induction L as [|q L IH]; [easy|]. intros (Hne & _ & HL) [<-|Hp]; auto.
Qed.

Lemma recorded_count sp G L ws u v :
  Forall2 (recorded sp G) L ws ->
  length (filter (wjoins u v) ws) = length (filter (pjoins u v) L).
Proof.
  induction 1 as [|p w L ws Hr _ IH]; [reflexivity|].
  destruct Hr as (Hu & Hv & _). simpl.
  assert (E : wjoins u v w = pjoins u v p).
  { destruct (pjoins u v p) eqn:Hp.
    - apply pjoins_true in Hp. apply wjoins_true. rewrite Hu, Hv. tauto.
    - apply pjoins_false in Hp.
      destruct (wjoins u v w) eqn:Hw; [|reflexivity].
      apply wjoins_true in Hw. rewrite Hu, Hv in Hw. tauto. }
  rewrite E. destruct (pjoins u v p); simpl; now rewrite IH.
Qed.

Lemma recorded_in sp G L ws w :
  Forall2 (recorded sp G) L ws -> In w ws -> exists p, In p L /\ recorded sp G p w.
Proof.
  induction 1 as [|p x L ws Hr _ IH]; [easy|].
  intros [<-|Hw].
  - exists p. split; [now left|assumption].
  - destruct (IH Hw) as (q & Hq & Hrq). exists q. split; [now right|assumption].
Qed.

(** The graph of one edge, whose two vertices have odd degree. *)
Definition path2 : Graph := mkGraph false false [0; 1] [(0, 1, 0)].

(** For the single edge [0 - 1] the recorded path [0, 1] has one edge, and
    the weight of the auxiliary edge is one half. *)
Lemma weight_counts_vertices :
  exists w,
    (pp <- odd_deg_pairs_paths two_node_paths (MultiGraph path2) (odd_degree_nodes path2) ;;
     auxiliary_graph pp) = Ok [w] /\
    length (pairwise (path w)) = 1 /\
    ~ (weight w == 1 # Pos.of_nat (length (pairwise (path w))))%Q.
Proof.
  exists (mkWedge 1 0 (1 # 2) [0; 1]). repeat split. simpl.
  unfold Qeq. simpl. discriminate.
Qed.

(** C6, as the code has it: the auxiliary graph of [eulerize] has exactly one
    edge for every two distinct vertices of odd degree and no other edge; the
    weight of an edge is 1 divided by the number of vertices of the recorded
    shortest path, that is by its number of edges plus one. *)
Theorem auxiliary_graph_spec
  (shortest_path : Graph -> node -> node -> result (list node)) (g : Graph) :
  wf g ->
  (forall m n, In (m, n) (combinations2 (odd_degree_nodes g)) ->
     exists P, shortest_path (MultiGraph g) m n = Ok P /\ P <> []) ->
  exists pp Gp,
    odd_deg_pairs_paths shortest_path (MultiGraph g) (odd_degree_nodes g) = Ok pp /\
    auxiliary_graph pp = Ok Gp /\
    (forall u v, In u (odd_degree_nodes g) -> In v (odd_degree_nodes g) -> u <> v ->
       length (filter (wjoins u v) Gp) = 1) /\
    (forall w, In w Gp ->
       In (we_u w) (odd_degree_nodes g) /\ In (we_v w) (odd_degree_nodes g) /\
       we_u w <> we_v w /\
       shortest_path (MultiGraph g) (we_v w) (we_u w) = Ok (path w) /\
       weight w = 1 # Pos.of_nat (S (length (pairwise (path w))))).
Proof.
  intros [Hnd _] Hsp.
  assert (Hodd : NoDup (odd_degree_nodes g)) by now apply NoDup_filter.
  pose proof (combinations2_distinct Hodd) as Hdist.
  destruct (@auxiliary_fold shortest_path (MultiGraph g)
              (combinations2 (odd_degree_nodes g)) [] Hdist)
    as (pp & Gp & Hpp & Hfold & Hrec).
  { intros p x _ []. }
  { intros [m n] Hp. now apply Hsp. }
  exists pp, Gp. split; [exact Hpp|]. split; [exact Hfold|]. split.
  - intros u v Hu Hv Hne. rewrite (@recorded_count _ _ _ _ u v Hrec).
    pose proof (@distinct_pairs_count _ u v Hdist) as Hle.
    assert (exists p, In p (filter (pjoins u v) (combinations2 (odd_degree_nodes g))))
      as [p Hp].
    { destruct (@combinations2_complete _ u v Hu Hv Hne) as [H|H];
        eexists; apply filter_In; (split; [exact H|]); apply pjoins_true; simpl; auto. }
    destruct (filter (pjoins u v) (combinations2 (odd_degree_nodes g))); [destruct Hp|].
    simpl in *. lia.
  - intros w Hw. destruct (@recorded_in _ _ _ _ w Hrec Hw) as ([m n] & Hin & Hr).
    destruct Hr as (Hu & Hv & Hpath & Hne & Hweight). simpl in *.
    destruct (combinations2_in _ _ _ Hin) as [Hm Hn].
    pose proof (@distinct_pairs_ne _ _ Hdist Hin) as Hmn. simpl in Hmn.
    rewrite Hu, Hv. repeat split; auto.
    rewrite Hweight. now rewrite (@pairwise_length _ Hne).
Qed.

Lemma auxiliary_graph_spec_witness :
  exists pp Gp,
    odd_deg_pairs_paths two_node_paths (MultiGraph path4) (odd_degree_nodes path4) = Ok pp /\
    auxiliary_graph pp = Ok Gp /\
    (forall u v, In u (odd_degree_nodes path4) -> In v (odd_degree_nodes path4) -> u <> v ->
       length (filter (wjoins u v) Gp) = 1) /\
    (forall w, In w Gp ->
       In (we_u w) (odd_degree_nodes path4) /\ In (we_v w) (odd_degree_nodes path4) /\
       we_u w <> we_v w /\
       two_node_paths (MultiGraph path4) (we_v w) (we_u w) = Ok (path w) /\
       weight w = 1 # Pos.of_nat (S (length (pairwise (path w))))).
Proof.
  apply (@auxiliary_graph_spec two_node_paths path4).
  - apply wfb_wf; [apply NoDup_nodup_eq|]; reflexivity.
  - intros m n _. exists [m; n]. split; [reflexivity|discriminate].
Defined.

(** ** Degrees: the handshake lemma *)

Fixpoint sum_over (f : node -> nat) (V : list node) : nat :=
  match V with
  | [] => 0
  | v :: V' => f v + sum_over f V'
  end.

Lemma sum_over_ext f f' V :
  (forall v, In v V -> f v = f' v) -> sum_over f V = sum_over f' V.
Proof.
  induction V as [|v V IH]; [reflexivity|]. intros H. simpl.
  rewrite (H v (in_eq _ _)), IH; [reflexivity|]. intros u Hu. apply H. now right.
Qed.

Lemma sum_over_plus f f' V :
  sum_over (fun v => f v + f' v) V = sum_over f V + sum_over f' V.
Proof. induction V as [|v V IH]; simpl; lia. Qed.

Lemma sum_over_perm f V V' : Permutation V V' -> sum_over f V = sum_over f V'.
Proof. induction 1; simpl; lia. Qed.

Lemma sum_ind_absent x V : ~ In x V -> sum_over (ind x) V = 0.
Proof.
  induction V as [|v V IH]; [reflexivity|]. intros H. simpl.
  rewrite ind_neq, IH; [reflexivity| |]; intros E; apply H; [now right|now left].
Qed.

Lemma sum_ind_present x V : NoDup V -> In x V -> sum_over (ind x) V = 1.
Proof.
  induction 1 as [|v V Hv Hnd IH]; [easy|]. simpl. intros [->|Hx].
  - rewrite ind_refl, sum_ind_absent; auto.
  - rewrite IH by assumption. rewrite ind_neq; [reflexivity|].
    intros E. subst. contradiction.
Qed.

Lemma sum_over_zero f V : (forall v, f v = 0) -> sum_over f V = 0.
Proof.
  intros H. induction V as [|v V IH]; [reflexivity|]. simpl. now rewrite H, IH.
Qed.

Lemma sum_count_src E V :
  NoDup V -> (forall e, In e E -> In (src e) V) ->
  sum_over (count_src E) V = length E.
Proof.
  intros Hnd. induction E as [|e E IH]; intros H.
  - now apply sum_over_zero.
  - rewrite (sum_over_ext _ (fun v => ind (src e) v + count_src E v))
      by (intros; apply count_src_cons).
    rewrite sum_over_plus, IH, sum_ind_present; auto using in_eq, in_cons.
Qed.

Lemma sum_count_dst E V :
  NoDup V -> (forall e, In e E -> In (dst e) V) ->
  sum_over (count_dst E) V = length E.
Proof.
  intros Hnd. induction E as [|e E IH]; intros H.
  - now apply sum_over_zero.
  - rewrite (sum_over_ext _ (fun v => ind (dst e) v + count_dst E v))
      by (intros; apply count_dst_cons).
    rewrite sum_over_plus, IH, sum_ind_present; auto using in_eq, in_cons.
Qed.

Lemma sum_parity f V :
  exists k, sum_over f V = length (filter (fun v => f v mod 2 =? 1) V) + 2 * k.
Proof.
  induction V as [|v V [k IH]]; [now exists 0|].
  pose proof (Nat.div_mod_eq (f v) 2) as Hdm.
  pose proof (Nat.mod_upper_bound (f v) 2 ltac:(lia)) as Hlt.
  remember (f v / 2) as q eqn:Hq. remember (f v mod 2) as r eqn:Hr.
  exists (k + q). cbn [sum_over filter]. rewrite IH, <- Hr.
  destruct (r =? 1) eqn:E.
  - apply Nat.eqb_eq in E. cbn [length]. lia.
  - apply Nat.eqb_neq in E. lia.
Qed.

(** An undirected graph has an even number of vertices of odd degree. *)
Lemma handshake g : wf g -> Nat.Even (length (odd_degree_nodes g)).
Proof.
  intros [Hnd Hwf].
  assert (Hs : sum_over (degree g) (nodes g) = 2 * length (edges g)).
  { unfold degree.
    rewrite (sum_over_plus (count_src (edges g)) (count_dst (edges g))).
    rewrite sum_count_src, sum_count_dst; auto; try lia; intros e He; now apply Hwf. }
  destruct (sum_parity (degree g) (nodes g)) as [k Hk].
  unfold odd_degree_nodes.
  set (n := length (filter (fun v => degree g v mod 2 =? 1) (nodes g))) in *.
  exists (length (edges g) - k). lia.
Qed.

(** ** Adding the edges of a path *)

Definition cnt_pairs (ps : list (node * node)) (x : node) : nat :=
  length (filter (fun p => fst p =? x) ps) + length (filter (fun p => snd p =? x) ps).

Lemma cnt_pairs_cons p ps x :
  cnt_pairs (p :: ps) x = ind (fst p) x + ind (snd p) x + cnt_pairs ps x.
Proof.
  unfold cnt_pairs, ind, node in *. simpl.
  destruct (fst p =? x), (snd p =? x); simpl; lia.
Qed.

Lemma cnt_pairs_app ps qs x : cnt_pairs (ps ++ qs) x = cnt_pairs ps x + cnt_pairs qs x.
Proof. unfold cnt_pairs, node in *. rewrite !filter_app, !length_app. lia. Qed.

Lemma cnt_pairs_ends X x : cnt_pairs (map ends X) x = count_src X x + count_dst X x.
Proof.
  induction X as [|e X IH]; [reflexivity|].
  simpl map. rewrite cnt_pairs_cons, count_src_cons, count_dst_cons, IH.
  unfold ends, src, dst. lia.
Qed.

Lemma add_node_in V v : In v V -> add_node V v = V.
Proof. intros H. unfold add_node. apply mem_In in H. now rewrite H. Qed.

Lemma add_edges_from_spec ps :
  forall G,
    (forall p, In p ps -> In (fst p) (nodes G) /\ In (snd p) (nodes G)) ->
    nodes (add_edges_from G ps) = nodes G /\
    is_directed (add_edges_from G ps) = is_directed G /\
    is_multigraph (add_edges_from G ps) = is_multigraph G /\
    exists X, edges (add_edges_from G ps) = edges G ++ X /\ map ends X = ps.
Proof.
  induction ps as [|[u v] ps IH]; intros G H.
  - simpl. repeat split. exists []. now rewrite app_nil_r.
  - destruct (H (u, v) (in_eq _ _)) as [Hu Hv]. simpl in Hu, Hv.
    assert (Hn : nodes (add_edge G (u, v)) = nodes G).
    { simpl. rewrite (@add_node_in _ _ Hu). now apply add_node_in. }
    destruct (IH (add_edge G (u, v))) as (H1 & H2 & H3 & X & H4 & H5).
    { rewrite Hn. intros p Hp. apply H. now right. }
    change (add_edges_from G ((u, v) :: ps))
      with (add_edges_from (add_edge G (u, v)) ps).
    rewrite H1, H2, H3, H4. repeat split; auto.
    exists ((u, v, new_edge_key G u v) :: X). split.
    + simpl. now rewrite <- app_assoc.
    + simpl. now rewrite H5.
Qed.

Lemma pairwise_in P p : In p (pairwise P) -> In (fst p) P /\ In (snd p) P.
Proof.
  induction P as [|a P IH]; [easy|].
  destruct P as [|b P]; [easy|].
  change (pairwise (a :: b :: P)) with ((a, b) :: pairwise (b :: P)).
  intros [<-|H].
  - simpl. auto.
  - destruct (IH H). split; now right.
Qed.

(** Walking along a path changes the parity of the degree at its two ends
    only. *)
Lemma pairwise_parity P : forall a x,
  exists k, cnt_pairs (pairwise (a :: P)) x + ind a x + ind (last P a) x = 2 * k.
Proof.
  induction P as [|b P IH]; intros a x.
  - exists (ind a x). simpl. unfold cnt_pairs. simpl. lia.
  - destruct (IH b x) as [k Hk].
    change (pairwise (a :: b :: P)) with ((a, b) :: pairwise (b :: P)).
    rewrite cnt_pairs_cons, last_cons_dflt. simpl fst. simpl snd.
    exists (k + ind a x). lia.
Qed.

(** A list of vertices of [V] that runs between [m] and [n]. *)
Definition runs_between (V : list node) (m n : node) (P : list node) : Prop :=
  exists a P',
    P = a :: P' /\
    ((a = m /\ last P' a = n) \/ (a = n /\ last P' a = m)) /\
    forall x, In x P -> In x V.

Lemma duplicate_fold Gp Ms :
  forall G0,
    (forall p, In p Ms ->
       exists P, path_of Gp (fst p) (snd p) = Ok P /\
                 runs_between (nodes G0) (fst p) (snd p) P) ->
    exists Gf X,
      foldM (duplicate_path Gp) Ms G0 = Ok Gf /\
      nodes Gf = nodes G0 /\
      is_directed Gf = is_directed G0 /\
      is_multigraph Gf = is_multigraph G0 /\
      edges Gf = edges G0 ++ X /\
      forall x, exists k, cnt_pairs (map ends X) x + cnt_pairs Ms x = 2 * k.
Proof.
  induction Ms as [|[m n] Ms IH]; intros G0 H.
  - exists G0, []. simpl. rewrite app_nil_r. repeat split. intros x. now exists 0.
  - destruct (H (m, n) (in_eq _ _)) as (P & HP & a & P' & -> & Hends & Hin).
    simpl in HP, Hends, Hin.
    destruct (@add_edges_from_spec (pairwise (a :: P')) G0)
      as (H1 & H2 & H3 & X1 & H4 & H5).
    { intros p Hp. destruct (@pairwise_in _ _ Hp). split; apply Hin; assumption. }
    destruct (IH (add_edges_from G0 (pairwise (a :: P')))) as (Gf & X & Hf & F1 & F2 & F3 & F4 & F5).
    { rewrite H1. intros p Hp. apply H. now right. }
    exists Gf, (X1 ++ X). cbn [foldM]. unfold duplicate_path at 1.
    rewrite HP. cbn [bind]. rewrite Hf.
    split; [reflexivity|]. repeat split; try congruence.
    + rewrite F4, H4. now rewrite <- app_assoc.
    + intros x. destruct (F5 x) as [k Hk].
      destruct (pairwise_parity P' a x) as [k' Hk'].
      rewrite map_app, cnt_pairs_app, H5, cnt_pairs_cons. simpl fst. simpl snd.
      assert (E : ind m x + ind n x = ind a x + ind (last P' a) x).
      { destruct Hends as [[-> ->]|[-> ->]]; lia. }
      exists (k + k'). lia.
Qed.

(** ** What the matching solver owes *)

Definition endpoints (M : list (node * node)) : list node :=
  flat_map (fun p => [fst p; snd p]) M.

(** A matching of [Gp]: pairs of [Gp]-adjacent vertices, no vertex twice. *)
Definition is_matching (Gp : list wedge) (M : list (node * node)) : Prop :=
  NoDup (endpoints M) /\
  forall p, In p M -> exists w, In w Gp /\ wjoins (fst p) (snd p) w = true.

Definition weight_of (Gp : list wedge) (p : node * node) : Q :=
  match find (wjoins (fst p) (snd p)) Gp with
  | Some w => weight w
  | None => 0
  end.

Fixpoint total_weight (Gp : list wedge) (M : list (node * node)) : Q :=
  match M with
  | [] => 0
  | p :: M' => weight_of Gp p + total_weight Gp M'
  end.

Definition maximum_weight_matching (Gp : list wedge) (M : list (node * node)) : Prop :=
  is_matching Gp M /\
  forall M', is_matching Gp M' -> (total_weight Gp M' <= total_weight Gp M)%Q.

Lemma NoDup_app_disjoint {A : Type} (l l' : list A) x :
  NoDup (l ++ l') -> In x l -> In x l' -> False.
Proof.
  induction l as [|a l IH]; [easy|]. simpl. intros H [->|Hx] Hx'.
  - inversion H; subst. apply H2. apply in_or_app. now right.
  - inversion H; subst. now apply IH.
Qed.

Lemma endpoints_length M : length (endpoints M) = 2 * length M.
Proof. induction M as [|p M IH]; simpl; lia. Qed.

Lemma endpoints_app M N : endpoints (M ++ N) = endpoints M ++ endpoints N.
Proof. unfold endpoints. apply flat_map_app. Qed.

Lemma endpoints_in M p : In p M -> In (fst p) (endpoints M) /\ In (snd p) (endpoints M).
Proof.
  induction M as [|q M IH]; [easy|]. simpl. intros [->|H]; [auto|].
  destruct (IH H). auto.
Qed.

Lemma weight_of_joined Gp u v :
  (exists w, In w Gp /\ wjoins u v w = true) ->
  exists w, In w Gp /\ weight_of Gp (u, v) = weight w.
Proof.
  intros (w & Hw & Hj). unfold weight_of. simpl.
  destruct (find (wjoins u v) Gp) as [w'|] eqn:Hf.
  - apply find_some in Hf. exists w'. tauto.
  - exfalso. apply (find_none _ _ Hf) in Hw. congruence.
Qed.

(** Where every two odd vertices are joined by an edge of positive weight, a
    matching of maximum weight leaves no odd vertex out. *)
Lemma maximum_is_perfect Gp odd M :
  NoDup odd -> Nat.Even (length odd) ->
  (forall u v, In u odd -> In v odd -> u <> v ->
     exists w, In w Gp /\ wjoins u v w = true) ->
  (forall w, In w Gp -> In (we_u w) odd /\ In (we_v w) odd /\ (0 < weight w)%Q) ->
  maximum_weight_matching Gp M ->
  Permutation (endpoints M) odd.
Proof.
  intros Hnd Heven Hcomplete Hgp [[HM Hin] Hmax].
  assert (Hsub : forall x, In x (endpoints M) -> In x odd).
  { intros x Hx. apply in_flat_map in Hx. destruct Hx as (p & Hp & Hx).
    destruct (Hin p Hp) as (w & Hw & Hj). apply wjoins_true in Hj.
    destruct (Hgp w Hw) as (H1 & H2 & _).
    simpl in Hx.
    destruct Hj as [[E1 E2]|[E1 E2]], Hx as [Hx|[Hx|[]]]; congruence. }
  set (R := filter (fun x => negb (mem x (endpoints M))) odd).
  assert (HR : forall x, In x R <-> In x odd /\ ~ In x (endpoints M)).
  { intros x. unfold R. rewrite filter_In, negb_true_iff.
    split; intros [H1 H2]; (split; [exact H1|]).
    - intros Hx. apply mem_In in Hx. congruence.
    - destruct (mem x (endpoints M)) eqn:E; [|reflexivity].
      apply mem_In in E. contradiction. }
  assert (HndR : NoDup R) by now apply NoDup_filter.
  assert (Hperm : Permutation (endpoints M ++ R) odd).
  { apply NoDup_Permutation; auto.
    - apply NoDup_app; auto. intros x Hx HxR. apply HR in HxR. tauto.
    - intros x. rewrite in_app_iff, HR.
      destruct (in_dec Nat.eq_dec x (endpoints M)); intuition auto. }
  destruct R as [|u [|u' R']] eqn:ER.
  - now rewrite app_nil_r in Hperm.
  - exfalso. apply Permutation_length in Hperm.
    rewrite length_app, endpoints_length in Hperm. simpl in Hperm.
    destruct Heven as [k Hk]. lia.
  - exfalso.
    assert (Hu : In u odd /\ ~ In u (endpoints M)) by (apply HR; now left).
    assert (Hu' : In u' odd /\ ~ In u' (endpoints M)) by (apply HR; right; now left).
    assert (Hne : u <> u').
    { inversion HndR; subst. intros ->. apply H1. now left. }
    destruct (Hcomplete u u' (proj1 Hu) (proj1 Hu') Hne) as (w & Hw & Hj).
    assert (HM' : is_matching Gp ((u, u') :: M)).
    { split.
      - simpl. constructor; [|constructor; [tauto|assumption]].
        simpl. intros [E|E]; [congruence|tauto].
      - intros p [<-|Hp]; [|now apply Hin]. exists w. auto. }
    specialize (Hmax _ HM'). simpl in Hmax.
    destruct (@weight_of_joined Gp u u') as (w' & Hw' & Hwt); [eauto|].
    rewrite Hwt in Hmax. destruct (Hgp w' Hw') as (_ & _ & Hpos). lra.
Qed.

(** The pairs of a matching survive [nx.Graph(list(...))] as they are. *)
Lemma graph_of_pairs_fold L : forall acc,
  NoDup (endpoints (acc ++ L)) ->
  fold_left (fun acc p => if existsb (pjoins (fst p) (snd p)) acc then acc else acc ++ [p])
            L acc = acc ++ L.
Proof.
  induction L as [|p L IH]; intros acc H; [now rewrite app_nil_r|].
  simpl.
  assert (E : existsb (pjoins (fst p) (snd p)) acc = false).
  { destruct (existsb _ acc) eqn:Hex; [exfalso|reflexivity].
    apply existsb_exists in Hex. destruct Hex as (q & Hq & Hj).
    apply pjoins_true in Hj. rewrite endpoints_app in H.
    destruct (endpoints_in _ _ Hq) as [Hq1 _].
    apply (NoDup_app_disjoint _ _ (fst q) H Hq1).
    simpl. destruct Hj as [[-> _]|[-> _]]; auto. }
  rewrite E, IH; rewrite <- app_assoc; [reflexivity|exact H].
Qed.

Lemma graph_of_pairs_matching M : NoDup (endpoints M) -> graph_of_pairs M = M.
Proof. intros H. unfold graph_of_pairs. now rewrite graph_of_pairs_fold. Qed.

(** ** Adding edges keeps a graph connected *)

Lemma grow_mono (adj adj' : node -> node -> bool) V S S' :
  (forall u v, adj u v = true -> adj' u v = true) ->
  incl S S' -> incl (grow adj V S) (grow adj' V S').
Proof.
  intros Hadj HS x Hx. unfold grow in *. apply filter_In in Hx.
  destruct Hx as [HV Hx]. apply filter_In. split; [exact HV|].
  apply existsb_exists in Hx. destruct Hx as (u & Hu & H).
  apply existsb_exists. exists u. split; [now apply HS|].
  apply orb_true_iff in H. apply orb_true_iff. destruct H; auto.
Qed.

Lemma reach_mono (adj adj' : node -> node -> bool) V n :
  (forall u v, adj u v = true -> adj' u v = true) ->
  forall S S', incl S S' -> incl (reach adj V n S) (reach adj' V n S').
Proof.
  intros Hadj. induction n as [|n IH]; intros S S' HS; [exact HS|].
  simpl. apply IH. now apply grow_mono.
Qed.

Lemma covers_mono (adj adj' : node -> node -> bool) V s :
  (forall u v, adj u v = true -> adj' u v = true) ->
  covers adj V s = true -> covers adj' V s = true.
Proof.
  intros Hadj H. unfold covers in *. rewrite forallb_forall in *.
  intros v Hv. specialize (H v Hv). apply mem_In. apply mem_In in H.
  eapply reach_mono; eauto. apply incl_refl.
Qed.

Lemma adj_dir_incl E E' u v :
  (forall e, In e E -> exists e', In e' E' /\ src e' = src e /\ dst e' = dst e) ->
  adj_dir E u v = true -> adj_dir E' u v = true.
Proof.
  intros H Ha. unfold adj_dir in *. apply existsb_exists in Ha.
  destruct Ha as (e & He & Hj). destruct (H e He) as (e' & He' & E1 & E2).
  apply existsb_exists. exists e'. split; [exact He'|]. now rewrite E1, E2.
Qed.

Lemma adj_und_incl E E' u v :
  (forall e, In e E -> exists e', In e' E' /\ src e' = src e /\ dst e' = dst e) ->
  adj_und E u v = true -> adj_und E' u v = true.
Proof.
  intros H Ha. unfold adj_und in *. apply orb_true_iff in Ha. apply orb_true_iff.
  destruct Ha; [left|right]; eapply adj_dir_incl; eauto.
Qed.

Lemma MultiGraph_ends g : map ends (edges (MultiGraph g)) = map ends (edges g).
Proof.
  simpl. destruct (is_multigraph g); [reflexivity|].
  rewrite map_map. apply map_ext. now intros [[u v] k].
Qed.

Lemma count_src_ends E E' x : map ends E = map ends E' -> count_src E x = count_src E' x.
Proof.
  revert E'. induction E as [|e E IH]; intros [|e' E'] H; try discriminate; [reflexivity|].
  inversion H as [[H1 H2]]. rewrite !count_src_cons, (IH E' H2).
  unfold src. unfold ends in H1. now rewrite H1.
Qed.

Lemma count_dst_ends E E' x : map ends E = map ends E' -> count_dst E x = count_dst E' x.
Proof.
  revert E'. induction E as [|e E IH]; intros [|e' E'] H; try discriminate; [reflexivity|].
  inversion H as [[H1 H2]]. rewrite !count_dst_cons, (IH E' H2).
  unfold dst. unfold ends in H1. now rewrite H1.
Qed.

Lemma in_ends_incl E E' e :
  map ends E = map ends E' -> In e E ->
  exists e', In e' E' /\ src e' = src e /\ dst e' = dst e.
Proof.
  intros H He. apply (in_map ends) in He. rewrite H in He.
  apply in_map_iff in He. destruct He as (e' & E1 & He').
  exists e'. split; [exact He'|]. unfold src, dst. unfold ends in E1. now rewrite E1.
Qed.

(** A graph on the vertices of [g] that has the edges of [g] and more, with
    every degree even, is Eulerian as soon as [g] is connected. *)
Lemma eulerian_after g gf X :
  is_directed gf = false -> nodes gf = nodes g ->
  edges gf = edges (MultiGraph g) ++ X ->
  is_connected g = Ok true ->
  (forall v, In v (nodes g) -> exists k, degree g v + cnt_pairs (map ends X) v = 2 * k) ->
  is_eulerian gf = Ok true.
Proof.
  intros Hd Hn He Hc Hdeg. unfold is_eulerian. rewrite Hd.
  assert (Hall : forallb (fun v => degree gf v mod 2 =? 0) (nodes gf) = true).
  { apply forallb_forall. intros v Hv. rewrite Hn in Hv.
    destruct (Hdeg v Hv) as [k Hk]. apply Nat.eqb_eq.
    assert (E : degree gf v = 2 * k).
    { unfold degree. rewrite He, count_src_app, count_dst_app.
      rewrite (@count_src_ends _ _ v (MultiGraph_ends g)).
      rewrite (@count_dst_ends _ _ v (MultiGraph_ends g)).
      rewrite cnt_pairs_ends in Hk. unfold degree in Hk. lia. }
    rewrite E, Nat.mul_comm. apply Nat.Div0.mod_mul. }
  rewrite Hall. unfold is_connected in *. rewrite Hd.
  destruct (is_directed g); [discriminate|]. rewrite Hn.
  destruct (nodes g) as [|s V]; [discriminate|].
  inversion Hc as [Hcov]. rewrite Hcov. f_equal.
  apply covers_mono with (adj := adj_und (edges g)); [|exact Hcov].
  intros u v. apply adj_und_incl. intros e Hin.
  destruct (@in_ends_incl (edges g) (edges (MultiGraph g)) e) as (e' & He' & E1 & E2);
    [symmetry; apply MultiGraph_ends|exact Hin|].
  exists e'. rewrite He. split; [apply in_or_app; now left|auto].
Qed.

(** ** Eulerization *)

(** What the shortest-path solver owes: a list of vertices from [m] to [n]
    whose consecutive vertices are adjacent in [G]. *)
Definition is_path (G : Graph) (m n : node) (P : list node) : Prop :=
  exists P',
    P = m :: P' /\ last P' m = n /\
    forall p, In p (pairwise P) -> adj_und (edges G) (fst p) (snd p) = true.

Lemma adj_und_nodes G u v :
  (forall e, In e (edges G) -> In (src e) (nodes G) /\ In (dst e) (nodes G)) ->
  adj_und (edges G) u v = true -> In v (nodes G).
Proof.
  intros Hwf H. unfold adj_und, adj_dir in H. apply orb_true_iff in H.
  destruct H as [H|H]; apply existsb_exists in H; destruct H as (e & He & Hj);
    apply andb_true_iff in Hj; destruct Hj as [H1 H2];
    apply Nat.eqb_eq in H1, H2; subst; now apply Hwf.
Qed.

Lemma path_vertices G P' : forall m,
  (forall e, In e (edges G) -> In (src e) (nodes G) /\ In (dst e) (nodes G)) ->
  In m (nodes G) ->
  (forall p, In p (pairwise (m :: P')) -> adj_und (edges G) (fst p) (snd p) = true) ->
  forall x, In x (m :: P') -> In x (nodes G).
Proof.
  induction P' as [|b P' IH]; intros m Hwf Hm Hadj x Hx.
  - destruct Hx as [<-|[]]. exact Hm.
  - destruct Hx as [<-|Hx]; [exact Hm|].
    change (pairwise (m :: b :: P')) with ((m, b) :: pairwise (b :: P')) in Hadj.
    apply (IH b); auto.
    + apply (@adj_und_nodes G m b Hwf). apply (Hadj (m, b)). now left.
    + intros p Hp. apply Hadj. now right.
Qed.

Lemma cnt_pairs_endpoints M x : cnt_pairs M x = sum_over (ind x) (endpoints M).
Proof.
  induction M as [|p M IH]; [reflexivity|].
  rewrite cnt_pairs_cons, IH. simpl.
  rewrite (ind_sym x (fst p)), (ind_sym x (snd p)). lia.
Qed.

Lemma recorded_of sp G L ws p :
  Forall2 (recorded sp G) L ws -> In p L -> exists w, In w ws /\ recorded sp G p w.
Proof.
  induction 1 as [|q x L ws Hr _ IH]; [easy|].
  intros [<-|Hp].
  - exists x. split; [now left|assumption].
  - destruct (IH Hp) as (w & Hw & Hrw). exists w. split; [now right|assumption].
Qed.

Lemma deref_store_same h r g : r < length h -> deref (store h r g) r = Some g.
Proof.
  revert r. induction h as [|x h IH]; intros r Hr; [simpl in Hr; lia|].
  destruct r as [|r]; [reflexivity|]. simpl. apply IH. simpl in Hr. lia.
Qed.

Lemma deref_alloc_new h g : deref (h ++ [g]) (length h) = Some g.
Proof. unfold deref. rewrite nth_error_app2, Nat.sub_diag; [reflexivity|lia]. Qed.

Lemma MultiGraph_wf_edges g :
  wf g ->
  forall e, In e (edges (MultiGraph g)) ->
            In (src e) (nodes (MultiGraph g)) /\ In (dst e) (nodes (MultiGraph g)).
Proof.
  intros [_ Hwf] e He.
  destruct (@in_ends_incl (edges (MultiGraph g)) (edges g) e (MultiGraph_ends g) He)
    as (e' & He' & E1 & E2).
  rewrite <- E1, <- E2. simpl. now apply Hwf.
Qed.

Lemma odd_degree_nodes_in g v :
  In v (odd_degree_nodes g) <-> In v (nodes g) /\ degree g v mod 2 = 1.
Proof. unfold odd_degree_nodes. now rewrite filter_In, Nat.eqb_eq. Qed.

Section EulerizeCorrect.

Variable shortest_path : Graph -> node -> node -> result (list node).
Variable max_weight_matching : list wedge -> list (node * node).
Variable g : Graph.

Hypothesis g_wf : wf g.

(** The solver finds a path of the multigraph for every pair it is asked. *)
Hypothesis paths_found :
  forall m n, In (m, n) (combinations2 (odd_degree_nodes g)) ->
    exists P, shortest_path (MultiGraph g) m n = Ok P /\ is_path (MultiGraph g) m n P.

(** The matching solver answers with a matching of maximum weight on the
    auxiliary graph it is given. *)
Hypothesis matching_found :
  forall pp Gp,
    odd_deg_pairs_paths shortest_path (MultiGraph g) (odd_degree_nodes g) = Ok pp ->
    auxiliary_graph pp = Ok Gp ->
    maximum_weight_matching Gp (max_weight_matching Gp).

Lemma duplicate_paths_spec :
  exists gf X,
    duplicate_paths shortest_path max_weight_matching (MultiGraph g) (odd_degree_nodes g)
      = Ok gf /\
    nodes gf = nodes g /\ is_directed gf = false /\ is_multigraph gf = true /\
    edges gf = edges (MultiGraph g) ++ X /\
    forall v, In v (nodes g) ->
      exists k, degree g v + cnt_pairs (map ends X) v = 2 * k.
Proof.
  pose proof g_wf as [Hnd Hwf].
  set (odd := odd_degree_nodes g) in *.
  set (MG := MultiGraph g) in *.
  assert (Hodd : NoDup odd) by now apply NoDup_filter.
  pose proof (combinations2_distinct Hodd) as Hdist.
  destruct (@auxiliary_fold shortest_path MG (combinations2 odd) [] Hdist)
    as (pp & Gp & Hpp & Hfold & Hrec).
  { intros p x _ []. }
  { intros [m n] Hp. destruct (paths_found m n Hp) as (P & HP & P' & -> & _).
    exists (m :: P'). split; [exact HP|discriminate]. }
  simpl in Hfold.
  pose proof (@matching_found pp Gp Hpp Hfold) as Hmax.
  set (M := max_weight_matching Gp) in *.
  assert (Hgp : forall w, In w Gp ->
            exists m n, In (m, n) (combinations2 odd) /\ we_u w = n /\ we_v w = m /\
                        shortest_path MG m n = Ok (path w) /\
                        weight w = 1 # Pos.of_nat (length (path w))).
  { intros w Hw. destruct (@recorded_in _ _ _ _ w Hrec Hw) as ([m n] & Hin & Hr).
    destruct Hr as (Hu & Hv & Hpath & _ & Hweight). simpl in *.
    exists m, n. auto. }
  assert (Hperm : Permutation (endpoints M) odd).
  { apply maximum_is_perfect with (Gp := Gp); auto.
    - now apply handshake.
    - intros u v Hu Hv Hne.
      destruct (@combinations2_complete _ u v Hu Hv Hne) as [H|H];
        destruct (@recorded_of _ _ _ _ _ Hrec H) as (w & Hw & Hu' & Hv' & _);
        simpl in Hu', Hv'; exists w; (split; [exact Hw|]);
        apply wjoins_true; auto.
    - intros w Hw. destruct (Hgp w Hw) as (m & n & Hin & Hu & Hv & _ & Hweight).
      destruct (combinations2_in _ _ _ Hin) as [Hm Hn].
      rewrite Hu, Hv, Hweight. repeat split; auto. }
  destruct Hmax as [[HMnd HMin] _].
  destruct (@duplicate_fold Gp M MG) as (gf & X & Hf & F1 & F2 & F3 & F4 & F5).
  { intros p Hp. destruct (HMin p Hp) as (w & Hw & Hj).
    unfold path_of.
    destruct (find (wjoins (fst p) (snd p)) Gp) as [w'|] eqn:Hfind.
    2:{ apply (find_none _ _ Hfind) in Hw. congruence. }
    apply find_some in Hfind. destruct Hfind as [Hw' Hj'].
    destruct (Hgp w' Hw') as (m & n & Hin & Hu & Hv & Hpath & _).
    destruct (paths_found m n Hin) as (P & HP & P' & -> & Hlast & Hadj).
    assert (EP : path w' = m :: P') by congruence.
    exists (path w'). split; [reflexivity|].
    exists m, P'. split; [exact EP|]. split.
    - apply wjoins_true in Hj'. rewrite Hu, Hv in Hj'.
      destruct Hj' as [[E1 E2]|[E1 E2]]; [right|left]; split; congruence.
    - rewrite EP. apply path_vertices.
      + now apply MultiGraph_wf_edges.
      + destruct (combinations2_in _ _ _ Hin) as [Hm _].
        apply odd_degree_nodes_in in Hm. apply Hm.
      + exact Hadj. }
  exists gf, X. unfold duplicate_paths, odd_deg_pairs_paths.
  fold odd MG. rewrite Hpp. cbn [bind]. unfold auxiliary_graph.
  rewrite Hfold. cbn [bind].
  fold M. rewrite (@graph_of_pairs_matching M HMnd).
  split; [exact Hf|]. repeat split; auto.
  intros v Hv. destruct (F5 v) as [k0 Hk0].
  rewrite (cnt_pairs_endpoints M v), (@sum_over_perm (ind v) _ _ Hperm) in Hk0.
  pose proof (Nat.div_mod_eq (degree g v) 2) as Hdm.
  pose proof (Nat.mod_upper_bound (degree g v) 2 ltac:(lia)) as Hlt.
  remember (degree g v / 2) as q eqn:Hq. remember (degree g v mod 2) as r eqn:Hr.
  destruct (Nat.eq_dec r 1) as [Hr1|Hr1].
  - rewrite sum_ind_present in Hk0; auto.
    + exists (q + k0). lia.
    + apply odd_degree_nodes_in. split; [exact Hv|]. congruence.
  - rewrite sum_ind_absent in Hk0.
    + exists (q + k0). lia.
    + intros Hin. apply odd_degree_nodes_in in Hin. destruct Hin. congruence.
Qed.

End EulerizeCorrect.

(** C2: on an undirected, non-empty, connected graph [eulerize] succeeds; the
    multigraph it returns is Eulerian, has the vertices of [G], and has the
    edges of [G] followed by added ones only. *)
Theorem eulerize_correct
  (shortest_path : Graph -> node -> node -> result (list node))
  (max_weight_matching : list wedge -> list (node * node))
  (h : heap) (G : ref) (g : Graph) :
  deref h G = Some g -> wf g ->
  is_directed g = false -> nodes g <> [] -> is_connected g = Ok true ->
  (forall m n, In (m, n) (combinations2 (odd_degree_nodes g)) ->
     exists P, shortest_path (MultiGraph g) m n = Ok P /\ is_path (MultiGraph g) m n P) ->
  (forall pp Gp,
     odd_deg_pairs_paths shortest_path (MultiGraph g) (odd_degree_nodes g) = Ok pp ->
     auxiliary_graph pp = Ok Gp ->
     maximum_weight_matching Gp (max_weight_matching Gp)) ->
  exists H gH,
    fst (eulerize shortest_path max_weight_matching G h) = Ok H /\
    deref (snd (eulerize shortest_path max_weight_matching G h)) H = Some gH /\
    is_multigraph gH = true /\
    is_eulerian gH = Ok true /\
    nodes gH = nodes g /\
    exists X, map ends (edges gH) = map ends (edges g) ++ X.
Proof.
  intros Hd Hwf Hdir Hne Hc Hsp Hmwm.
  unfold eulerize. rewrite Hd, Hdir, Hc.
  assert (Ho : (order g =? 0) = false).
  { apply Nat.eqb_neq. unfold order. destruct (nodes g); [congruence|discriminate]. }
  rewrite Ho. unfold alloc.
  destruct (length (odd_degree_nodes g) =? 0) eqn:Hodd.
  - exists (length h), (MultiGraph g). cbn [fst snd].
    split; [reflexivity|]. split; [apply deref_alloc_new|].
    split; [reflexivity|]. split; [|split; [reflexivity|]].
    + apply eulerian_after with (g := g) (X := []); auto.
      * now rewrite app_nil_r.
      * intros v Hv. apply Nat.eqb_eq in Hodd.
        assert (Hnot : ~ In v (odd_degree_nodes g)).
        { destruct (odd_degree_nodes g); [easy|discriminate]. }
        rewrite odd_degree_nodes_in in Hnot.
        pose proof (Nat.div_mod_eq (degree g v) 2) as Hdm.
        pose proof (Nat.mod_upper_bound (degree g v) 2 ltac:(lia)) as Hlt.
        assert (Hr : degree g v mod 2 <> 1) by tauto.
        exists (degree g v / 2). change (cnt_pairs (map ends []) v) with 0.
        remember (degree g v / 2) as q. remember (degree g v mod 2) as r. lia.
    + exists []. rewrite app_nil_r. apply MultiGraph_ends.
  - destruct (@duplicate_paths_spec shortest_path max_weight_matching g Hwf Hsp Hmwm)
      as (gf & X & Hdup & F1 & F2 & F3 & F4 & F5).
    rewrite Hdup. exists (length h), gf. cbn [fst snd].
    split; [reflexivity|]. split.
    { apply deref_store_same. rewrite length_app. simpl. lia. }
    split; [exact F3|]. split; [|split; [exact F1|]].
    + apply eulerian_after with (g := g) (X := X); auto.
    + exists (map ends X). now rewrite F4, map_app, MultiGraph_ends.
Qed.

(** The spec's second scenario, eulerized: the path on four vertices, the
    solver answering with the path itself and the matching of its two ends. *)
Definition path4_solver : Graph -> node -> node -> result (list node) :=
  fun _ _ _ => Ok [0; 1; 2; 3].
Definition path4_matching : list wedge -> list (node * node) := fun _ => [(0, 3)].

Lemma path4_maximum :
  maximum_weight_matching [mkWedge 3 0 (1 # 4) [0; 1; 2; 3]] [(0, 3)].
Proof.
  split.
  - split.
    + simpl. repeat constructor; simpl; intuition discriminate.
    + intros p [ <- | [] ]. eexists. split; [now left|reflexivity].
  - intros M' [Hnd Hin].
    assert (Hp : forall p, In p M' -> p = (0, 3) \/ p = (3, 0)).
    { intros [a b] Hp. destruct (Hin _ Hp) as (w & [ <- | [] ] & Hj).
      apply wjoins_true in Hj. simpl in Hj.
      destruct Hj as [[ <- <- ]|[ <- <- ]]; auto. }
    destruct M' as [|p [|q M']].
    + simpl. unfold Qle. simpl. lia.
    + destruct (Hp p (in_eq _ _)) as [E|E]; subst p; unfold Qle; simpl; lia.
    + exfalso.
      destruct (Hp p (in_eq _ _)) as [E|E],
               (Hp q (in_cons _ _ _ (in_eq _ _))) as [E'|E'];
        subst p q; simpl in Hnd; inversion Hnd as [|? ? H1 H2]; subst;
        inversion H2 as [|? ? H3 H4]; subst; simpl in H1, H3; tauto.
Qed.

Lemma eulerize_correct_witness :
  exists H gH,
    fst (eulerize path4_solver path4_matching 0 [path4]) = Ok H /\
    deref (snd (eulerize path4_solver path4_matching 0 [path4])) H = Some gH /\
    is_multigraph gH = true /\
    is_eulerian gH = Ok true /\
    nodes gH = nodes path4 /\
    exists X, map ends (edges gH) = map ends (edges path4) ++ X.
Proof.
  apply (@eulerize_correct path4_solver path4_matching [path4] 0 path4).
  - reflexivity.
  - apply wfb_wf; [apply NoDup_nodup_eq|]; reflexivity.
  - reflexivity.
  - discriminate.
  - reflexivity.
  - intros m n [E|[]]. inversion E; subst.
    exists [0; 1; 2; 3]. split; [reflexivity|].
    exists [1; 2; 3]. split; [reflexivity|]. split; [reflexivity|].
    intros p [<-|[<-|[<-|[]]]]; reflexivity.
  - intros pp Gp Hpp HGp. vm_compute in Hpp. inversion Hpp; subst.
    vm_compute in HGp. inversion HGp; subst. apply path4_maximum.
Defined.

Example eulerize_path4 :
  eulerize path4_solver path4_matching 0 [path4] =
  (Ok 1,
   [path4;
    mkGraph false true [0; 1; 2; 3]
            [(0, 1, 0); (1, 2, 0); (2, 3, 0); (0, 1, 1); (1, 2, 1); (2, 3, 1)]]).
Proof. reflexivity. Qed.

(** ** The connectivity predicates decide reachability *)

Section Reach.

Variable adj : node -> node -> bool.
Variable V : list node.
Hypothesis V_nodup : NoDup V.

(** Reachability from [s] along [adj] through vertices of [V]. *)
Inductive vreach (s : node) : node -> Prop :=
| vreach_refl : vreach s s
| vreach_step x y : vreach s x -> adj x y = true -> In y V -> vreach s y.

Lemma grow_in S y :
  In y (grow adj V S) <-> In y V /\ exists u, In u S /\ (u = y \/ adj u y = true).
Proof.
  unfold grow. rewrite filter_In, existsb_exists. split.
  - intros [Hy (u & Hu & H)]. split; [exact Hy|]. exists u. split; [exact Hu|].
    apply orb_true_iff in H. destruct H as [H|H]; [left; now apply Nat.eqb_eq|now right].
  - intros [Hy (u & Hu & H)]. split; [exact Hy|]. exists u. split; [exact Hu|].
    apply orb_true_iff. destruct H as [->|H]; [left; apply Nat.eqb_refl|now right].
Qed.

Lemma grow_nodup S : NoDup (grow adj V S).
Proof. unfold grow. now apply NoDup_filter. Qed.

Lemma grow_incl_V S : incl (grow adj V S) V.
Proof. intros y Hy. now apply grow_in in Hy. Qed.

Lemma grow_extensive S : incl S V -> incl S (grow adj V S).
Proof. intros HS y Hy. apply grow_in. split; [now apply HS|]. exists y. auto. Qed.

Lemma grow_incl S S' : incl S S' -> incl (grow adj V S) (grow adj V S').
Proof. apply grow_mono. auto. Qed.

Lemma reach_extensive n : forall S, incl S V -> incl S (reach adj V n S).
Proof.
  induction n as [|n IH]; intros S HS; [apply incl_refl|].
  simpl. eapply incl_tran; [apply (grow_extensive HS)|].
  apply IH. apply grow_incl_V.
Qed.

Definition closed (S : list node) : Prop := incl (grow adj V S) S.

Lemma closed_reach n : forall S, incl S V -> closed S -> closed (reach adj V n S).
Proof.
  induction n as [|n IH]; intros S HS HC; [exact HC|].
  simpl. apply IH; [apply grow_incl_V|].
  unfold closed in *. now apply grow_incl.
Qed.

(** After as many rounds as vertices are missing, nothing more is added. *)
Lemma reach_closed n : forall S,
  NoDup S -> incl S V -> length V <= length S + n -> closed (reach adj V n S).
Proof.
  induction n as [|n IH]; intros S Hnd HS Hlen.
  - simpl. intros y Hy. apply grow_incl_V in Hy.
    assert (HI : incl V S) by (apply NoDup_length_incl; [exact Hnd|lia|exact HS]).
    now apply HI.
  - simpl.
    destruct (forallb (fun y => mem y S) (grow adj V S)) eqn:Hst.
    + apply closed_reach; [apply grow_incl_V|].
      apply grow_incl. intros y Hy. rewrite forallb_forall in Hst.
      apply mem_In. now apply Hst.
    + apply IH; [apply grow_nodup|apply grow_incl_V|].
      assert (exists y, In y (grow adj V S) /\ ~ In y S) as (y & Hy & Hny).
      { destruct (forallb_forall (fun y => mem y S) (grow adj V S)) as [_ H].
        destruct (existsb (fun y => negb (mem y S)) (grow adj V S)) eqn:Hex.
        - apply existsb_exists in Hex. destruct Hex as (y & Hy & Hm).
          exists y. split; [exact Hy|]. apply negb_true_iff in Hm.
          intros Hin. apply mem_In in Hin. congruence.
        - exfalso. assert (forallb (fun y => mem y S) (grow adj V S) = true); [|congruence].
          apply H. intros y Hy.
          destruct (mem y S) eqn:Hm; [reflexivity|exfalso].
          assert (existsb (fun y => negb (mem y S)) (grow adj V S) = true); [|congruence].
          apply existsb_exists. exists y. now rewrite Hm. }
      assert (Hlt : length (y :: S) <= length (grow adj V S)).
      { apply NoDup_incl_length; [now constructor|].
        intros z [<-|Hz]; [exact Hy|]. now apply grow_extensive. }
      simpl in Hlt. lia.
Qed.

Lemma reach_complete s v :
  In s V -> vreach s v -> In v (reach adj V (length V) [s]).
Proof.
  intros Hs Hv.
  assert (HsV : incl [s] V) by (intros x [<-|[]]; exact Hs).
  assert (Hc : closed (reach adj V (length V) [s])).
  { apply reach_closed; [repeat constructor; easy|exact HsV|simpl; lia]. }
  induction Hv as [|x y _ IH Hadj Hy].
  - apply (reach_extensive _ HsV). now left.
  - apply Hc. apply grow_in. split; [exact Hy|]. exists x. auto.
Qed.

Lemma reach_vreach s n : forall S,
  (forall x, In x S -> vreach s x) ->
  forall x, In x (reach adj V n S) -> vreach s x.
Proof.
  induction n as [|n IH]; intros S HS x Hx; [now apply HS|].
  simpl in Hx. apply (IH (grow adj V S)); [|exact Hx].
  intros y Hy. apply grow_in in Hy. destruct Hy as [HyV (u & Hu & [->|H])].
  - now apply HS.
  - eapply vreach_step; eauto.
Qed.

(** [covers] decides whether every vertex can be reached from [s]. *)
Lemma covers_iff s :
  In s V -> (covers adj V s = true <-> forall v, In v V -> vreach s v).
Proof.
  intros Hs. unfold covers. rewrite forallb_forall. split.
  - intros H v Hv. specialize (H v Hv). apply mem_In in H.
    apply (@reach_vreach s (length V) [s]); [|exact H].
    intros x [<-|[]]. constructor.
  - intros H v Hv. apply mem_In. apply reach_complete; auto.
Qed.

End Reach.

(** Reachability along the edges of a list, in their direction. *)
Inductive dreach (E : list edge) (u : node) : node -> Prop :=
| dreach_refl : dreach E u u
| dreach_step v w e :
    dreach E u v -> In e E -> src e = v -> dst e = w -> dreach E u w.

(** Connectivity of the null graph is left undefined by networkx: both
    notions ask for a vertex. *)
Definition connected (g : Graph) : Prop :=
  nodes g <> [] /\
  forall u v, In u (nodes g) -> In v (nodes g) -> conn (edges g) u v.

Definition strongly_connected (g : Graph) : Prop :=
  nodes g <> [] /\
  forall u v, In u (nodes g) -> In v (nodes g) -> dreach (edges g) u v.

Lemma dreach_trans E u v w : dreach E u v -> dreach E v w -> dreach E u w.
Proof.
  intros H1 H2. induction H2 as [|x y e _ IH He Hs Hd]; [assumption|].
  eapply dreach_step; eauto.
Qed.

Lemma vreach_trans adj V s x y :
  vreach adj V s x -> vreach adj V x y -> vreach adj V s y.
Proof.
  intros H1 H2. induction H2 as [|a b _ IH Hadj Hb]; [assumption|].
  eapply vreach_step; eauto.
Qed.

Lemma adj_dir_true E u v :
  adj_dir E u v = true <-> exists e, In e E /\ src e = u /\ dst e = v.
Proof.
  unfold adj_dir. rewrite existsb_exists. split; intros (e & He & H); exists e.
  - apply andb_true_iff in H. now rewrite !Nat.eqb_eq in H.
  - split; [exact He|]. destruct H as [-> ->]. now rewrite !Nat.eqb_refl.
Qed.

Lemma vreach_dreach E V s v : vreach (adj_dir E) V s v -> dreach E s v.
Proof.
  induction 1 as [|x y _ IH Hadj _]; [constructor|].
  apply adj_dir_true in Hadj. destruct Hadj as (e & He & Hs & Hd).
  eapply dreach_step; eauto.
Qed.

Lemma vreach_back_dreach E V s v : vreach (fun u v => adj_dir E v u) V s v -> dreach E v s.
Proof.
  induction 1 as [|x y _ IH Hadj _]; [constructor|].
  apply adj_dir_true in Hadj. destruct Hadj as (e & He & Hs & Hd).
  eapply dreach_trans; [|exact IH].
  eapply dreach_step; [constructor|exact He|exact Hs|exact Hd].
Qed.

Section WellFormed.

Variable g : Graph.
Hypothesis g_wf : wf g.

Lemma dreach_vreach s v :
  dreach (edges g) s v -> vreach (adj_dir (edges g)) (nodes g) s v.
Proof.
  induction 1 as [|x y e _ IH He Hs Hd]; [constructor|].
  eapply vreach_step; [exact IH| |].
  - apply adj_dir_true. eauto.
  - subst y. now apply (proj2 g_wf).
Qed.

Lemma dreach_vreach_back s v :
  In v (nodes g) ->
  dreach (edges g) v s -> vreach (fun u v => adj_dir (edges g) v u) (nodes g) s v.
Proof.
  intros Hv. induction 1 as [|x y e Hvx IH He Hs Hd]; [constructor|].
  apply vreach_trans with (x := x); [|exact IH].
  eapply vreach_step; [constructor| |].
  - apply adj_dir_true. eauto.
  - subst x. now apply (proj2 g_wf).
Qed.

Lemma conn_vreach s v :
  conn (edges g) s v -> vreach (adj_und (edges g)) (nodes g) s v.
Proof.
  induction 1 as [|x y e _ IH He Hj]; [constructor|].
  eapply vreach_step; [exact IH| |].
  - unfold adj_und. apply orb_true_iff.
    destruct Hj as [[Hs Hd]|[Hs Hd]]; [left|right]; apply adj_dir_true; eauto.
  - destruct Hj as [[_ <-]|[<- _]]; now apply (proj2 g_wf).
Qed.

Lemma is_connected_iff :
  is_directed g = false -> (is_connected g = Ok true <-> connected g).
Proof.
  intros Hd. split.
  - intros H. apply connected_conn. now left.
  - intros [Hne Hc]. unfold is_connected. rewrite Hd.
    destruct (nodes g) as [|s V] eqn:HV; [congruence|]. f_equal.
    rewrite <- HV in *. apply covers_iff; [apply g_wf|rewrite HV; now left|].
    intros v Hv. apply conn_vreach. apply Hc; [rewrite HV; now left|exact Hv].
Qed.

Lemma is_strongly_connected_iff :
  is_directed g = true -> (is_strongly_connected g = Ok true <-> strongly_connected g).
Proof.
  intros Hd. unfold is_strongly_connected. rewrite Hd. split.
  - intros H. destruct (nodes g) as [|s V] eqn:HV; [discriminate|].
    rewrite <- HV in *. assert (Hs : In s (nodes g)) by (rewrite HV; now left).
    inversion H as [H1]. apply andb_true_iff in H1. destruct H1 as [Hf Hb].
    rewrite covers_iff in Hf, Hb by (auto; apply g_wf).
    split; [rewrite HV; discriminate|]. intros u v Hu Hv.
    apply dreach_trans with (v := s).
    + eapply vreach_back_dreach. now apply Hb.
    + eapply vreach_dreach. now apply Hf.
  - intros [Hne Hc]. destruct (nodes g) as [|s V] eqn:HV; [congruence|].
    rewrite <- HV in *. assert (Hs : In s (nodes g)) by (rewrite HV; now left).
    f_equal. apply andb_true_iff. split; apply covers_iff; auto; try apply g_wf.
    + intros v Hv. apply dreach_vreach. now apply Hc.
    + intros v Hv. apply dreach_vreach_back; [exact Hv|]. now apply Hc.
Qed.

End WellFormed.

(** C5: a directed graph is Eulerian exactly when every vertex has equal
    in-degree and out-degree and the graph is strongly connected; an
    undirected graph exactly when every vertex has even degree and the graph
    is connected. *)
Theorem is_eulerian_spec (g : Graph) :
  wf g ->
  (is_directed g = true ->
   (is_eulerian g = Ok true <->
    (forall v, In v (nodes g) -> in_degree g v = out_degree g v) /\
    strongly_connected g)) /\
  (is_directed g = false ->
   (is_eulerian g = Ok true <->
    (forall v, In v (nodes g) -> Nat.Even (degree g v)) /\
    connected g)).
Proof.
  intros Hwf. destruct (is_eulerian_unfold g) as [Hdir Hund]. split; intros Hd.
  - rewrite (Hdir Hd), (is_strongly_connected_iff Hwf Hd). reflexivity.
  - rewrite (Hund Hd), (is_connected_iff Hwf Hd). reflexivity.
Qed.

Lemma directed_cycle_wf : wf directed_cycle.
Proof. apply wfb_wf; [apply NoDup_nodup_eq|]; reflexivity. Qed.

Lemma is_eulerian_spec_witness :
  (is_eulerian directed_cycle = Ok true <->
   (forall v, In v (nodes directed_cycle) ->
              in_degree directed_cycle v = out_degree directed_cycle v) /\
   strongly_connected directed_cycle) /\
  (is_eulerian triangle = Ok true <->
   (forall v, In v (nodes triangle) -> Nat.Even (degree triangle v)) /\
   connected triangle).
Proof.
  split.
  - apply (proj1 (is_eulerian_spec directed_cycle_wf)). reflexivity.
  - apply (proj2 (is_eulerian_spec triangle_wf)). reflexivity.
Defined.

(** ** Eulerian paths of undirected graphs *)

Lemma copy_eq g : copy g = g.
Proof. now destruct g. Qed.

Lemma mod2_cases n : n mod 2 = 0 \/ n mod 2 = 1.
Proof. pose proof (Nat.mod_upper_bound n 2). lia. Qed.

Lemma odd_filter_eq g :
  filter (fun v => negb (degree g v mod 2 =? 0)) (nodes g) = odd_degree_nodes g.
Proof.
  unfold odd_degree_nodes. apply filter_ext. intros v.
  destruct (mod2_cases (degree g v)) as [E|E]; now rewrite E.
Qed.

(** A connected undirected graph with exactly two vertices of odd degree:
    [_find_path_start] names the first of them, and the trail that
    [eulerian_path] emits uses every edge once, starts at the second and ends
    at the first. *)
Lemma eulerian_path_undirected (ae : chooser) (h : heap) (G : ref) (g : Graph) keys :
  arbitrary ae -> deref h G = Some g -> wf g -> is_directed g = false ->
  has_eulerian_path g = Ok true -> is_eulerian g = Ok false ->
  exists s t,
    s <> t /\ odd_degree_nodes g = [s; t] /\
    _find_path_start ae g = Ok (Some s) /\
    let o := fst (consume (eulerian_path ae G None keys) h) in
    failure o = None /\
    uses_every_edge_once g (map item_ends (yielded o)) /\
    walk_from_to t s (map item_ends (yielded o)).
Proof.
  intros Hae Hd Hwf Hdir Hp He.
  pose proof Hp as Hp'. pose proof He as He'.
  unfold has_eulerian_path in Hp'. unfold is_eulerian in He'.
  rewrite Hdir in Hp', He'. unfold count_true in Hp'. fold (odd_degree_nodes g) in Hp'.
  destruct ((length (odd_degree_nodes g) =? 0) || (length (odd_degree_nodes g) =? 2))
    eqn:Hc; [|discriminate].
  rewrite Hp' in He'.
  destruct (forallb (fun v => degree g v mod 2 =? 0) (nodes g)) eqn:Hall; [discriminate|].
  assert (Hodd : exists s t, odd_degree_nodes g = [s; t]).
  { apply orb_true_iff in Hc. destruct Hc as [Hc|Hc]; apply Nat.eqb_eq in Hc.
    - exfalso.
      assert (forallb (fun v => degree g v mod 2 =? 0) (nodes g) = true); [|congruence].
      apply forallb_forall. intros v Hv. apply Nat.eqb_eq.
      destruct (mod2_cases (degree g v)) as [E|E]; [exact E|exfalso].
      assert (In v (odd_degree_nodes g)) by (apply odd_degree_nodes_in; auto).
      destruct (odd_degree_nodes g); [easy|discriminate].
    - destruct (odd_degree_nodes g) as [|s [|t [|]]]; try discriminate. eauto. }
  destruct Hodd as (s & t & Hst). exists s, t.
  assert (Hnd : NoDup [s; t]).
  { rewrite <- Hst. apply NoDup_filter. apply Hwf. }
  assert (Hne : s <> t).
  { inversion Hnd; subst. intros ->. apply H1. now left. }
  assert (Hfind : _find_path_start ae g = Ok (Some s)).
  { unfold _find_path_start. rewrite Hp. cbn [bind negb]. rewrite He. cbn [bind].
    now rewrite Hdir, odd_filter_eq, Hst. }
  split; [exact Hne|]. split; [exact Hst|]. split; [exact Hfind|].
  assert (Hbal : bal false (edges g) s t).
  { intros x.
    pose proof (Nat.div_mod_eq (degree g x) 2) as Hdm. unfold degree in Hdm.
    destruct (in_dec Nat.eq_dec x (nodes g)) as [Hx|Hx].
    - destruct (mod2_cases (degree g x)) as [E|E]; unfold degree in E; rewrite E in Hdm.
      + assert (Hno : ~ In x [s; t]).
        { rewrite <- Hst, odd_degree_nodes_in. unfold degree. intros [_ H]. congruence. }
        rewrite !ind_neq by (intros ->; apply Hno; simpl; auto).
        exists ((count_src (edges g) x + count_dst (edges g) x) / 2). lia.
      + assert (Hin : In x [s; t]).
        { rewrite <- Hst, odd_degree_nodes_in. unfold degree. auto. }
        destruct Hin as [<-|[<-|[]]].
        * rewrite ind_refl, ind_neq by exact Hne.
          exists ((count_src (edges g) s + count_dst (edges g) s) / 2 + 1). lia.
        * rewrite ind_refl, ind_neq by congruence.
          exists ((count_src (edges g) t + count_dst (edges g) t) / 2 + 1). lia.
    - destruct (wf_outside x Hwf Hx) as [-> ->].
      destruct (proj1 (odd_degree_nodes_in g s)) as [Hs _]; [rewrite Hst; now left|].
      destruct (proj1 (odd_degree_nodes_in g t)) as [Ht _];
        [rewrite Hst; right; now left|].
      rewrite !ind_neq by (intros E; subst; contradiction). now exists 0. }
  destruct (connected_conn g) as [_ Hconn]; [now left|].
  destruct (@build_correct ae g s t keys Hae) as (Hr & _ & _ & Hperm & Hwalk).
  { now rewrite Hdir. }
  { intros e He0. apply Hconn.
    - destruct (proj1 (odd_degree_nodes_in g s)) as [Hs _]; [rewrite Hst; now left|].
      exact Hs.
    - now apply (proj2 Hwf). }
  unfold consume, eulerian_path. rewrite Hd, Hp. unfold alloc.
  rewrite Hdir, copy_eq, Hfind. simpl. rewrite Hr. repeat split.
  - unfold uses_every_edge_once. rewrite Hperm, map_map.
    rewrite Hdir. apply Permutation_refl'. apply map_ext. apply pnorm_swap.
  - apply Hwalk.
  - apply Hwalk.
  - apply Hwalk.
Qed.

(** ** The start vertex is always found *)

Lemma bool_eq_iff (a b : bool) : (a = true <-> b = true) -> a = b.
Proof. destruct a, b; intuition congruence. Qed.

Lemma adj_dir_flip E u v : adj_dir (map flip E) u v = adj_dir E v u.
Proof.
  apply bool_eq_iff. rewrite !adj_dir_true. split.
  - intros (e & He & Hs & Hd). apply in_map_iff in He.
    destruct He as (e0 & <- & He0). exists e0. auto.
  - intros (e & He & Hs & Hd). exists (flip e). split; [now apply in_map|auto].
Qed.

Lemma covers_ext (adj adj' : node -> node -> bool) V s :
  (forall u v, adj u v = adj' u v) -> covers adj V s = covers adj' V s.
Proof.
  intros H. apply bool_eq_iff. split; apply covers_mono; intros u v; now rewrite H.
Qed.

Lemma count_true_ext p q V : (forall v, p v = q v) -> count_true p V = count_true q V.
Proof. intros H. unfold count_true. now rewrite (filter_ext _ _ H). Qed.

Lemma has_eulerian_path_reverse g :
  is_directed g = true -> has_eulerian_path (reverse g) = has_eulerian_path g.
Proof.
  intros Hd. unfold has_eulerian_path. simpl. rewrite Hd.
  unfold in_degree, out_degree. simpl.
  rewrite (count_true_ext
             (fun v => (Z.of_nat (count_dst (map flip (edges g)) v) -
                        Z.of_nat (count_src (map flip (edges g)) v) =? 1)%Z)
             (fun v => (Z.of_nat (count_src (edges g) v) -
                        Z.of_nat (count_dst (edges g) v) =? 1)%Z))
    by (intros v; now rewrite count_src_flip, count_dst_flip).
  rewrite (count_true_ext
             (fun v => (Z.of_nat (count_src (map flip (edges g)) v) -
                        Z.of_nat (count_dst (map flip (edges g)) v) =? 1)%Z)
             (fun v => (Z.of_nat (count_dst (edges g) v) -
                        Z.of_nat (count_src (edges g) v) =? 1)%Z))
    by (intros v; now rewrite count_src_flip, count_dst_flip).
  rewrite (count_true_ext
             (fun v => negb (count_dst (map flip (edges g)) v =?
                             count_src (map flip (edges g)) v))
             (fun v => negb (count_dst (edges g) v =? count_src (edges g) v)))
    by (intros v; now rewrite count_src_flip, count_dst_flip, Nat.eqb_sym).
  set (a := count_true _ _ <=? 1). set (b := count_true _ _ <=? 1).
  set (c := count_true _ _ <=? 2).
  replace (is_weakly_connected (reverse g)) with (is_weakly_connected g).
  - now destruct a, b, c.
  - unfold is_weakly_connected. simpl. rewrite Hd.
    destruct (nodes g) as [|s V]; [reflexivity|]. f_equal.
    apply covers_ext. intros u v. unfold adj_und.
    rewrite !adj_dir_flip. apply orb_comm.
Qed.

(** After the test on [has_eulerian_path], [_find_path_start] does not
    answer [None] on the working graph. *)
Lemma find_path_start_found (ae : chooser) g :
  has_eulerian_path g = Ok true -> _find_path_start ae (working g) <> Ok None.
Proof.
  intros Hp.
  assert (Hw : has_eulerian_path (working g) = Ok true).
  { unfold working. destruct (is_directed g) eqn:Hd.
    - now rewrite has_eulerian_path_reverse.
    - now rewrite copy_eq. }
  unfold _find_path_start. rewrite Hw. cbn [bind negb].
  destruct (is_eulerian (working g)) as [[|]|e]; cbn [bind]; try discriminate.
  - destruct (ae _ (nodes (working g))); discriminate.
  - destruct (is_directed (working g)).
    + destruct (filter _ _) as [|v1 [|v2 [|]]]; try discriminate.
      destruct (in_degree (working g) v1 <? out_degree (working g) v1); discriminate.
    + destruct (filter _ _); discriminate.
Qed.

(** ** The scenarios of the spec *)

Example path4_semieulerian : is_semieulerian path4 = Ok true.
Proof. reflexivity. Qed.

Example star4_predicates :
  is_eulerian star4 = Ok false /\ has_eulerian_path star4 = Ok false.
Proof. split; reflexivity. Qed.

Example two_triangles_not_eulerian : is_eulerian two_triangles = Ok false.
Proof. reflexivity. Qed.

Example path4_trail_ends_at_start :
  exists s t,
    s <> t /\ odd_degree_nodes path4 = [s; t] /\
    _find_path_start first_element path4 = Ok (Some s) /\
    let o := fst (consume (eulerian_path first_element 0 None false) [path4]) in
    failure o = None /\
    uses_every_edge_once path4 (map item_ends (yielded o)) /\
    walk_from_to t s (map item_ends (yielded o)).
Proof.
  apply (@eulerian_path_undirected first_element [path4] 0 path4 false).
  - apply first_element_arbitrary.
  - reflexivity.
  - apply wfb_wf; [apply NoDup_nodup_eq|]; reflexivity.
  - reflexivity.
  - reflexivity.
  - reflexivity.
Qed.

(** * Further properties of the module *)

(** ** How the predicates relate *)

Lemma count_true_none p V : (forall v, In v V -> p v = false) -> count_true p V = 0.
Proof. intros H. unfold count_true. now rewrite filter_none. Qed.

Lemma strongly_weakly g :
  is_strongly_connected g = Ok true -> is_weakly_connected g = Ok true.
Proof.
  unfold is_strongly_connected, is_weakly_connected.
  destruct (is_directed g); [|discriminate].
  destruct (nodes g) as [|s V]; [discriminate|].
  intros H. injection H as H1. apply andb_true_iff in H1. destruct H1 as [Hf _].
  f_equal.
  apply covers_mono with (adj := adj_dir (edges g)); [|exact Hf].
  intros u v Huv. unfold adj_und. now rewrite Huv.
Qed.

(** Every graph that [is_eulerian] accepts is accepted by
    [has_eulerian_path]. *)
Theorem eulerian_has_path (g : Graph) :
  is_eulerian g = Ok true -> has_eulerian_path g = Ok true.
Proof.
  unfold is_eulerian, has_eulerian_path. destruct (is_directed g).
  - destruct (forallb _ (nodes g)) eqn:Hall; [|discriminate].
    rewrite forallb_forall in Hall. intros Hs.
    rewrite !count_true_none.
    + simpl. now apply strongly_weakly.
    + intros v Hv. now rewrite (Hall v Hv).
    + intros v Hv. specialize (Hall v Hv). apply Nat.eqb_eq in Hall.
      apply Z.eqb_neq. lia.
    + intros v Hv. specialize (Hall v Hv). apply Nat.eqb_eq in Hall.
      apply Z.eqb_neq. lia.
  - destruct (forallb _ (nodes g)) eqn:Hall; [|discriminate].
    rewrite forallb_forall in Hall. intros Hc.
    rewrite count_true_none; [exact Hc|].
    intros v Hv. specialize (Hall v Hv). apply Nat.eqb_eq in Hall.
    now rewrite Hall.
Qed.

Lemma eulerian_has_path_witness :
  has_eulerian_path triangle = Ok true /\ has_eulerian_path directed_cycle = Ok true.
Proof.
  split.
  - apply (@eulerian_has_path triangle). reflexivity.
  - apply (@eulerian_has_path directed_cycle). reflexivity.
Defined.

Lemma forallb_pointwise {A : Type} (p q : A -> bool) l :
  (forall x, p x = q x) -> forallb p l = forallb q l.
Proof.
  intros H. induction l as [|x l IH]; [reflexivity|]. simpl. now rewrite H, IH.
Qed.

Lemma is_eulerian_reverse g :
  is_directed g = true -> is_eulerian (reverse g) = is_eulerian g.
Proof.
  intros Hd. unfold is_eulerian. simpl. rewrite Hd.
  unfold in_degree, out_degree. simpl.
  replace (forallb (fun n => count_dst (map flip (edges g)) n =?
                             count_src (map flip (edges g)) n) (nodes g))
    with (forallb (fun n => count_dst (edges g) n =? count_src (edges g) n) (nodes g)).
  2:{ apply forallb_pointwise. intros v.
      now rewrite count_src_flip, count_dst_flip, Nat.eqb_sym. }
  destruct (forallb _ (nodes g)); [|reflexivity].
  unfold is_strongly_connected. simpl. rewrite Hd.
  destruct (nodes g) as [|s V]; [reflexivity|]. f_equal.
  rewrite (covers_ext (adj_dir (map flip (edges g))) (fun u v => adj_dir (edges g) v u))
    by (intros; apply adj_dir_flip).
  rewrite (covers_ext (fun u v => adj_dir (map flip (edges g)) v u) (adj_dir (edges g)))
    by (intros; apply adj_dir_flip).
  apply andb_comm.
Qed.

(** Reversing a directed graph changes the answer of neither predicate:
    [eulerian_circuit] and [eulerian_path] test the caller's graph and then
    work on its reversal. *)
Theorem predicates_reverse (g : Graph) :
  is_directed g = true ->
  is_eulerian (reverse g) = is_eulerian g /\
  has_eulerian_path (reverse g) = has_eulerian_path g.
Proof.
  intros Hd. split; [now apply is_eulerian_reverse|now apply has_eulerian_path_reverse].
Qed.

Lemma predicates_reverse_witness :
  is_eulerian (reverse directed_path) = is_eulerian directed_path /\
  has_eulerian_path (reverse directed_path) = has_eulerian_path directed_path.
Proof. apply (@predicates_reverse directed_path). reflexivity. Defined.

Lemma all_even_no_odd g :
  forallb (fun v => degree g v mod 2 =? 0) (nodes g) = true <-> odd_degree_nodes g = [].
Proof.
  rewrite forallb_forall. split.
  - intros H. unfold odd_degree_nodes. apply filter_none. intros v Hv.
    specialize (H v Hv). apply Nat.eqb_eq in H. now rewrite H.
  - intros H v Hv. apply Nat.eqb_eq.
    destruct (mod2_cases (degree g v)) as [E|E]; [exact E|exfalso].
    assert (Hin : In v (odd_degree_nodes g)) by (apply odd_degree_nodes_in; auto).
    rewrite H in Hin. destruct Hin.
Qed.

(** An undirected graph is semi-Eulerian for [is_semieulerian] exactly when
    it is connected and has exactly two vertices of odd degree. *)
Theorem is_semieulerian_undirected (g : Graph) :
  wf g -> is_directed g = false ->
  (is_semieulerian g = Ok true <->
   connected g /\ length (odd_degree_nodes g) = 2).
Proof.
  intros Hwf Hd. rewrite <- (is_connected_iff Hwf Hd).
  unfold is_semieulerian, has_eulerian_path, is_eulerian. rewrite Hd.
  unfold count_true. fold (odd_degree_nodes g).
  pose proof (all_even_no_odd g) as Heven.
  destruct (forallb (fun v => degree g v mod 2 =? 0) (nodes g)).
  - assert (Hnil : odd_degree_nodes g = []) by now apply Heven.
    rewrite Hnil. simpl. split.
    + destruct (is_connected g) as [[|]|e]; simpl; discriminate.
    + intros [_ H]. discriminate.
  - assert (Hne : odd_degree_nodes g <> []).
    { intros E. apply Heven in E. discriminate. }
    destruct (length (odd_degree_nodes g)) as [|[|[|n]]] eqn:Hlen; simpl.
    + destruct (odd_degree_nodes g); [congruence|discriminate].
    + split; [discriminate|]. intros [_ H]. discriminate.
    + destruct (is_connected g) as [[|]|e]; simpl; split; auto; try discriminate;
        intros [H _]; discriminate.
    + split; [discriminate|]. intros [_ H]. discriminate.
Qed.

Lemma path4_wf : wf path4.
Proof. apply wfb_wf; [apply NoDup_nodup_eq|]; reflexivity. Qed.

Lemma is_semieulerian_undirected_witness :
  is_semieulerian path4 = Ok true <->
  connected path4 /\ length (odd_degree_nodes path4) = 2.
Proof.
  apply (@is_semieulerian_undirected path4).
  - apply path4_wf.
  - reflexivity.
Defined.

(** ** The builder on any graph and any source *)

Section AnyWalk.

Variable d : bool.
Variable E0 : list edge.
Variable s : node.

(** What the walk keeps without any hypothesis on the degrees. *)
Record Inv0 (A : astate) : Prop := mkInv0 {
  w_chain : rchain (out A);
  w_head :
    match out A with
    | i :: _ => exists lk, lst A = Some (item_dst i, lk)
    | [] => True
    end;
  w_none : lst A = None -> out A = [];
  w_count :
    length (out A) + length (wk A) + length (stk A) +
    match lst A with Some _ => 1 | None => 0 end = length E0 + 1;
  w_incl : incl (wk A) E0;
  w_bottom :
    match stk A with
    | [] => exists lk, lst A = Some (s, lk)
    | f :: fs => fst (last fs f) = s
    end
}.

Lemma Inv0_initial : Inv0 (mkA [(s, None)] None E0 [] s []).
Proof. constructor; simpl; auto; try lia; try apply incl_refl. Qed.

Lemma Inv0_step A B : astep d A B -> Inv0 A -> Inv0 B.
Proof.
  intros Hstep [Hchain Hhead Hnone Hcount Hincl Hbot]. destruct Hstep.
  - constructor.
    + simpl in *. destruct l as [[lv lk]|]; simpl; [|assumption].
      destruct o as [|[[u' v'] k'] o']; [exact I|].
      split; [|assumption].
      destruct Hhead as [lk' Hl]. unfold item_dst in Hl. simpl in Hl.
      inversion Hl. reflexivity.
    + simpl in *. destruct l as [[lv lk]|]; simpl.
      * eexists. reflexivity.
      * rewrite (Hnone eq_refl). exact I.
    + discriminate.
    + simpl in *. destruct l as [[lv lk]|]; simpl; [lia|].
      rewrite (Hnone eq_refl) in *. simpl in *. lia.
    + exact Hincl.
    + simpl in *. destruct rest as [|f fs].
      * simpl in Hbot. subst. eexists. reflexivity.
      * rewrite <- Hbot. symmetry. apply (f_equal fst), last_cons_dflt.
  - constructor; try assumption.
    + simpl in *. apply Permutation_length in H0. simpl in H0. lia.
    + simpl in *. intros x Hx. apply Hincl. apply Permutation_in with (l := e :: W').
      * now apply Permutation_sym.
      * now right.
    + cbn [stk] in *. rewrite last_cons_dflt. exact Hbot.
Qed.

Lemma Inv0_steps A B : asteps d A B -> Inv0 A -> Inv0 B.
Proof.
  induction 1 as [A|A B C Hab _ IH]; intros HA; [assumption|].
  apply IH. eapply Inv0_step; eauto.
Qed.

Lemma Inv0_final B :
  Inv0 B -> stk B = [] ->
  let t := rev (map fst (out B)) in
  length t + length (wk B) = length E0 /\ incl (wk B) E0 /\
  is_walk t /\ snd (last t (s, s)) = s.
Proof.
  intros [Hchain Hhead Hnone Hcount Hincl Hbot] Hs t. rewrite Hs in *.
  destruct Hbot as [lk Hl]. rewrite Hl in *. simpl in Hcount.
  subst t. rewrite length_rev, length_map. repeat split; auto.
  - rewrite Nat.add_0_r in Hcount. apply Nat.add_cancel_r in Hcount. exact Hcount.
  - now apply rchain_walk.
  - rewrite last_rev. destruct (out B) as [|i o]; [reflexivity|].
    destruct Hhead as [lk' Hl']. simpl. unfold item_dst in Hl'. congruence.
Qed.

End AnyWalk.

(** Whatever the graph and the source, the builder ends without raising:
    [arbitrary_element] is never given an empty list, [remove_edge] always
    finds its edge, and the rounds suffice.  It yields one item per edge it
    removed, chained, and the last one arrives at the source. *)
Lemma build_total ae W s keys :
  arbitrary ae ->
  let R := build ae W s keys in
  let t := map item_ends (emitted R) in
  raised R = None /\ nodes (final R) = nodes W /\
  length t + length (edges (final R)) = length (edges W) /\
  incl (edges (final R)) (edges W) /\
  is_walk t /\ snd (last t (s, s)) = s.
Proof.
  intros Hae R t. subst R t. unfold build.
  pose proof (Inv0_initial (edges W) s) as HI0.
  destruct (is_multigraph W).
  - unfold _multigraph_eulerian_circuit.
    destruct (multigraph_refines Hae (fuel := rounds W) W [(s, None)] None None [] s [])
      as (Hr & Hn & B & Hst & Hs & Hw & Ho).
    { unfold rounds. simpl. lia. }
    pose proof (Inv0_steps Hst HI0) as HI.
    destruct (Inv0_final HI Hs) as (Hlen & Hincl & Hwalk & Hlast).
    set (M := multigraph_loop ae (rounds W) W [(s, None)] None None) in *.
    assert (Ht : map item_ends (emitted (map_run
                   (fun uvk : node * node * option key =>
                      let '(u, v, k) := uvk in if keys then Triple u v k else Pair u v) M))
                 = rev (map fst (out B))).
    { simpl. rewrite map_map. rewrite Ho, app_nil_r, map_rev, rev_involutive.
      apply map_ext. intros [[u v] k]. now destruct keys. }
    rewrite Ht. simpl. rewrite <- Hw. repeat split; auto.
  - unfold _simplegraph_eulerian_circuit.
    destruct (simplegraph_refines Hae (fuel := rounds W) W [(s, None)] None None [] s [])
      as (Hr & Hn & B & Hst & Hs & Hw & Ho).
    { unfold rounds. simpl. lia. }
    pose proof (Inv0_steps Hst HI0) as HI.
    destruct (Inv0_final HI Hs) as (Hlen & Hincl & Hwalk & Hlast).
    simpl in Hr, Hn, Hw, Ho.
    set (M := simplegraph_loop ae (rounds W) W [s] None) in *.
    assert (Ht : map item_ends (emitted (map_run
                   (fun uv : node * node => let '(u, v) := uv in Pair u v) M))
                 = rev (map fst (out B))).
    { simpl. rewrite map_map. rewrite Ho, app_nil_r, rev_involutive.
      rewrite <- (map_id (emitted M)) at 2.
      apply map_ext. now intros [u v]. }
    rewrite Ht. simpl. rewrite <- Hw. repeat split; auto.
Qed.

(** From the middle of the path on four vertices the generator ends
    normally, and its first item joins two vertices that no edge joins. *)
Example path4_from_middle :
  fst (consume (eulerian_path first_element 0 (Some 1) false) [path4]) =
  mkOutcome [Pair 0 3; Pair 3 2; Pair 2 1] None /\
  existsb (joins false 0 3) (edges path4) = false.
Proof. split; reflexivity. Qed.

(** With a source given by the caller, [eulerian_circuit] on an Eulerian
    graph yields a walk that leaves the source and comes back to it, using
    every edge once; the caller's graph object is as before and the working
    copy is left with all the vertices and no edge. *)
Theorem eulerian_circuit_from_source (ae : chooser) (h : heap) (G : ref) (g : Graph)
  (s : node) keys :
  arbitrary ae -> deref h G = Some g -> wf g -> In s (nodes g) ->
  is_eulerian g = Ok true ->
  let r := consume (eulerian_circuit ae G (Some s) keys) h in
  let t := map item_ends (yielded (fst r)) in
  failure (fst r) = None /\
  uses_every_edge_once g t /\ walk_from_to s s t /\
  length t = length (edges g) /\
  deref (snd r) G = Some g /\
  exists W, deref (snd r) (length h) = Some W /\ nodes W = nodes g /\ edges W = [].
Proof.
  intros Hae Hd Hwf Hs He.
  destruct (eulerian_connected g He) as [Hne Hconn].
  destruct (@build_correct ae (working g) s s keys Hae)
    as (Hr & Hfin & Hn & Hp & Hwalk).
  { now apply eulerian_bal. }
  { now apply working_conn. }
  destruct (@build_total ae (working g) s keys Hae) as (_ & _ & Hlen & _).
  unfold consume, eulerian_circuit. rewrite Hd, He. unfold alloc.
  fold (working g). cbn [fst snd yielded failure].
  split; [exact Hr|]. split; [now apply working_trail|]. split; [exact Hwalk|].
  split; [|split].
  - rewrite Hfin in Hlen. simpl in Hlen. rewrite Nat.add_0_r in Hlen.
    rewrite Hlen, working_edges. destruct (is_directed g); [apply length_map|reflexivity].
  - apply (@preserves_fresh h (working g) (final (build ae (working g) s keys))).
    exact Hd.
  - exists (final (build ae (working g) s keys)). split; [|split].
    + apply deref_store_same. rewrite length_app. simpl. lia.
    + now rewrite Hn, working_nodes.
    + exact Hfin.
Qed.

Lemma eulerian_circuit_from_source_witness :
  let r := consume (eulerian_circuit first_element 0 (Some 1) false) [triangle] in
  let t := map item_ends (yielded (fst r)) in
  failure (fst r) = None /\
  uses_every_edge_once triangle t /\ walk_from_to 1 1 t /\
  length t = length (edges triangle) /\
  deref (snd r) 0 = Some triangle /\
  exists W, deref (snd r) 1 = Some W /\ nodes W = nodes triangle /\ edges W = [].
Proof.
  apply (@eulerian_circuit_from_source first_element [triangle] 0 triangle 1 false).
  - apply first_element_arbitrary.
  - reflexivity.
  - apply triangle_wf.
  - simpl. auto.
  - reflexivity.
Defined.

(** The triangle from vertex 1, as the docstring of [eulerian_circuit] has it. *)
Example triangle_from_1 :
  yielded (fst (consume (eulerian_circuit first_element 0 (Some 1) false) [triangle])) =
  [Pair 1 2; Pair 2 0; Pair 0 1].
Proof. reflexivity. Qed.

(** ** The keys of a multigraph's circuit *)

(** Only the bottom frame of the stack carries no key, and it is never the
    last vertex of an emitted item. *)
Definition keyed (A : astate) : Prop :=
  (forall f, In f (removelast (stk A)) -> snd f <> None) /\
  (forall l lk, lst A = Some (l, lk) -> stk A <> [] -> lk <> None) /\
  (forall i, In i (out A) -> snd i <> None).

Lemma keyed_step d A B : astep d A B -> keyed A -> keyed B.
Proof.
  intros Hstep (Hstk & Hlst & Hout). destruct Hstep; cbn [stk lst out] in *.
  - split; [|split].
    + intros f Hf. apply Hstk. destruct rest as [|f' rest]; [contradiction|].
      right. exact Hf.
    + intros l' lk' E Hne. injection E as E1 E2. subst.
      apply (Hstk (l', lk')). destruct rest as [|f' rest]; [now elim Hne|]. now left.
    + intros i Hi. destruct l as [[lv lk]|]; cbn [emit] in Hi.
      * destruct Hi as [E|Hi]; [|now apply Hout].
        subst i. cbn [snd]. apply (Hlst lv lk eq_refl). discriminate.
      * now apply Hout.
  - split; [|split].
    + intros f [E|Hf]; [subst f; discriminate|]. now apply Hstk.
    + intros l' lk' E _. apply (Hlst l' lk' E). discriminate.
    + exact Hout.
Qed.

Lemma keyed_steps d A B : asteps d A B -> keyed A -> keyed B.
Proof. induction 1; eauto using keyed_step. Qed.

Lemma keyed_initial s W a0 : keyed (mkA [(s, None)] None W [] a0 []).
Proof.
  split; [|split]; cbn [stk lst out removelast].
  - intros f [].
  - discriminate.
  - intros i [].
Qed.

Definition keyed_item (e : edge) : node * node * option key :=
  (src e, dst e, Some (ekey e)).

Lemma keyed_edges (o : list titem) :
  (forall i, In i o -> snd i <> None) ->
  exists l, o = map keyed_item l /\ flat_map unemit o = map flip l.
Proof.
  induction o as [|[[u v] [k|]] o IH]; intros H.
  - exists []. auto.
  - destruct IH as (l & E1 & E2); [intros i Hi; apply H; now right|].
    exists ((u, v, k) :: l). simpl. rewrite E1 at 1. now rewrite E2.
  - exfalso. apply (H (u, v, None)); [now left|reflexivity].
Qed.

Lemma map_norm_flip E : map (norm false) (map flip E) = map (norm false) E.
Proof. rewrite map_map. apply map_ext. intros e. apply norm_flip. Qed.

Lemma map_flip_flip E : map flip (map flip E) = E.
Proof.
  rewrite map_map. rewrite <- (map_id E) at 2. apply map_ext.
  now intros [[u v] k].
Qed.

(** On a multigraph with [keys] set, the builder on a balanced, connected
    working graph emits each edge once with its own key. *)
Lemma build_keys ae W s :
  arbitrary ae -> is_multigraph W = true ->
  bal (is_directed W) (edges W) s s ->
  (forall e, In e (edges W) -> conn (edges W) s (src e)) ->
  exists l,
    emitted (build ae W s true) =
      map (fun e => Triple (src e) (dst e) (Some (ekey e))) l /\
    Permutation (map (norm (is_directed W)) (edges W))
                (map (norm (is_directed W)) (map flip l)).
Proof.
  intros Hae Hm Hbal Hc. unfold build. rewrite Hm.
  unfold _multigraph_eulerian_circuit.
  pose proof (Inv_initial (d := is_directed W) (E0 := edges W) (s := s) (a0 := s) Hbal)
    as HI0.
  destruct (multigraph_refines Hae (fuel := rounds W) W [(s, None)] None None [] s [])
    as (Hr & Hn & B & Hst & Hs & Hw & Ho).
  { unfold rounds. simpl. lia. }
  pose proof (Inv_steps Hst HI0) as HI.
  destruct (walk_complete Hc HI Hs) as (_ & Hp & _).
  destruct (keyed_steps Hst (keyed_initial s (edges W) s)) as (_ & _ & Hk).
  destruct (keyed_edges (out B) Hk) as (l & E1 & E2).
  simpl in Ho. rewrite app_nil_r in Ho.
  exists (rev l). split.
  - cbn [map_run emitted].
    assert (E : emitted (multigraph_loop ae (rounds W) W [(s, None)] None None)
                = map keyed_item (rev l)).
    { rewrite map_rev, <- E1, Ho. now rewrite rev_involutive. }
    rewrite E, map_map. apply map_ext. now intros [[u v] k].
  - rewrite Hp, E2. apply Permutation_map. rewrite map_rev. apply Permutation_rev.
Qed.

(** Two vertices joined by two parallel edges. *)
Definition digon : Graph := mkGraph false true [0; 1] [(0, 1, 0); (0, 1, 1)].

Lemma digon_wf : wf digon.
Proof. apply wfb_wf; [apply NoDup_nodup_eq|]; reflexivity. Qed.

(** With [keys=True] on an Eulerian multigraph every item that
    [eulerian_circuit] yields is a triple whose key is the key of an edge
    between its two vertices, and the triples are the edges of the graph,
    keys included, each one once (up to the orientation of an undirected
    edge). *)
Theorem eulerian_circuit_keys (ae : chooser) (h : heap) (G : ref) (g : Graph)
  (source : option node) :
  arbitrary ae -> deref h G = Some g -> wf g ->
  is_multigraph g = true -> is_eulerian g = Ok true ->
  (forall s, source = Some s -> In s (nodes g)) ->
  exists l,
    fst (consume (eulerian_circuit ae G source true) h) =
      mkOutcome (map (fun e => Triple (src e) (dst e) (Some (ekey e))) l) None /\
    Permutation (map (norm (is_directed g)) (edges g))
                (map (norm (is_directed g)) l).
Proof.
  intros Hae Hd Hwf Hm He Hsrc.
  destruct (eulerian_connected g He) as [Hne Hconn].
  assert (Hs : exists s, In s (nodes g) /\
             match source with
             | None => ae _ (nodes (working g))
             | Some s => Ok s
             end = Ok s).
  { destruct source as [s|].
    - exists s. split; [now apply Hsrc|reflexivity].
    - destruct (@chosen_source ae (nodes (working g)) Hae) as (s & Hs & Hin).
      { now rewrite working_nodes. }
      rewrite working_nodes in Hin. eauto. }
  destruct Hs as (s & Hin & Hs).
  destruct (@build_keys ae (working g) s Hae) as (l & El & Hp).
  { now rewrite working_multigraph. }
  { now apply eulerian_bal. }
  { now apply working_conn. }
  destruct (@build_total ae (working g) s true Hae) as (Hr & _).
  exists l. split.
  - unfold consume, eulerian_circuit. rewrite Hd, He. unfold alloc.
    fold (working g). rewrite Hs. cbn [fst]. now rewrite Hr, El.
  - rewrite working_directed, working_edges in Hp.
    destruct (is_directed g).
    + apply (Permutation_map flip) in Hp.
      assert (Hid : forall E, map (norm true) E = E).
      { intros E. rewrite <- (map_id E) at 2. now apply map_ext. }
      rewrite !Hid in *. now rewrite !map_flip_flip in Hp.
    + now rewrite map_norm_flip in Hp.
Qed.

Lemma eulerian_circuit_keys_witness :
  exists l,
    fst (consume (eulerian_circuit first_element 0 None true) [digon]) =
      mkOutcome (map (fun e => Triple (src e) (dst e) (Some (ekey e))) l) None /\
    Permutation (map (norm (is_directed digon)) (edges digon))
                (map (norm (is_directed digon)) l).
Proof.
  apply (@eulerian_circuit_keys first_element [digon] 0 digon None).
  - apply first_element_arbitrary.
  - reflexivity.
  - apply digon_wf.
  - reflexivity.
  - reflexivity.
  - discriminate.
Defined.

(** The two parallel edges leave the generator with their keys. *)
Example digon_keys :
  yielded (fst (consume (eulerian_circuit first_element 0 None true) [digon])) =
  [Triple 0 1 (Some 1); Triple 1 0 (Some 0)].
Proof. reflexivity. Qed.

(** ** Eulerian paths of directed graphs *)

Lemma sum_over_filter (f f' : node -> nat) (p : node -> bool) V :
  (forall v, In v V -> p v = false -> f v = f' v) ->
  sum_over f V + sum_over f' (filter p V) = sum_over f' V + sum_over f (filter p V).
Proof.
  induction V as [|v V IH]; intros H; [reflexivity|].
  cbn [sum_over filter].
  assert (IH' := IH (fun x Hx => H x (or_intror Hx))).
  destruct (p v) eqn:Hp; cbn [sum_over].
  - lia.
  - rewrite (H v (or_introl eq_refl) Hp). lia.
Qed.

Lemma positive_degree_in g v :
  wf g -> 0 < count_src (edges g) v + count_dst (edges g) v -> In v (nodes g).
Proof.
  intros Hwf H. destruct (in_dec Nat.eq_dec v (nodes g)) as [Hv|Hv]; [exact Hv|].
  destruct (wf_outside v Hwf Hv). lia.
Qed.

(** In a directed graph that passes [has_eulerian_path] and has a vertex
    [a] with one more edge out than in, exactly one other vertex is
    unbalanced, with one more edge in than out. *)
Lemma directed_unbalanced g a :
  wf g -> is_directed g = true -> has_eulerian_path g = Ok true ->
  out_degree g a = in_degree g a + 1 ->
  exists b,
    a <> b /\ In a (nodes g) /\ In b (nodes g) /\
    in_degree g b = out_degree g b + 1 /\
    (forall x, x <> a -> x <> b -> in_degree g x = out_degree g x) /\
    (filter (fun v => negb (in_degree g v =? out_degree g v)) (nodes g) = [a; b] \/
     filter (fun v => negb (in_degree g v =? out_degree g v)) (nodes g) = [b; a]).
Proof.
  intros Hwf Hd Hp Ha.
  assert (Hin : In a (nodes g)).
  { apply positive_degree_in; [exact Hwf|]. unfold out_degree in Ha. lia. }
  unfold has_eulerian_path in Hp. rewrite Hd in Hp. cbn zeta in Hp.
  destruct (_ && _) eqn:Hc in Hp; [|discriminate].
  apply andb_true_iff in Hc. destruct Hc as [_ Hc]. apply Nat.leb_le in Hc.
  unfold count_true in Hc.
  set (p := fun v => negb (in_degree g v =? out_degree g v)) in *.
  assert (HaU : In a (filter p (nodes g))).
  { apply filter_In. split; [exact Hin|]. unfold p. apply negb_true_iff.
    apply Nat.eqb_neq. lia. }
  assert (Hnd : NoDup (filter p (nodes g))) by (apply NoDup_filter; apply Hwf).
  assert (Hsum : sum_over (out_degree g) (filter p (nodes g)) =
                 sum_over (in_degree g) (filter p (nodes g))).
  { pose proof (@sum_over_filter (in_degree g) (out_degree g) p (nodes g)) as Hs.
    assert (H1 : sum_over (out_degree g) (nodes g) = length (edges g)).
    { apply sum_count_src; [apply Hwf|]. intros e He. now apply (proj2 Hwf). }
    assert (H2 : sum_over (in_degree g) (nodes g) = length (edges g)).
    { apply sum_count_dst; [apply Hwf|]. intros e He. now apply (proj2 Hwf). }
    assert (H : forall v, In v (nodes g) -> p v = false ->
                          in_degree g v = out_degree g v).
    { intros v _ Hv. unfold p in Hv. apply negb_false_iff in Hv.
      now apply Nat.eqb_eq in Hv. }
    specialize (Hs H). rewrite H1, H2 in Hs. lia. }
  assert (Hbal : forall x, ~ In x (filter p (nodes g)) ->
                           in_degree g x = out_degree g x).
  { intros x Hx. destruct (in_dec Nat.eq_dec x (nodes g)) as [Hxn|Hxn].
    - destruct (in_degree g x =? out_degree g x) eqn:E; [now apply Nat.eqb_eq|].
      exfalso. apply Hx. apply filter_In. split; [exact Hxn|]. unfold p. now rewrite E.
    - unfold in_degree, out_degree. destruct (wf_outside x Hwf Hxn). lia. }
  destruct (filter p (nodes g)) as [|x [|y [|z U]]] eqn:HU.
  - destruct HaU.
  - destruct HaU as [E|[]]. subst x. cbn [sum_over] in Hsum. lia.
  - assert (Hxy : x <> y).
    { inversion Hnd; subst. intros E. subst. apply H1. now left. }
    assert (Hx : In x (nodes g)).
    { apply (proj1 (filter_In p x (nodes g))). rewrite HU. now left. }
    assert (Hy : In y (nodes g)).
    { apply (proj1 (filter_In p y (nodes g))). rewrite HU. right. now left. }
    cbn [sum_over] in Hsum.
    destruct HaU as [E|[E|[]]]; subst.
    + exists y. repeat split; auto; try lia.
      intros z Hz1 Hz2. apply Hbal. intros [E|[E|[]]]; congruence.
    + exists x. repeat split; auto; try lia.
      intros z Hz1 Hz2. apply Hbal. intros [E|[E|[]]]; congruence.
  - simpl in Hc. lia.
Qed.

(** A directed graph that passes [has_eulerian_path] and has a vertex [a]
    with one more edge out than in: on the reversed working graph
    [_find_path_start] names the vertex [b] with one more edge in than out,
    and the trail that [eulerian_path] emits uses every edge once, in its
    direction, from [a] to [b]. *)
Theorem eulerian_path_directed (ae : chooser) (h : heap) (G : ref) (g : Graph)
  (a : node) keys :
  arbitrary ae -> deref h G = Some g -> wf g -> is_directed g = true ->
  has_eulerian_path g = Ok true -> out_degree g a = in_degree g a + 1 ->
  exists b,
    a <> b /\ in_degree g b = out_degree g b + 1 /\
    _find_path_start ae (reverse g) = Ok (Some b) /\
    let o := fst (consume (eulerian_path ae G None keys) h) in
    failure o = None /\
    uses_every_edge_once g (map item_ends (yielded o)) /\
    walk_from_to a b (map item_ends (yielded o)).
Proof.
  intros Hae Hd Hwf Hdir Hp Ha.
  destruct (@directed_unbalanced g a Hwf Hdir Hp Ha)
    as (b & Hab & Hina & Hinb & Hb & Hoth & HU).
  exists b. split; [exact Hab|]. split; [exact Hb|].
  assert (Hne : is_eulerian g = Ok false).
  { unfold is_eulerian. rewrite Hdir.
    destruct (forallb _ (nodes g)) eqn:Hall; [|reflexivity].
    rewrite forallb_forall in Hall. specialize (Hall a Hina).
    apply Nat.eqb_eq in Hall. lia. }
  assert (Hfilter : filter (fun v => negb (in_degree (reverse g) v =?
                                           out_degree (reverse g) v)) (nodes (reverse g))
                    = filter (fun v => negb (in_degree g v =? out_degree g v)) (nodes g)).
  { apply filter_ext. intros v. unfold in_degree, out_degree. simpl.
    now rewrite count_src_flip, count_dst_flip, Nat.eqb_sym. }
  assert (Hfind : _find_path_start ae (reverse g) = Ok (Some b)).
  { unfold _find_path_start.
    rewrite (has_eulerian_path_reverse g Hdir), Hp. cbn [bind negb].
    rewrite (is_eulerian_reverse g Hdir), Hne. cbn [bind].
    replace (is_directed (reverse g)) with true by (simpl; now rewrite Hdir).
    rewrite Hfilter.
    unfold in_degree at 2, out_degree at 2. simpl edges.
    destruct HU as [HU|HU]; rewrite HU; rewrite count_src_flip, count_dst_flip.
    - replace (count_src (edges g) a <? count_dst (edges g) a) with false; [reflexivity|].
      symmetry. apply Nat.ltb_ge. unfold in_degree, out_degree in Ha. lia.
    - replace (count_src (edges g) b <? count_dst (edges g) b) with true; [reflexivity|].
      symmetry. apply Nat.ltb_lt. unfold in_degree, out_degree in Hb. lia. }
  split; [exact Hfind|].
  assert (Hw : working g = reverse g) by (unfold working; now rewrite Hdir).
  destruct (connected_conn g) as [_ Hconn].
  { right. right. unfold has_eulerian_path in Hp. rewrite Hdir in Hp. cbn zeta in Hp.
    destruct (_ && _) in Hp; [exact Hp|discriminate]. }
  destruct (@build_correct ae (working g) b a keys Hae) as (Hr & _ & _ & Hperm & Hwalk).
  { rewrite working_directed, working_edges, Hdir. intros x.
    rewrite count_src_flip, count_dst_flip.
    unfold in_degree, out_degree in *.
    destruct (Nat.eq_dec x a) as [Ea|Ea]; [subst x|].
    - rewrite ind_refl, ind_neq by exact Hab. lia.
    - destruct (Nat.eq_dec x b) as [Eb|Eb]; [subst x|].
      + rewrite ind_refl, ind_neq by exact Ea. lia.
      + rewrite !ind_neq by assumption. rewrite (Hoth x Ea Eb). lia. }
  { now apply working_conn. }
  unfold consume, eulerian_path. rewrite Hd, Hp. unfold alloc.
  fold (working g). rewrite Hw in *. rewrite Hfind. cbn [fst yielded failure].
  split; [exact Hr|]. split; [|exact Hwalk].
  apply working_trail. now rewrite Hw.
Qed.

Lemma directed_path_wf : wf directed_path.
Proof. apply wfb_wf; [apply NoDup_nodup_eq|]; reflexivity. Qed.

Lemma eulerian_path_directed_witness :
  exists b,
    0 <> b /\ in_degree directed_path b = out_degree directed_path b + 1 /\
    _find_path_start first_element (reverse directed_path) = Ok (Some b) /\
    let o := fst (consume (eulerian_path first_element 0 None false) [directed_path]) in
    failure o = None /\
    uses_every_edge_once directed_path (map item_ends (yielded o)) /\
    walk_from_to 0 b (map item_ends (yielded o)).
Proof.
  apply (@eulerian_path_directed first_element [directed_path] 0 directed_path 0 false).
  - apply first_element_arbitrary.
  - reflexivity.
  - apply directed_path_wf.
  - reflexivity.
  - reflexivity.
  - reflexivity.
Defined.

(** ** Eulerian paths: every undirected graph that passes the test *)

Lemma undirected_path_cases g :
  is_directed g = false -> has_eulerian_path g = Ok true ->
  is_eulerian g = Ok true \/ is_eulerian g = Ok false.
Proof.
  intros Hdir Hp. unfold has_eulerian_path in Hp. unfold is_eulerian.
  rewrite Hdir in *. cbn zeta in Hp.
  destruct (_ || _) in Hp; [|discriminate]. rewrite Hp.
  destruct (forallb _ _); auto.
Qed.

(** On every undirected graph that passes [has_eulerian_path], consuming
    [eulerian_path] without a source raises nothing and yields a walk that
    uses every edge once.  The walk arrives at the vertex that
    [_find_path_start] names; when the graph is not Eulerian that vertex is
    the first vertex of odd degree, and the walk leaves from the other one. *)
Theorem eulerian_path_undirected_trail (ae : chooser) (h : heap) (G : ref)
  (g : Graph) keys :
  arbitrary ae -> deref h G = Some g -> wf g -> is_directed g = false ->
  has_eulerian_path g = Ok true ->
  let o := fst (consume (eulerian_path ae G None keys) h) in
  let t := map item_ends (yielded o) in
  failure o = None /\ uses_every_edge_once g t /\
  exists s a,
    _find_path_start ae g = Ok (Some s) /\ walk_from_to a s t /\
    (is_eulerian g = Ok true -> a = s) /\
    (is_eulerian g = Ok false -> odd_degree_nodes g = [s; a]).
Proof.
  intros Hae Hd Hwf Hdir Hp.
  destruct (undirected_path_cases g Hdir Hp) as [He|He].
  - destruct (eulerian_connected g He) as [Hne Hconn].
    destruct (@chosen_source ae (nodes g) Hae Hne) as (s & Hs & Hin).
    assert (Hw : working g = g) by (unfold working; now rewrite Hdir, copy_eq).
    assert (Hfind : _find_path_start ae g = Ok (Some s)).
    { unfold _find_path_start. rewrite Hp. cbn [bind negb]. rewrite He. cbn [bind].
      now rewrite Hs. }
    destruct (@build_correct ae (working g) s s keys Hae)
      as (Hr & _ & _ & Hperm & Hwalk).
    { now apply eulerian_bal. }
    { now apply working_conn. }
    apply working_trail in Hperm. rewrite Hw in *.
    unfold consume, eulerian_path. rewrite Hd, Hp. unfold alloc.
    rewrite Hdir, copy_eq, Hfind. cbn [fst yielded failure].
    split; [exact Hr|]. split; [exact Hperm|].
    exists s, s. repeat split; try apply Hwalk; auto. congruence.
  - destruct (@eulerian_path_undirected ae h G g keys Hae Hd Hwf Hdir Hp He)
      as (s & a & Hne & Hodd & Hfind & Hfail & Huse & Hwalk).
    split; [exact Hfail|]. split; [exact Huse|].
    exists s, a. repeat split; try apply Hwalk; auto. congruence.
Qed.

Lemma eulerian_path_undirected_trail_witness :
  let o := fst (consume (eulerian_path first_element 0 None false) [path4]) in
  let t := map item_ends (yielded o) in
  failure o = None /\ uses_every_edge_once path4 t /\
  exists s a,
    _find_path_start first_element path4 = Ok (Some s) /\ walk_from_to a s t /\
    (is_eulerian path4 = Ok true -> a = s) /\
    (is_eulerian path4 = Ok false -> odd_degree_nodes path4 = [s; a]).
Proof.
  apply (@eulerian_path_undirected_trail first_element [path4] 0 path4 false).
  - apply first_element_arbitrary.
  - reflexivity.
  - apply path4_wf.
  - reflexivity.
  - reflexivity.
Defined.

(** ** What [eulerize] adds *)

Lemma add_edges_from_edges ps :
  forall G, exists X, edges (add_edges_from G ps) = edges G ++ X /\ map ends X = ps.
Proof.
  induction ps as [|[u v] ps IH]; intros G.
  - exists []. simpl. now rewrite app_nil_r.
  - destruct (IH (add_edge G (u, v))) as (X & H1 & H2).
    change (add_edges_from G ((u, v) :: ps))
      with (add_edges_from (add_edge G (u, v)) ps).
    exists ((u, v, new_edge_key G u v) :: X). split.
    + rewrite H1. simpl. now rewrite <- app_assoc.
    + simpl. now rewrite H2.
Qed.

(** Every edge that the last loop of [eulerize] adds joins two consecutive
    vertices of a path stored in the auxiliary graph. *)
Lemma duplicate_fold_source Gp Ms :
  forall G0 Gf,
    foldM (duplicate_path Gp) Ms G0 = Ok Gf ->
    exists X,
      edges Gf = edges G0 ++ X /\
      forall e, In e X -> exists w, In w Gp /\ In (ends e) (pairwise (path w)).
Proof.
  induction Ms as [|[m n] Ms IH]; intros G0 Gf H.
  - simpl in H. injection H as H. subst. exists []. rewrite app_nil_r. split; [reflexivity|].
    intros e [].
  - cbn [foldM] in H. unfold duplicate_path at 1 in H. unfold path_of in H.
    destruct (find (wjoins m n) Gp) as [w|] eqn:Hfind; [|discriminate].
    cbn [bind] in H. apply find_some in Hfind. destruct Hfind as [Hw _].
    destruct (add_edges_from_edges (pairwise (path w)) G0) as (X1 & H1 & H2).
    destruct (IH _ _ H) as (X & H3 & H4).
    exists (X1 ++ X). split.
    + rewrite H3, H1. now rewrite <- app_assoc.
    + intros e He. apply in_app_or in He. destruct He as [He|He].
      * exists w. split; [exact Hw|]. rewrite <- H2. now apply in_map.
      * now apply H4.
Qed.

Lemma adj_und_ends E E' u v :
  map ends E = map ends E' -> adj_und E u v = adj_und E' u v.
Proof.
  intros H. apply bool_eq_iff. split; apply adj_und_incl; intros e He.
  - now apply (@in_ends_incl E E' e).
  - now apply (@in_ends_incl E' E e).
Qed.

Lemma adj_und_sym E u v : adj_und E u v = adj_und E v u.
Proof. unfold adj_und. apply orb_comm. Qed.

Lemma adj_und_edge E e : In e E -> adj_und E (src e) (dst e) = true.
Proof.
  intros He. unfold adj_und. apply orb_true_iff. left.
  apply adj_dir_true. now exists e.
Qed.

Section EulerizeParallel.

Variable shortest_path : Graph -> node -> node -> result (list node).
Variable max_weight_matching : list wedge -> list (node * node).
Variable g : Graph.

Hypothesis g_wf : wf g.

Hypothesis paths_found :
  forall m n, In (m, n) (combinations2 (odd_degree_nodes g)) ->
    exists P, shortest_path (MultiGraph g) m n = Ok P /\ is_path (MultiGraph g) m n P.

Hypothesis matching_found :
  forall pp Gp,
    odd_deg_pairs_paths shortest_path (MultiGraph g) (odd_degree_nodes g) = Ok pp ->
    auxiliary_graph pp = Ok Gp ->
    maximum_weight_matching Gp (max_weight_matching Gp).

(** The edges added along the matched paths are parallel to edges of [g]. *)
Lemma duplicate_paths_parallel :
  exists gf X,
    duplicate_paths shortest_path max_weight_matching (MultiGraph g) (odd_degree_nodes g)
      = Ok gf /\
    nodes gf = nodes g /\ is_directed gf = false /\ is_multigraph gf = true /\
    edges gf = edges (MultiGraph g) ++ X /\
    (forall v, In v (nodes g) ->
       exists k, degree g v + cnt_pairs (map ends X) v = 2 * k) /\
    forall e, In e X -> adj_und (edges g) (src e) (dst e) = true.
Proof.
  destruct (@duplicate_paths_spec shortest_path max_weight_matching g g_wf
              paths_found matching_found)
    as (gf & X & Hdup & F1 & F2 & F3 & F4 & F5).
  exists gf, X. repeat split; auto.
  pose proof g_wf as [Hnd Hwf].
  assert (Hodd : NoDup (odd_degree_nodes g)) by now apply NoDup_filter.
  pose proof (combinations2_distinct Hodd) as Hdist.
  destruct (@auxiliary_fold shortest_path (MultiGraph g)
              (combinations2 (odd_degree_nodes g)) [] Hdist)
    as (pp & Gp & Hpp & Hfold & Hrec).
  { intros p x _ []. }
  { intros [m n] Hp. destruct (paths_found m n Hp) as (P & HP & P' & -> & _).
    exists (m :: P'). split; [exact HP|discriminate]. }
  simpl in Hfold.
  unfold duplicate_paths, odd_deg_pairs_paths in Hdup.
  rewrite Hpp in Hdup. cbn [bind] in Hdup. unfold auxiliary_graph in Hdup.
  rewrite Hfold in Hdup. cbn [bind] in Hdup.
  destruct (duplicate_fold_source _ _ _ Hdup) as (X' & HX' & Hsrc).
  assert (EX : X = X').
  { rewrite F4 in HX'. now apply app_inv_head in HX'. }
  subst X'. intros e He.
  destruct (Hsrc e He) as (w & Hw & Hin).
  destruct (@recorded_in _ _ _ _ w Hrec Hw) as ([m n] & Hmn & Hr).
  destruct Hr as (_ & _ & Hpath & _). simpl in Hpath.
  destruct (paths_found m n Hmn) as (P & HP & P' & EP & _ & Hadj).
  assert (E : P = path w) by congruence.
  rewrite E in Hadj. specialize (Hadj _ Hin).
  rewrite (@adj_und_ends _ _ _ _ (MultiGraph_ends g)) in Hadj.
  destruct e as [[u v] k]. exact Hadj.
Qed.

End EulerizeParallel.

Lemma adj_und_true E u v :
  adj_und E u v = true <->
  exists e, In e E /\ ((src e = u /\ dst e = v) \/ (src e = v /\ dst e = u)).
Proof.
  unfold adj_und. rewrite orb_true_iff, !adj_dir_true. split.
  - intros [(e & He & H)|(e & He & H)]; exists e; auto.
  - intros (e & He & [H|H]); [left|right]; exists e; auto.
Qed.

(** What [eulerize] returns on a connected graph, with solvers that keep
    their contracts. *)
Lemma eulerize_result
  (shortest_path : Graph -> node -> node -> result (list node))
  (max_weight_matching : list wedge -> list (node * node))
  (h : heap) (G : ref) (g : Graph) :
  deref h G = Some g -> wf g ->
  is_directed g = false -> nodes g <> [] -> is_connected g = Ok true ->
  (forall m n, In (m, n) (combinations2 (odd_degree_nodes g)) ->
     exists P, shortest_path (MultiGraph g) m n = Ok P /\ is_path (MultiGraph g) m n P) ->
  (forall pp Gp,
     odd_deg_pairs_paths shortest_path (MultiGraph g) (odd_degree_nodes g) = Ok pp ->
     auxiliary_graph pp = Ok Gp ->
     maximum_weight_matching Gp (max_weight_matching Gp)) ->
  exists gH X h',
    eulerize shortest_path max_weight_matching G h = (Ok (length h), h') /\
    deref h' (length h) = Some gH /\
    nodes gH = nodes g /\ is_directed gH = false /\ is_multigraph gH = true /\
    edges gH = edges (MultiGraph g) ++ X /\
    is_eulerian gH = Ok true /\ wf gH /\
    forall e, In e X -> adj_und (edges g) (src e) (dst e) = true.
Proof.
  intros Hd Hwf Hdir Hne Hc Hsp Hmwm.
  assert (Ho : (order g =? 0) = false).
  { apply Nat.eqb_neq. unfold order. destruct (nodes g); [congruence|discriminate]. }
  assert (Hres : exists gf X,
            (if length (odd_degree_nodes g) =? 0 then Ok (MultiGraph g)
             else duplicate_paths shortest_path max_weight_matching (MultiGraph g)
                    (odd_degree_nodes g)) = Ok gf /\
            nodes gf = nodes g /\ is_directed gf = false /\ is_multigraph gf = true /\
            edges gf = edges (MultiGraph g) ++ X /\
            (forall v, In v (nodes g) ->
               exists k, degree g v + cnt_pairs (map ends X) v = 2 * k) /\
            forall e, In e X -> adj_und (edges g) (src e) (dst e) = true).
  { destruct (length (odd_degree_nodes g) =? 0) eqn:Hodd.
    - exists (MultiGraph g), []. rewrite app_nil_r.
      repeat split; auto; try (intros e []; fail).
      intros v Hv. apply Nat.eqb_eq in Hodd.
      assert (Hnot : ~ In v (odd_degree_nodes g)).
      { destruct (odd_degree_nodes g); [easy|discriminate]. }
      rewrite odd_degree_nodes_in in Hnot.
      pose proof (Nat.div_mod_eq (degree g v) 2) as Hdm.
      destruct (mod2_cases (degree g v)) as [Hr|Hr]; [|tauto].
      exists (degree g v / 2). change (cnt_pairs (map ends []) v) with 0.
      remember (degree g v / 2) as q. lia.
    - apply (@duplicate_paths_parallel shortest_path max_weight_matching g Hwf Hsp Hmwm). }
  destruct Hres as (gf & X & Hrun & F1 & F2 & F3 & F4 & F5 & F6).
  assert (He : is_eulerian gf = Ok true).
  { apply eulerian_after with (g := g) (X := X); auto. }
  assert (Hwfg : wf gf).
  { split; [rewrite F1; apply Hwf|]. intros e He0. rewrite F1, F4 in *.
    apply in_app_or in He0. destruct He0 as [He0|He0].
    - now apply (MultiGraph_wf_edges Hwf).
    - pose proof (F6 e He0) as Hadj. split.
      + rewrite adj_und_sym in Hadj. apply (@adj_und_nodes g _ _ (proj2 Hwf) Hadj).
      + apply (@adj_und_nodes g _ _ (proj2 Hwf) Hadj). }
  unfold eulerize. rewrite Hd, Hdir, Ho, Hc. unfold alloc.
  destruct (length (odd_degree_nodes g) =? 0).
  - injection Hrun as Hrun. subst gf.
    exists (MultiGraph g), X, (h ++ [MultiGraph g]).
    split; [reflexivity|]. split; [apply deref_alloc_new|].
    repeat (split; [assumption|]). assumption.
  - rewrite Hrun.
    exists gf, X, (store (h ++ [MultiGraph g]) (length h) gf).
    split; [reflexivity|]. split.
    { apply deref_store_same. rewrite length_app. simpl. lia. }
    repeat (split; [assumption|]). assumption.
Qed.

Lemma pnorm_same p q : pnorm false p = pnorm false q -> p = q \/ p = swap q.
Proof.
  destruct p as [a b], q as [c d]. unfold pnorm, swap. simpl.
  destruct (a <=? b), (c <=? d); simpl; intros E; injection E as E1 E2; subst; auto.
Qed.

(** The multigraph that [eulerize] returns has the adjacency relation of
    [G]: every edge it adds runs beside an edge that is already there. *)
Theorem eulerize_keeps_adjacency
  (shortest_path : Graph -> node -> node -> result (list node))
  (max_weight_matching : list wedge -> list (node * node))
  (h : heap) (G : ref) (g : Graph) :
  deref h G = Some g -> wf g ->
  is_directed g = false -> nodes g <> [] -> is_connected g = Ok true ->
  (forall m n, In (m, n) (combinations2 (odd_degree_nodes g)) ->
     exists P, shortest_path (MultiGraph g) m n = Ok P /\ is_path (MultiGraph g) m n P) ->
  (forall pp Gp,
     odd_deg_pairs_paths shortest_path (MultiGraph g) (odd_degree_nodes g) = Ok pp ->
     auxiliary_graph pp = Ok Gp ->
     maximum_weight_matching Gp (max_weight_matching Gp)) ->
  exists H gH,
    fst (eulerize shortest_path max_weight_matching G h) = Ok H /\
    deref (snd (eulerize shortest_path max_weight_matching G h)) H = Some gH /\
    wf gH /\
    forall u v, adj_und (edges gH) u v = adj_und (edges g) u v.
Proof.
  intros Hd Hwf Hdir Hne Hc Hsp Hmwm.
  destruct (@eulerize_result shortest_path max_weight_matching h G g
              Hd Hwf Hdir Hne Hc Hsp Hmwm)
    as (gH & X & h' & Hrun & Hd' & F1 & F2 & F3 & F4 & He & HwfH & F6).
  rewrite Hrun. exists (length h), gH. cbn [fst snd].
  split; [reflexivity|]. split; [exact Hd'|]. split; [exact HwfH|].
  intros u v. apply bool_eq_iff. split.
  - intros Ha. apply adj_und_true in Ha. destruct Ha as (e & He0 & Hj).
    rewrite F4 in He0. apply in_app_or in He0.
    assert (Hadj : adj_und (edges g) (src e) (dst e) = true).
    { destruct He0 as [He0|He0]; [|now apply F6].
      rewrite <- (@adj_und_ends _ _ _ _ (MultiGraph_ends g)).
      now apply adj_und_edge. }
    destruct Hj as [[E1 E2]|[E1 E2]]; subst; [exact Hadj|].
    now rewrite adj_und_sym.
  - apply adj_und_incl. intros e He0.
    destruct (@in_ends_incl _ _ e (eq_sym (MultiGraph_ends g)) He0) as (e' & He' & E).
    exists e'. split; [|exact E]. rewrite F4. apply in_or_app. now left.
Qed.

(** [eulerize] followed by [eulerian_circuit]: the circuit of the returned
    multigraph is a closed walk along edges of [G] that passes every edge of
    [G], in one direction or the other. *)
Theorem eulerize_then_circuit (ae : chooser)
  (shortest_path : Graph -> node -> node -> result (list node))
  (max_weight_matching : list wedge -> list (node * node))
  (h : heap) (G : ref) (g : Graph) keys :
  arbitrary ae -> deref h G = Some g -> wf g ->
  is_directed g = false -> nodes g <> [] -> is_connected g = Ok true ->
  (forall m n, In (m, n) (combinations2 (odd_degree_nodes g)) ->
     exists P, shortest_path (MultiGraph g) m n = Ok P /\ is_path (MultiGraph g) m n P) ->
  (forall pp Gp,
     odd_deg_pairs_paths shortest_path (MultiGraph g) (odd_degree_nodes g) = Ok pp ->
     auxiliary_graph pp = Ok Gp ->
     maximum_weight_matching Gp (max_weight_matching Gp)) ->
  exists H,
    fst (eulerize shortest_path max_weight_matching G h) = Ok H /\
    let o := fst (consume (eulerian_circuit ae H None keys)
                          (snd (eulerize shortest_path max_weight_matching G h))) in
    let t := map item_ends (yielded o) in
    failure o = None /\ closed_walk t /\
    (forall p, In p t -> adj_und (edges g) (fst p) (snd p) = true) /\
    (forall e, In e (edges g) -> In (ends e) t \/ In (swap (ends e)) t).
Proof.
  intros Hae Hd Hwf Hdir Hne Hc Hsp Hmwm.
  destruct (@eulerize_result shortest_path max_weight_matching h G g
              Hd Hwf Hdir Hne Hc Hsp Hmwm)
    as (gH & X & h' & Hrun & Hd' & F1 & F2 & F3 & F4 & He & HwfH & F6).
  rewrite Hrun. exists (length h). cbn [fst snd]. split; [reflexivity|].
  destruct (@circuit_run ae h' (length h) gH keys Hae Hd' HwfH He)
    as (s & r & _ & _ & _ & Hcirc & _ & Huse & Hwalk).
  rewrite Hcirc. cbn [fst yielded failure].
  split; [reflexivity|]. split; [exact (walk_closed Hwalk)|].
  unfold uses_every_edge_once in Huse. rewrite F2 in Huse.
  split.
  - intros p Hp.
    apply (in_map (pnorm false)) in Hp.
    apply (Permutation_in _ (Permutation_sym Huse)) in Hp.
    apply in_map_iff in Hp. destruct Hp as (q & Hq & Hin).
    apply in_map_iff in Hin. destruct Hin as (e & Ee & Hin). subst q.
    assert (Hadj : adj_und (edges g) (src e) (dst e) = true).
    { rewrite F4 in Hin. apply in_app_or in Hin.
      destruct Hin as [Hin|Hin]; [|now apply F6].
      rewrite <- (@adj_und_ends _ _ _ _ (MultiGraph_ends g)).
      now apply adj_und_edge. }
    symmetry in Hq. apply pnorm_same in Hq.
    destruct e as [[u v] k]. unfold ends, swap, src, dst in *. simpl in *.
    destruct Hq as [Hq|Hq]; subst p; simpl; [exact Hadj|].
    now rewrite adj_und_sym.
  - intros e Hin.
    assert (Hin' : In (ends e) (map ends (edges gH))).
    { rewrite F4, map_app, MultiGraph_ends. apply in_or_app. left. now apply in_map. }
    apply (in_map (pnorm false)) in Hin'.
    apply (Permutation_in _ Huse) in Hin'.
    apply in_map_iff in Hin'. destruct Hin' as (p & Hp & Hpt).
    apply pnorm_same in Hp. destruct Hp as [Hp|Hp]; subst p.
    + left. exact Hpt.
    + right. exact Hpt.
Qed.

Lemma path4_paths_found :
  forall m n, In (m, n) (combinations2 (odd_degree_nodes path4)) ->
    exists P, path4_solver (MultiGraph path4) m n = Ok P /\
              is_path (MultiGraph path4) m n P.
Proof.
  intros m n [E|[]]. inversion E; subst.
  exists [0; 1; 2; 3]. split; [reflexivity|].
  exists [1; 2; 3]. split; [reflexivity|]. split; [reflexivity|].
  intros p [ <- | [ <- | [ <- | [] ] ] ]; reflexivity.
Qed.

Lemma path4_matching_found :
  forall pp Gp,
    odd_deg_pairs_paths path4_solver (MultiGraph path4) (odd_degree_nodes path4) = Ok pp ->
    auxiliary_graph pp = Ok Gp ->
    maximum_weight_matching Gp (path4_matching Gp).
Proof.
  intros pp Gp Hpp HGp. vm_compute in Hpp. inversion Hpp; subst.
  vm_compute in HGp. inversion HGp; subst. apply path4_maximum.
Qed.

Lemma eulerize_keeps_adjacency_witness :
  exists H gH,
    fst (eulerize path4_solver path4_matching 0 [path4]) = Ok H /\
    deref (snd (eulerize path4_solver path4_matching 0 [path4])) H = Some gH /\
    wf gH /\
    forall u v, adj_und (edges gH) u v = adj_und (edges path4) u v.
Proof.
  apply (@eulerize_keeps_adjacency path4_solver path4_matching [path4] 0 path4).
  - reflexivity.
  - apply path4_wf.
  - reflexivity.
  - discriminate.
  - reflexivity.
  - apply path4_paths_found.
  - apply path4_matching_found.
Defined.

Lemma eulerize_then_circuit_witness :
  exists H,
    fst (eulerize path4_solver path4_matching 0 [path4]) = Ok H /\
    let o := fst (consume (eulerian_circuit first_element H None false)
                          (snd (eulerize path4_solver path4_matching 0 [path4]))) in
    let t := map item_ends (yielded o) in
    failure o = None /\ closed_walk t /\
    (forall p, In p t -> adj_und (edges path4) (fst p) (snd p) = true) /\
    (forall e, In e (edges path4) -> In (ends e) t \/ In (swap (ends e)) t).
Proof.
  apply (@eulerize_then_circuit first_element path4_solver path4_matching
           [path4] 0 path4 false).
  - apply first_element_arbitrary.
  - reflexivity.
  - apply path4_wf.
  - reflexivity.
  - discriminate.
  - reflexivity.
  - apply path4_paths_found.
  - apply path4_matching_found.
Defined.

(** The path on four vertices, eulerized and toured. *)
Example path4_tour :
  yielded (fst (consume (eulerian_circuit first_element 1 None false)
                        (snd (eulerize path4_solver path4_matching 0 [path4])))) =
  [Pair 0 1; Pair 1 2; Pair 2 3; Pair 3 2; Pair 2 1; Pair 1 0].
Proof. reflexivity. Qed.

(** On an undirected graph that is already Eulerian, [eulerize] asks neither
    solver: whatever they are, it returns a new multigraph with the vertices
    and edges of [G], which is Eulerian as well. *)
Theorem eulerize_eulerian
  (shortest_path : Graph -> node -> node -> result (list node))
  (max_weight_matching : list wedge -> list (node * node))
  (h : heap) (G : ref) (g : Graph) :
  deref h G = Some g -> is_directed g = false -> is_eulerian g = Ok true ->
  eulerize shortest_path max_weight_matching G h = (Ok (length h), h ++ [MultiGraph g]) /\
  is_eulerian (MultiGraph g) = Ok true.
Proof.
  intros Hd Hdir He.
  pose proof He as He'. unfold is_eulerian in He'. rewrite Hdir in He'.
  destruct (forallb _ (nodes g)) eqn:Hall in He'; [|discriminate].
  pose proof (proj1 (all_even_no_odd g) Hall) as Hodd.
  destruct (eulerian_connected g He) as [Hne _].
  assert (Ho : (order g =? 0) = false).
  { apply Nat.eqb_neq. unfold order. destruct (nodes g); [congruence|discriminate]. }
  split.
  - unfold eulerize. rewrite Hd, Hdir, Ho, He'. unfold alloc. now rewrite Hodd.
  - apply eulerian_after with (g := g) (X := []); auto.
    + now rewrite app_nil_r.
    + intros v Hv. rewrite forallb_forall in Hall. specialize (Hall v Hv).
      apply Nat.eqb_eq in Hall.
      pose proof (Nat.div_mod_eq (degree g v) 2) as Hdm.
      exists (degree g v / 2). change (cnt_pairs (map ends []) v) with 0.
      remember (degree g v / 2) as q. lia.
Qed.

Lemma eulerize_eulerian_witness :
  eulerize path4_solver path4_matching 0 [triangle] =
    (Ok (length [triangle]), [triangle] ++ [MultiGraph triangle]) /\
  is_eulerian (MultiGraph triangle) = Ok true.
Proof.
  apply (@eulerize_eulerian path4_solver path4_matching [triangle] 0 triangle).
  - reflexivity.
  - reflexivity.
  - reflexivity.
Defined.

(** ** Balanced and weakly connected is strongly connected *)

Lemma dreach_edge E e : In e E -> dreach E (src e) (dst e).
Proof. intros He. eapply dreach_step; [constructor|exact He|reflexivity|reflexivity]. Qed.

(** Along a walk made of edges, every edge is reached from the start of the
    walk, and the end of the walk is reached from every edge. *)
Lemma walk_reach E t d :
  is_walk t ->
  (forall p, In p t -> exists e, In e E /\ src e = fst p /\ dst e = snd p) ->
  forall p, In p t ->
    dreach E (fst (hd d t)) (fst p) /\ dreach E (snd p) (snd (last t d)).
Proof.
  induction t as [|q t IH]; intros Hw He p Hp; [destruct Hp|].
  destruct t as [|q' t].
  - destruct Hp as [<-|[]]. split; constructor.
  - destruct Hw as [Hq Hw].
    assert (He' : forall p, In p (q' :: t) ->
                    exists e, In e E /\ src e = fst p /\ dst e = snd p).
    { intros p' Hp'. apply He. now right. }
    specialize (IH Hw He').
    assert (Hstep : forall p', In p' (q :: q' :: t) -> dreach E (fst p') (snd p')).
    { intros p' Hp'. destruct (He p' Hp') as (e & Hin & <- & <-). now apply dreach_edge. }
    change (last (q :: q' :: t) d) with (last (q' :: t) d).
    change (hd d (q :: q' :: t)) with q.
    destruct Hp as [<-|Hp].
    + split; [constructor|]. rewrite Hq.
      destruct (IH q' (in_eq _ _)) as [_ H2].
      apply dreach_trans with (v := snd q'); [|exact H2].
      apply Hstep. right. now left.
    + destruct (IH p Hp) as [H1 H2]. split; [|exact H2].
      apply dreach_trans with (v := fst q'); [|exact H1].
      rewrite <- Hq. apply Hstep. now left.
Qed.

Lemma conn_incident E s v :
  conn E s v -> v = s \/ exists e, In e E /\ (src e = v \/ dst e = v).
Proof.
  induction 1 as [|x y e _ _ He Hj]; [now left|].
  right. exists e. split; [exact He|]. destruct Hj as [[_ H]|[H _]]; auto.
Qed.

Lemma balanced_strongly_connected g :
  wf g -> is_directed g = true ->
  (forall v, In v (nodes g) -> in_degree g v = out_degree g v) ->
  is_weakly_connected g = Ok true ->
  is_strongly_connected g = Ok true.
Proof.
  intros Hwf Hdir Hbal Hweak.
  destruct (connected_conn g) as [Hne Hconn]; [now right; right|].
  apply (is_strongly_connected_iff Hwf Hdir).
  split; [exact Hne|].
  destruct (nodes g) as [|s V] eqn:HV; [congruence|]. rewrite <- HV in *.
  assert (Hs : In s (nodes g)) by (rewrite HV; now left).
  destruct (@build_correct first_element (working g) s s false first_element_arbitrary)
    as (_ & _ & _ & Hperm & Hwalk).
  { rewrite working_directed, working_edges, Hdir. intros x.
    rewrite count_src_flip, count_dst_flip.
    destruct (in_dec Nat.eq_dec x (nodes g)) as [Hx|Hx].
    - specialize (Hbal x Hx). unfold in_degree, out_degree in Hbal. lia.
    - destruct (wf_outside x Hwf Hx). lia. }
  { now apply working_conn. }
  apply working_trail in Hperm. unfold uses_every_edge_once in Hperm.
  rewrite Hdir, !map_pnorm_true in Hperm.
  set (t := map item_ends (emitted (build first_element (working g) s false))) in *.
  clearbody t.
  destruct Hwalk as (Hw & Hhd & Hlast).
  assert (Hedges : forall p, In p t -> exists e, In e (edges g) /\ src e = fst p /\ dst e = snd p).
  { intros p Hp. apply (Permutation_in _ (Permutation_sym Hperm)) in Hp.
    apply in_map_iff in Hp. destruct Hp as (e & <- & He).
    exists e. destruct e as [[a b] k]. auto. }
  assert (Hboth : forall v, In v (nodes g) ->
                    dreach (edges g) s v /\ dreach (edges g) v s).
  { intros v Hv. destruct (conn_incident (Hconn s v Hs Hv)) as [->|(e & He & Hj)].
    - split; constructor.
    - assert (Hin : In (ends e) t).
      { apply (Permutation_in _ Hperm). now apply in_map. }
      destruct (@walk_reach (edges g) t (s, s) Hw Hedges (ends e) Hin) as [H1 H2].
      rewrite Hhd in H1. rewrite Hlast in H2.
      assert (E1 : fst (ends e) = src e) by now destruct e as [[a b] k].
      assert (E2 : snd (ends e) = dst e) by now destruct e as [[a b] k].
      rewrite E1 in H1. rewrite E2 in H2.
      pose proof (@dreach_edge _ e He) as Hstep.
      destruct Hj as [<-|<-].
      + split; [exact H1|]. now apply dreach_trans with (v := dst e).
      + split; [|exact H2]. now apply dreach_trans with (v := src e). }
  intros u v Hu Hv. apply dreach_trans with (v := s).
  - apply (Hboth u Hu).
  - apply (Hboth v Hv).
Qed.

Lemma has_path_connected g :
  has_eulerian_path g = Ok true ->
  if is_directed g then is_weakly_connected g = Ok true else is_connected g = Ok true.
Proof.
  unfold has_eulerian_path. destruct (is_directed g); cbn zeta.
  - destruct (_ && _); [auto|discriminate].
  - destruct (_ || _); [auto|discriminate].
Qed.

(** [is_eulerian] accepts exactly the graphs that [has_eulerian_path]
    accepts and whose vertices are all balanced (directed) or of even degree
    (undirected): the weak connectivity that [has_eulerian_path] tests is
    enough for the strong one that [is_eulerian] tests. *)
Theorem is_eulerian_path_balanced (g : Graph) :
  wf g ->
  (is_eulerian g = Ok true <->
   has_eulerian_path g = Ok true /\
   forall v, In v (nodes g) ->
     if is_directed g then in_degree g v = out_degree g v
     else degree g v mod 2 = 0).
Proof.
  intros Hwf. split.
  - intros He. split; [now apply eulerian_has_path|].
    unfold is_eulerian in He. intros v Hv.
    destruct (is_directed g);
      destruct (forallb _ (nodes g)) eqn:Hall in He; try discriminate;
      rewrite forallb_forall in Hall; specialize (Hall v Hv);
      now apply Nat.eqb_eq in Hall.
  - intros [Hp Hbal]. pose proof (has_path_connected g Hp) as Hc.
    unfold is_eulerian. destruct (is_directed g) eqn:Hdir.
    + replace (forallb (fun n => in_degree g n =? out_degree g n) (nodes g)) with true.
      * now apply balanced_strongly_connected.
      * symmetry. apply forallb_forall. intros v Hv. apply Nat.eqb_eq. now apply Hbal.
    + replace (forallb (fun v => degree g v mod 2 =? 0) (nodes g)) with true.
      * exact Hc.
      * symmetry. apply forallb_forall. intros v Hv. apply Nat.eqb_eq. now apply Hbal.
Qed.

Lemma is_eulerian_path_balanced_witness :
  is_eulerian directed_cycle = Ok true <->
  has_eulerian_path directed_cycle = Ok true /\
  forall v, In v (nodes directed_cycle) ->
    if is_directed directed_cycle
    then in_degree directed_cycle v = out_degree directed_cycle v
    else degree directed_cycle v mod 2 = 0.
Proof.
  apply (@is_eulerian_path_balanced directed_cycle). apply directed_cycle_wf.
Defined.

(** ** The start vertex of a path *)

Lemma unbalanced_sum g :
  wf g ->
  sum_over (out_degree g)
     (filter (fun v => negb (in_degree g v =? out_degree g v)) (nodes g)) =
  sum_over (in_degree g)
     (filter (fun v => negb (in_degree g v =? out_degree g v)) (nodes g)).
Proof.
  intros Hwf.
  set (p := fun v => negb (in_degree g v =? out_degree g v)).
  pose proof (@sum_over_filter (in_degree g) (out_degree g) p (nodes g)) as Hs.
  assert (H1 : sum_over (out_degree g) (nodes g) = length (edges g)).
  { apply sum_count_src; [apply Hwf|]. intros e He. now apply (proj2 Hwf). }
  assert (H2 : sum_over (in_degree g) (nodes g) = length (edges g)).
  { apply sum_count_dst; [apply Hwf|]. intros e He. now apply (proj2 Hwf). }
  assert (H : forall v, In v (nodes g) -> p v = false ->
                        in_degree g v = out_degree g v).
  { intros v _ Hv. unfold p in Hv. apply negb_false_iff in Hv.
    now apply Nat.eqb_eq in Hv. }
  specialize (Hs H). rewrite H1, H2 in Hs. lia.
Qed.

(** After the test, the start vertex is found: the list of unbalanced
    vertices has two elements, the list of odd vertices has a first one. *)
Lemma find_path_start_accepts (ae : chooser) (g : Graph) :
  arbitrary ae -> wf g -> has_eulerian_path g = Ok true ->
  exists v, _find_path_start ae g = Ok (Some v) /\ In v (nodes g).
Proof.
  intros Hae Hwf Hp.
  assert (Hchoose : is_eulerian g = Ok true ->
            exists v, _find_path_start ae g = Ok (Some v) /\ In v (nodes g)).
  { intros He. destruct (eulerian_connected g He) as [Hne _].
    destruct (@chosen_source ae (nodes g) Hae Hne) as (s & Hs & Hin).
    exists s. split; [|exact Hin].
    unfold _find_path_start. rewrite Hp. cbn [bind negb]. rewrite He. cbn [bind].
    now rewrite Hs. }
  destruct (is_directed g) eqn:Hdir.
  - destruct (forallb (fun n => in_degree g n =? out_degree g n) (nodes g)) eqn:Hall.
    + apply Hchoose. unfold is_eulerian. rewrite Hdir, Hall.
      apply balanced_strongly_connected; auto.
      * rewrite forallb_forall in Hall. intros v Hv. apply Nat.eqb_eq. now apply Hall.
      * pose proof (has_path_connected g Hp) as Hc. now rewrite Hdir in Hc.
    + assert (He : is_eulerian g = Ok false).
      { unfold is_eulerian. now rewrite Hdir, Hall. }
      pose proof (unbalanced_sum Hwf) as Hsum.
      pose proof Hp as Hp'. unfold has_eulerian_path in Hp'. rewrite Hdir in Hp'.
      cbn zeta in Hp'.
      destruct (_ && _) eqn:Hc in Hp'; [|discriminate].
      apply andb_true_iff in Hc. destruct Hc as [_ Hc]. apply Nat.leb_le in Hc.
      unfold count_true in Hc.
      unfold _find_path_start. rewrite Hp. cbn [bind negb]. rewrite He. cbn [bind].
      rewrite Hdir.
      set (p := fun v => negb (in_degree g v =? out_degree g v)) in *.
      assert (HU : forall x, In x (filter p (nodes g)) ->
                     In x (nodes g) /\ in_degree g x <> out_degree g x).
      { intros x Hx. apply filter_In in Hx. destruct Hx as [Hx Hpx]. split; [exact Hx|].
        unfold p in Hpx. apply negb_true_iff in Hpx. now apply Nat.eqb_neq in Hpx. }
      destruct (filter p (nodes g)) as [|x [|y [|z U]]] eqn:EU.
      * exfalso.
        assert (forallb (fun n => in_degree g n =? out_degree g n) (nodes g) = true);
          [|congruence].
        apply forallb_forall. intros v Hv.
        destruct (in_degree g v =? out_degree g v) eqn:E; [reflexivity|exfalso].
        assert (Hin : In v (filter p (nodes g))).
        { apply filter_In. split; [exact Hv|]. unfold p. now rewrite E. }
        rewrite EU in Hin. destruct Hin.
      * exfalso. destruct (HU x (in_eq _ _)) as [_ Hx].
        cbn [sum_over] in Hsum. lia.
      * destruct (HU x (in_eq _ _)) as [Hx _].
        destruct (HU y (in_cons _ _ _ (in_eq _ _))) as [Hy _].
        destruct (in_degree g x <? out_degree g x); eauto.
      * simpl in Hc. lia.
  - destruct (undirected_path_cases g Hdir Hp) as [He|He]; [now apply Hchoose|].
    assert (Hd : deref [g] 0 = Some g) by reflexivity.
    destruct (@eulerian_path_undirected ae [g] 0 g false Hae Hd Hwf Hdir Hp He)
      as (s & t & _ & Hodd & Hfind & _).
    exists s. split; [exact Hfind|].
    apply (proj1 (odd_degree_nodes_in g s)). rewrite Hodd. now left.
Qed.

(** [_find_path_start] follows [has_eulerian_path]: it raises only what the
    test raises, answers [None] exactly when the test fails, and otherwise
    names a vertex of the graph.  Neither the unpacking [v1, v2 = ...] of the
    directed case nor the index [0] of the undirected case can fail. *)
Theorem find_path_start_total (ae : chooser) (g : Graph) :
  arbitrary ae -> wf g ->
  match has_eulerian_path g with
  | Ok true => exists v, _find_path_start ae g = Ok (Some v) /\ In v (nodes g)
  | Ok false => _find_path_start ae g = Ok None
  | Raise e => _find_path_start ae g = Raise e
  end.
Proof.
  intros Hae Hwf.
  destruct (has_eulerian_path g) as [[|]|e] eqn:Hp.
  - now apply find_path_start_accepts.
  - unfold _find_path_start. rewrite Hp. reflexivity.
  - unfold _find_path_start. rewrite Hp. reflexivity.
Qed.

Lemma find_path_start_total_witness :
  match has_eulerian_path path4 with
  | Ok true => exists v, _find_path_start first_element path4 = Ok (Some v) /\
                         In v (nodes path4)
  | Ok false => _find_path_start first_element path4 = Ok None
  | Raise e => _find_path_start first_element path4 = Raise e
  end.
Proof.
  apply (@find_path_start_total first_element path4).
  - apply first_element_arbitrary.
  - apply path4_wf.
Defined.

(** ** [eulerian_path] raises nothing after its test *)

Lemma working_wf g : wf g -> wf (working g).
Proof.
  intros [Hnd Hwf]. split; [now rewrite working_nodes|].
  intros e He. rewrite working_nodes, working_edges in *.
  destruct (is_directed g); [|now apply Hwf].
  apply in_map_iff in He. destruct He as ([[u v] k] & <- & He).
  destruct (Hwf _ He). split; assumption.
Qed.

Lemma working_has_path g :
  has_eulerian_path (working g) = has_eulerian_path g.
Proof.
  unfold working. destruct (is_directed g) eqn:Hd.
  - now apply has_eulerian_path_reverse.
  - now rewrite copy_eq.
Qed.

(** Once a graph has passed [has_eulerian_path], consuming [eulerian_path]
    raises nothing, whether the caller gives a vertex of the graph as source
    or none: a source is not validated, and [_find_path_start] always answers.
    The items form a chain of at most as many items as the graph has edges,
    and the chain arrives at the source, given or found. *)
Theorem eulerian_path_total (ae : chooser) (h : heap) (G : ref) (g : Graph)
  (source : option node) keys :
  arbitrary ae -> deref h G = Some g -> wf g ->
  (forall s, source = Some s -> In s (nodes g)) ->
  has_eulerian_path g = Ok true ->
  let o := fst (consume (eulerian_path ae G source keys) h) in
  let t := map item_ends (yielded o) in
  failure o = None /\ length t <= length (edges g) /\ is_walk t /\
  exists s,
    In s (nodes g) /\
    match source with
    | Some s' => s' = s
    | None => _find_path_start ae (working g) = Ok (Some s)
    end /\
    snd (last t (s, s)) = s.
Proof.
  intros Hae Hd Hwf Hsrc Hp.
  assert (Hs : exists s, In s (nodes g) /\
             match source with
             | None => _find_path_start ae (working g)
             | Some s => Ok (Some s)
             end = Ok (Some s)).
  { destruct source as [s|].
    - exists s. split; [now apply Hsrc|reflexivity].
    - destruct (@find_path_start_accepts ae (working g) Hae (working_wf Hwf))
        as (v & Hv & Hin); [now rewrite working_has_path|].
      rewrite working_nodes in Hin. eauto. }
  destruct Hs as (s & Hin & Hs).
  destruct (@build_total ae (working g) s keys Hae) as (Hr & _ & Hlen & _ & Hwalk & Hlast).
  unfold consume, eulerian_path. rewrite Hd, Hp. unfold alloc. fold (working g).
  rewrite Hs. cbn [fst yielded failure].
  split; [exact Hr|]. split; [|split; [exact Hwalk|]].
  - assert (E : length (edges (working g)) = length (edges g)).
    { rewrite working_edges. destruct (is_directed g); [apply length_map|reflexivity]. }
    lia.
  - exists s. split; [exact Hin|]. split; [|exact Hlast].
    destruct source as [s'|]; [congruence|exact Hs].
Qed.

Lemma eulerian_path_total_witness :
  let o := fst (consume (eulerian_path first_element 0 (Some 1) false) [path4]) in
  let t := map item_ends (yielded o) in
  failure o = None /\ length t <= length (edges path4) /\ is_walk t /\
  exists s,
    In s (nodes path4) /\ 1 = s /\ snd (last t (s, s)) = s.
Proof.
  apply (@eulerian_path_total first_element [path4] 0 path4 (Some 1) false).
  - apply first_element_arbitrary.
  - reflexivity.
  - apply path4_wf.
  - intros s E. injection E as E. subst. simpl. auto.
  - reflexivity.
Defined.

(** ** What [has_eulerian_path] tests *)

(** A graph with an isolated vertex beside other vertices does not pass
    [has_eulerian_path], whatever its edges: the test asks for the whole
    graph to be connected. *)
Theorem has_path_no_isolated (g : Graph) (u v : node) :
  has_eulerian_path g = Ok true ->
  In u (nodes g) -> In v (nodes g) -> u <> v -> 0 < degree g v.
Proof.
  intros Hp Hu Hv Hne.
  pose proof (has_path_connected g Hp) as Hc.
  destruct (connected_conn g) as [_ Hconn].
  { destruct (is_directed g); auto. }
  destruct (conn_incident (Hconn u v Hu Hv)) as [E|(e & He & Hj)]; [congruence|].
  unfold degree. destruct Hj as [<-|<-].
  - pose proof (count_src_pos e (edges g) He). lia.
  - pose proof (count_dst_pos e (edges g) He). lia.
Qed.

(** An edge and a vertex apart. *)
Definition edge_and_vertex : Graph := mkGraph false false [0; 1; 2] [(0, 1, 0)].

Lemma has_path_no_isolated_witness : 0 < degree path4 1.
Proof.
  apply (@has_path_no_isolated path4 0 1).
  - reflexivity.
  - simpl. auto.
  - simpl. auto.
  - discriminate.
Defined.

(** The single edge of [edge_and_vertex] is a path through all its edges,
    and the test answers no. *)
Example edge_and_vertex_rejected : has_eulerian_path edge_and_vertex = Ok false.
Proof. reflexivity. Qed.

Lemma filter_filter_implied (p q : node -> bool) V :
  (forall v, q v = true -> p v = true) -> filter q V = filter q (filter p V).
Proof.
  intros H. induction V as [|v V IH]; [reflexivity|].
  cbn [filter]. destruct (q v) eqn:Hq.
  - rewrite (H v Hq). cbn [filter]. now rewrite Hq, IH.
  - destruct (p v); cbn [filter]; [rewrite Hq|]; exact IH.
Qed.

(** With at most two unbalanced vertices, at most one has one more edge in
    than out and at most one has one more edge out than in. *)
Lemma semibalanced_redundant g :
  wf g ->
  count_true (fun v => negb (in_degree g v =? out_degree g v)) (nodes g) <= 2 ->
  count_true (fun v => (Z.of_nat (in_degree g v) - Z.of_nat (out_degree g v) =? 1)%Z)
             (nodes g) <= 1 /\
  count_true (fun v => (Z.of_nat (out_degree g v) - Z.of_nat (in_degree g v) =? 1)%Z)
             (nodes g) <= 1.
Proof.
  intros Hwf Hc.
  pose proof (unbalanced_sum Hwf) as Hsum.
  unfold count_true in *.
  set (p := fun v => negb (in_degree g v =? out_degree g v)) in *.
  rewrite (@filter_filter_implied p
             (fun v => (Z.of_nat (in_degree g v) - Z.of_nat (out_degree g v) =? 1)%Z)).
  2:{ intros v Hv. apply Z.eqb_eq in Hv. unfold p. apply negb_true_iff.
      apply Nat.eqb_neq. lia. }
  rewrite (@filter_filter_implied p
             (fun v => (Z.of_nat (out_degree g v) - Z.of_nat (in_degree g v) =? 1)%Z)).
  2:{ intros v Hv. apply Z.eqb_eq in Hv. unfold p. apply negb_true_iff.
      apply Nat.eqb_neq. lia. }
  destruct (filter p (nodes g)) as [|x [|y [|z U]]].
  - simpl. lia.
  - cbn [filter]. destruct (_ =? _)%Z, (_ =? _)%Z; simpl; lia.
  - cbn [sum_over] in Hsum. cbn [filter].
    destruct (Z.of_nat (in_degree g x) - Z.of_nat (out_degree g x) =? 1)%Z eqn:E1,
             (Z.of_nat (in_degree g y) - Z.of_nat (out_degree g y) =? 1)%Z eqn:E2,
             (Z.of_nat (out_degree g x) - Z.of_nat (in_degree g x) =? 1)%Z eqn:E3,
             (Z.of_nat (out_degree g y) - Z.of_nat (in_degree g y) =? 1)%Z eqn:E4;
      simpl; try lia; exfalso;
      rewrite ?Z.eqb_eq, ?Z.eqb_neq in E1, E2, E3, E4; lia.
  - simpl in Hc. lia.
Qed.

(** In the directed case of [has_eulerian_path] the two counts of
    semi-balanced vertices never decide: on a well-formed graph the answer is
    that of the third test, at most two unbalanced vertices, and of the weak
    connectivity. *)
Theorem has_eulerian_path_directed (g : Graph) :
  wf g -> is_directed g = true ->
  has_eulerian_path g =
    if count_true (fun v => negb (in_degree g v =? out_degree g v)) (nodes g) <=? 2
    then is_weakly_connected g else Ok false.
Proof.
  intros Hwf Hdir. unfold has_eulerian_path. rewrite Hdir. cbn zeta.
  destruct (count_true (fun v => negb (in_degree g v =? out_degree g v)) (nodes g) <=? 2)
    eqn:Hc; [|now rewrite andb_false_r].
  apply Nat.leb_le in Hc.
  destruct (semibalanced_redundant Hwf Hc) as [H1 H2].
  apply Nat.leb_le in H1, H2. now rewrite H1, H2.
Qed.

Lemma has_eulerian_path_directed_witness :
  has_eulerian_path unbalanced_digraph =
    if count_true (fun v => negb (in_degree unbalanced_digraph v =?
                                  out_degree unbalanced_digraph v))
                  (nodes unbalanced_digraph) <=? 2
    then is_weakly_connected unbalanced_digraph else Ok false.
Proof.
  apply (@has_eulerian_path_directed unbalanced_digraph).
  - apply wfb_wf; [apply NoDup_nodup_eq|]; reflexivity.
  - reflexivity.
Defined.

(** ** The two builders on any graph *)



(** ** Semi-Eulerian directed graphs *)

(** A directed graph is semi-Eulerian for [is_semieulerian] exactly when it
    is weakly connected and exactly two of its vertices are unbalanced, by
    whatever amount. *)
Theorem is_semieulerian_directed (g : Graph) :
  wf g -> is_directed g = true ->
  (is_semieulerian g = Ok true <->
   is_weakly_connected g = Ok true /\
   count_true (fun v => negb (in_degree g v =? out_degree g v)) (nodes g) = 2).
Proof.
  intros Hwf Hdir.
  set (p := fun v => negb (in_degree g v =? out_degree g v)).
  assert (Hall : forallb (fun n => in_degree g n =? out_degree g n) (nodes g) = true <->
                 count_true p (nodes g) = 0).
  { unfold count_true. split.
    - intros H. rewrite forallb_forall in H.
      rewrite filter_none; [reflexivity|]. intros v Hv. unfold p. now rewrite (H v Hv).
    - intros H. apply forallb_forall. intros v Hv.
      destruct (in_degree g v =? out_degree g v) eqn:E; [reflexivity|exfalso].
      assert (Hin : In v (filter p (nodes g))).
      { apply filter_In. split; [exact Hv|]. unfold p. now rewrite E. }
      destruct (filter p (nodes g)); [destruct Hin|discriminate]. }
  assert (Hone : count_true p (nodes g) <> 1).
  { intros H. pose proof (unbalanced_sum Hwf) as Hsum. fold p in Hsum.
    unfold count_true in H.
    assert (HU : forall x, In x (filter p (nodes g)) -> in_degree g x <> out_degree g x).
    { intros x Hx. apply filter_In in Hx. destruct Hx as [_ Hpx].
      unfold p in Hpx. apply negb_true_iff in Hpx. now apply Nat.eqb_neq in Hpx. }
    destruct (filter p (nodes g)) as [|x [|y U]]; try discriminate.
    pose proof (HU x (in_eq _ _)). cbn [sum_over] in Hsum. lia. }
  unfold is_semieulerian. split.
  - destruct (has_eulerian_path g) as [[|]|e] eqn:Hp; cbn [bind]; try discriminate.
    destruct (is_eulerian g) as [[|]|e] eqn:He; cbn [bind negb]; try discriminate.
    intros _. pose proof (has_path_connected g Hp) as Hc. rewrite Hdir in Hc.
    split; [exact Hc|].
    pose proof Hp as Hp'. unfold has_eulerian_path in Hp'. rewrite Hdir in Hp'.
    cbn zeta in Hp'. destruct (_ && _) eqn:Hcnt in Hp'; [|discriminate].
    apply andb_true_iff in Hcnt. destruct Hcnt as [_ Hcnt]. apply Nat.leb_le in Hcnt.
    fold p in Hcnt.
    assert (Hzero : count_true p (nodes g) <> 0).
    { intros H0. apply Hall in H0.
      assert (is_eulerian g = Ok true); [|congruence].
      unfold is_eulerian. rewrite Hdir, H0.
      apply balanced_strongly_connected; auto.
      rewrite forallb_forall in H0. intros v Hv. apply Nat.eqb_eq. now apply H0. }
    lia.
  - intros [Hc Hcnt].
    assert (Hp : has_eulerian_path g = Ok true).
    { unfold has_eulerian_path. rewrite Hdir. cbn zeta. fold p.
      destruct (@semibalanced_redundant g Hwf) as [H1 H2]; [fold p; lia|].
      apply Nat.leb_le in H1, H2. rewrite H1, H2, Hcnt. exact Hc. }
    assert (He : is_eulerian g = Ok false).
    { unfold is_eulerian. rewrite Hdir.
      destruct (forallb _ (nodes g)) eqn:E; [|reflexivity].
      pose proof (proj1 Hall eq_refl). lia. }
    now rewrite Hp, He.
Qed.

Lemma is_semieulerian_directed_witness :
  is_semieulerian directed_path = Ok true <->
  is_weakly_connected directed_path = Ok true /\
  count_true (fun v => negb (in_degree directed_path v =? out_degree directed_path v))
             (nodes directed_path) = 2.
Proof.
  apply (@is_semieulerian_directed directed_path).
  - apply directed_path_wf.
  - reflexivity.
Defined.

(** ** On an Eulerian graph the path is the circuit *)

(** On a graph that [is_eulerian] accepts, [eulerian_path] and
    [eulerian_circuit] without a source are the same generator: the same
    items, the same working copy, the same final store. *)
Theorem eulerian_path_is_circuit (ae : chooser) (h : heap) (G : ref) (g : Graph) keys :
  deref h G = Some g -> is_eulerian g = Ok true ->
  consume (eulerian_path ae G None keys) h = consume (eulerian_circuit ae G None keys) h.
Proof.
  intros Hd He.
  pose proof (eulerian_has_path g He) as Hp.
  assert (Hew : is_eulerian (working g) = Ok true).
  { unfold working. destruct (is_directed g) eqn:Hdir.
    - now rewrite is_eulerian_reverse.
    - now rewrite copy_eq. }
  unfold consume, eulerian_path, eulerian_circuit. rewrite Hd, He, Hp.
  unfold alloc. fold (working g).
  unfold _find_path_start. rewrite working_has_path, Hp. cbn [bind negb].
  rewrite Hew. cbn [bind].
  destruct (ae _ (nodes (working g))) as [s|e]; reflexivity.
Qed.

Lemma eulerian_path_is_circuit_witness :
  consume (eulerian_path first_element 0 None false) [triangle] =
  consume (eulerian_circuit first_element 0 None false) [triangle].
Proof.
  apply (@eulerian_path_is_circuit first_element [triangle] 0 triangle false).
  - reflexivity.
  - reflexivity.
Defined.
